(** * An incremental lexical analyzer: shallow embedding and verification

    The development embeds the lexer of [lib/mylang/Lexer.js] together with
    the codepoint classifier of [lib/mylang/unicode.js] and the token reading
    loop of [lexer-demo.js].

    - A source chunk is any object with [charCodeAt] and [substring]; the
      chunks here are JavaScript strings, as in the demo: finite sequences
      of UTF-16 code units, [list Z].  [charCodeAt] returns [None] where
      JavaScript returns [NaN].
    - JavaScript numbers are modelled by [Z]; the counters of the lexer are
      far below 2^53 for every input that fits in memory.
    - The queue of chunks is a singly linked list of heap objects
      [{value, next}]; the heap is a [list] of nodes addressed by index, and
      [source]/[sourceTail] are nullable references into it ([option nat]).
      A token object is referred to by the lexer alone until it is returned,
      and is a plain record.
    - Exceptions are modelled by an error type.

    The first part gives the program; the second the notions the properties
    are stated with (the queue as a list, rounds of the loop, sessions of
    calls, the invariant); the third the proofs: the invariant, the history
    of a session, and then the properties of the queue, of chunk boundaries,
    of positions, of value capture, of terminators, of Line tokens and of
    resumption; then the representation of codepoints, the tables of
    tokens, the exceptions of [next], termination, the tiling of the input
    by the tokens, the order of appending and reading, and the chunk
    boundaries that do not show. *)

From Stdlib Require Import ZArith Lia String Ascii.
From stdpp Require Import base option list relations sorting pretty strings gmap.

Local Open Scope Z_scope.

(** ** The codepoint classifier (unicode.js) *)

Module UC.

Definition LINE_FEED        : Z := 0x000A.
Definition QUOTATION_MARK   : Z := 0x0022.
Definition APOSTROPHE       : Z := 0x0027.
Definition PLUS_SIGN        : Z := 0x002B.
Definition FULL_STOP        : Z := 0x002E.
Definition DIGIT_ZERO       : Z := 0x0030.
Definition CAPITAL_LETTER_E : Z := 0x0045.
Definition REVERSE_SOLIDUS  : Z := 0x005C.
Definition SMALL_LETTER_E   : Z := 0x0065.
Definition SMALL_LETTER_X   : Z := 0x0078.

Definition is_space (c : Z) : bool :=
  (c =? 0x0009) || (c =? 0x0020) || (c =? 0x00A0) || (c =? 0x180E)
  || ((0x1fff <? c) && (c <? 0x200C))
  || (c =? 0x202F) || (c =? 0x205F) || (c =? 0x3000) || (c =? 0xFEFF).

Definition is_linebreak (c : Z) : bool :=
  ((0x0009 <? c) && (c <? 0x000E))
  || (c =? 0x0085) || (c =? 0x2028) || (c =? 0x2029).

Definition is_whitespace (c : Z) : bool := is_space c || is_linebreak c.

Definition is_decdigit (c : Z) : bool := (0x002F <? c) && (c <? 0x003A).

Definition is_hexdigit (c : Z) : bool :=
  ((0x002F <? c) && (c <? 0x003A))
  || ((0x0040 <? c) && (c <? 0x0047))
  || ((0x0060 <? c) && (c <? 0x0067)).

(** The digit of value [d], from 0 to 15, as [toString(16)] writes it: the
    letters are lower case. *)
Definition hex_digit (d : Z) : Z :=
  if d <? 10 then 0x30 + d else 0x61 + (d - 10).

(** The digits of [n] in base 16 put before [acc], most significant first;
    [fuel] bounds the number of digits. *)
Fixpoint hex_digits (fuel : nat) (n : Z) (acc : list Z) : list Z :=
  match fuel with
  | O => acc
  | S fuel' =>
      let acc' := hex_digit (n mod 16) :: acc in
      if n <? 16 then acc' else hex_digits fuel' (n / 16) acc'
  end.

(** [c.toString(16)] for an integer [c], as are the codepoints that
    [charCodeAt] returns: the digits of the magnitude, after a minus sign
    when [c] is negative.  A number of [k] bits has at most [k] digits. *)
Definition toString16 (c : Z) : list Z :=
  if c <? 0 then 0x2D :: hex_digits (S (Z.to_nat (Z.log2 (- c)))) (- c) []
  else hex_digits (S (Z.to_nat (Z.log2 c))) c [].

(** [repr(c)]: "U+", zeros that pad small numbers to four digits, and the
    number in base 16. *)
Definition repr (c : Z) : list Z :=
  [0x55; 0x2B]
  ++ (if 0xfff <? c then []
      else if 0xff <? c then [0x30]
      else if 0xf <? c then [0x30; 0x30]
      else [0x30; 0x30; 0x30])
  ++ toString16 c.

End UC.

(** ** Strings *)

(** A chunk, and the textual value of a token: a string of code units. *)
Abbreviation Chunk := (list Z) (only parsing).

(** [s.charCodeAt(i)]; [None] stands for [NaN] (index out of bounds). *)
Definition charCodeAt (s : Chunk) (i : Z) : option Z :=
  if 0 <=? i then s !! Z.to_nat i else None.

(** [s.substring(a, b)]: both indices are clamped to [0, length] and swapped
    when out of order. *)
Definition substring (s : Chunk) (a b : Z) : Chunk :=
  let len := Z.of_nat (length s) in
  let a' := Z.max 0 (Z.min a len) in
  let b' := Z.max 0 (Z.min b len) in
  take (Z.to_nat (Z.max a' b' - Z.min a' b')) (drop (Z.to_nat (Z.min a' b')) s).

(** [s.substring(a)] *)
Definition substring_from (s : Chunk) (a : Z) : Chunk :=
  substring s a (Z.of_nat (length s)).

(** Code units of a literal made of ASCII characters. *)
Fixpoint str (s : string) : Chunk :=
  match s with
  | EmptyString => []
  | String a s' => Z.of_N (N_of_ascii a) :: str s'
  end.

(** ** Tokens *)

Inductive TokenKind : Type :=
  | LINE | LEFT_PAREN | RIGHT_PAREN | LEFT_SQUARE_BRACKET
  | RIGHT_SQUARE_BRACKET | LEFT_CURLY_BRACKET | RIGHT_CURLY_BRACKET
  | FULL_STOP | COLON | DECIMAL_NUMBER | HEX_NUMBER | FRACTIONAL_NUMBER
  | SYMBOL | TEXT.

(** The numeric identifier [deftok] hands out, in definition order. *)
Definition tok_id (k : TokenKind) : Z :=
  match k with
  | LINE => 0 | LEFT_PAREN => 1 | RIGHT_PAREN => 2
  | LEFT_SQUARE_BRACKET => 3 | RIGHT_SQUARE_BRACKET => 4
  | LEFT_CURLY_BRACKET => 5 | RIGHT_CURLY_BRACKET => 6
  | FULL_STOP => 7 | COLON => 8 | DECIMAL_NUMBER => 9 | HEX_NUMBER => 10
  | FRACTIONAL_NUMBER => 11 | SYMBOL => 12 | TEXT => 13
  end.

Definition TokenKind_eqb (a b : TokenKind) : bool := tok_id a =? tok_id b.

(** The table [SINGLE_TOKENS], filled by the calls of [deftok] that pass a
    character; [None] is the [undefined] of a missing key. *)
Definition SINGLE_TOKENS (c : Z) : option TokenKind :=
  if c =? 0x28 then Some LEFT_PAREN
  else if c =? 0x29 then Some RIGHT_PAREN
  else if c =? 0x5B then Some LEFT_SQUARE_BRACKET
  else if c =? 0x5D then Some RIGHT_SQUARE_BRACKET
  else if c =? 0x7B then Some LEFT_CURLY_BRACKET
  else if c =? 0x7D then Some RIGHT_CURLY_BRACKET
  else if c =? 0x2E then Some FULL_STOP
  else if c =? 0x3A then Some COLON
  else None.

Definition is_symbol_character (c : Z) : bool :=
  (0x0020 <? c)
  && negb (c =? UC.REVERSE_SOLIDUS)
  && negb ((0x007E <? c) && (c <? 0x00A1))
  && negb (UC.is_whitespace c)
  && negb (bool_decide (is_Some (SINGLE_TOKENS c))).

(** ** The definition of the tokens *)

Module Deftok.

(** What [deftok] reads and writes: the counter [next_tok_id], the
    properties [Lexer[name]] it adds to the constructor, and the tables
    [TOKEN_NAMES] and [SINGLE_TOKENS].  An object used as a table is a
    finite map; a number used as a key stands for its decimal string.  The
    names are the identifiers the module defines tokens for, none of them a
    property that a function object has of its own. *)
Record Registry : Type := mkRegistry {
  next_tok_id   : Z;
  Lexer_ids     : gmap string Z;
  TOKEN_NAMES   : gmap Z string;
  SINGLE_TOKENS : gmap Z Z;
}.

(** The state in which the module makes its first call of [deftok]. *)
Definition Registry_new : Registry :=
  {| next_tok_id := 0; Lexer_ids := empty; TOKEN_NAMES := empty;
     SINGLE_TOKENS := empty |}.

(** The names under which the constructor [Lexer], a function object that
    is also [exports], has a property when [deftok] runs: its own ([length],
    [name], [prototype], and [TOKEN_NAMES], which the module has just set),
    those of the prototype of functions, and those of the prototype of
    objects.  In strict code the write [Lexer[name] = id] raises a
    TypeError for [length] and [name], which are not writable, and for
    [arguments] and [caller], whose setters raise; it stores nothing for
    [__proto__], whose setter ignores a number; for [TOKEN_NAMES] it
    replaces the table of names by a number, and the write into the table
    that follows raises; for the other names it stores [id] over a property
    that is there already. *)
Definition Lexer_properties : list string :=
  [ "length"; "name"; "prototype"; "TOKEN_NAMES";
    "arguments"; "caller"; "apply"; "bind"; "call"; "constructor";
    "toString";
    "__proto__"; "__defineGetter__"; "__defineSetter__"; "__lookupGetter__";
    "__lookupSetter__"; "hasOwnProperty"; "isPrototypeOf";
    "propertyIsEnumerable"; "toLocaleString"; "valueOf" ]%string.

(** A name under which [Lexer] has no property: the write [Lexer[name] = id]
    adds a property, and nothing else. *)
Definition fresh_name (name : string) : Prop := name ∉ Lexer_properties.

(** [deftok(name, single_char)], for a [name] under which [Lexer] has no
    property (as the names of the module are).  [single_char] is [None]
    when the argument is left out; the test [if (single_char)] fails on
    [undefined] and on the empty string, and [single_char.charCodeAt(0)] is
    the first code unit of any other string. *)
Definition deftok (name : string) (single_char : option (list Z))
  (R : Registry) : Z * Registry :=
  let id := next_tok_id R in
  let names := <[id := name]> (TOKEN_NAMES R) in
  let ids := <[name := id]> (Lexer_ids R) in
  match single_char with
  | Some (c :: _) =>
      (id, {| next_tok_id := id + 1; Lexer_ids := ids; TOKEN_NAMES := names;
              SINGLE_TOKENS := <[c := id]> (SINGLE_TOKENS R) |})
  | _ =>
      (id, {| next_tok_id := id + 1; Lexer_ids := ids; TOKEN_NAMES := names;
              SINGLE_TOKENS := SINGLE_TOKENS R |})
  end.

(** A sequence of calls of [deftok], the identifiers dropped. *)
Definition deftoks (defs : list (string * option (list Z))) (R : Registry)
  : Registry :=
  fold_left (fun R d => snd (deftok (fst d) (snd d) R)) defs R.

(** The calls the module makes when it is loaded, in order. *)
Definition definitions : list (string * option (list Z)) :=
  [ ("LINE"%string,                 None);
    ("LEFT_PAREN"%string,           Some (str "("));
    ("RIGHT_PAREN"%string,          Some (str ")"));
    ("LEFT_SQUARE_BRACKET"%string,  Some (str "["));
    ("RIGHT_SQUARE_BRACKET"%string, Some (str "]"));
    ("LEFT_CURLY_BRACKET"%string,   Some (str "{"));
    ("RIGHT_CURLY_BRACKET"%string,  Some (str "}"));
    ("FULL_STOP"%string,            Some (str "."));
    ("COLON"%string,                Some (str ":"));
    ("DECIMAL_NUMBER"%string,       None);
    ("HEX_NUMBER"%string,           None);
    ("FRACTIONAL_NUMBER"%string,    None);
    ("SYMBOL"%string,               None);
    ("TEXT"%string,                 None) ].

(** The tables of the loaded module. *)
Definition registry : Registry := deftoks definitions Registry_new.

End Deftok.

(** The name under which the kind [k] is defined. *)
Definition token_name (k : TokenKind) : string :=
  match k with
  | LINE => "LINE" | LEFT_PAREN => "LEFT_PAREN" | RIGHT_PAREN => "RIGHT_PAREN"
  | LEFT_SQUARE_BRACKET => "LEFT_SQUARE_BRACKET"
  | RIGHT_SQUARE_BRACKET => "RIGHT_SQUARE_BRACKET"
  | LEFT_CURLY_BRACKET => "LEFT_CURLY_BRACKET"
  | RIGHT_CURLY_BRACKET => "RIGHT_CURLY_BRACKET"
  | FULL_STOP => "FULL_STOP" | COLON => "COLON"
  | DECIMAL_NUMBER => "DECIMAL_NUMBER" | HEX_NUMBER => "HEX_NUMBER"
  | FRACTIONAL_NUMBER => "FRACTIONAL_NUMBER" | SYMBOL => "SYMBOL"
  | TEXT => "TEXT"
  end.

(** The [value] property of a token object: absent, a number (Line tokens,
    set when flushed) or a string. *)
Inductive TokenValue : Type :=
  | VUndefined
  | VNum (n : Z)
  | VStr (s : Chunk).

Record Token : Type := mkToken {
  type   : TokenKind;
  value  : TokenValue;
  offset : Z;
  line   : Z;
  column : Z;
}.

Definition set_value (v : TokenValue) (t : Token) : Token :=
  {| type := type t; value := v; offset := offset t; line := line t;
     column := column t |}.

Definition set_type (k : TokenKind) (t : Token) : Token :=
  {| type := k; value := value t; offset := offset t; line := line t;
     column := column t |}.

(** The string a value converts to under JavaScript's [+] with a string. *)
Definition to_js_string (v : TokenValue) : Chunk :=
  match v with
  | VUndefined => str "undefined"
  | VNum n => str (pretty n)
  | VStr s => s
  end.

(** [token.value += String.fromCharCode(c)] *)
Definition append_char (c : Z) (t : Token) : Token :=
  set_value (VStr (to_js_string (value t) ++ [c])) t.

(** ** The lexer object and the heap of chunk nodes *)

Abbreviation loc := nat (only parsing).

Module Node.
Record t : Type := mk { value : Chunk; next : option loc }.
End Node.

Abbreviation Heap := (list Node.t) (only parsing).

Record Lexer : Type := mkLexer {
  source           : option loc;
  sourceTail       : option loc;
  sourceOffset     : Z;
  tokenOffset      : Z;
  tokenLine        : Z;
  tokenColumn      : Z;
  token            : option Token;
  tokenValueOffset : Z;
}.

(** [Lexer()] *)
Definition Lexer_new : Lexer :=
  {| source := None; sourceTail := None; sourceOffset := 0;
     tokenOffset := 0; tokenLine := 0; tokenColumn := 0;
     token := None; tokenValueOffset := -1 |}.

Definition set_queue (s tl : option loc) (L : Lexer) : Lexer :=
  {| source := s; sourceTail := tl; sourceOffset := sourceOffset L;
     tokenOffset := tokenOffset L; tokenLine := tokenLine L;
     tokenColumn := tokenColumn L; token := token L;
     tokenValueOffset := tokenValueOffset L |}.

Definition set_sourceOffset (o : Z) (L : Lexer) : Lexer :=
  {| source := source L; sourceTail := sourceTail L; sourceOffset := o;
     tokenOffset := tokenOffset L; tokenLine := tokenLine L;
     tokenColumn := tokenColumn L; token := token L;
     tokenValueOffset := tokenValueOffset L |}.

Definition set_position (o l c : Z) (L : Lexer) : Lexer :=
  {| source := source L; sourceTail := sourceTail L;
     sourceOffset := sourceOffset L;
     tokenOffset := o; tokenLine := l; tokenColumn := c; token := token L;
     tokenValueOffset := tokenValueOffset L |}.

Definition set_token (t : option Token) (L : Lexer) : Lexer :=
  {| source := source L; sourceTail := sourceTail L;
     sourceOffset := sourceOffset L;
     tokenOffset := tokenOffset L; tokenLine := tokenLine L;
     tokenColumn := tokenColumn L; token := t;
     tokenValueOffset := tokenValueOffset L |}.

Definition set_tokenValueOffset (o : Z) (L : Lexer) : Lexer :=
  {| source := source L; sourceTail := sourceTail L;
     sourceOffset := sourceOffset L;
     tokenOffset := tokenOffset L; tokenLine := tokenLine L;
     tokenColumn := tokenColumn L; token := token L;
     tokenValueOffset := o |}.

(** The exceptions the program can raise. *)
Inductive Error : Type :=
  | UnexpectedCharacter (c : Z)   (* 'Unexpected character ' + UC.repr(c) *)
  | UnexpectedX                   (* 'Syntax error: Unexpected "x" in number literal' *)
  | TextNotImplemented            (* 'Lesson 1: Implement reading of Text tokens' *)
  | UnexpectedTokenType (k : TokenKind)
  | ReferenceError (name : string) (* an identifier with no binding is read *)
  | TypeError.                    (* a property of null or undefined is used *)

(** The whole mutable state: the object heap and the lexer object. *)
Record State : Type := mkState { heap : Heap; this : Lexer }.

Definition State_new : State := {| heap := []; this := Lexer_new |}.

(** [appendSource(chunk)]: a fresh node is allocated; it becomes the head of
    an empty queue or is linked behind the node [sourceTail] refers to. *)
Definition appendSource (chunk : Chunk) (st : State) : Error + State :=
  let h := heap st in
  let L := this st in
  let node := length h in
  let h1 := h ++ [Node.mk chunk None] in
  match source L with
  | None =>
      inr {| heap := h1; this := set_queue (Some node) (Some node) L |}
  | Some s =>
      match sourceTail L with
      | None => inl TypeError
      | Some tl =>
          match h1 !! tl with
          | None => inl TypeError
          | Some nd =>
              inr {| heap := <[tl := Node.mk (Node.value nd) (Some node)]> h1;
                     this := set_queue (Some s) (Some node) L |}
          end
      end
  end.

(** [makeToken(type)] *)
Definition makeToken (k : TokenKind) (L : Lexer) : Token :=
  {| type := k; value := VUndefined; offset := tokenOffset L;
     line := tokenLine L; column := tokenColumn L |}.

(** [flushToken()].  [src] is [this.source.value] when [this.source] is not
    null. *)
Definition flushToken (src : option Chunk) (L : Lexer) : Error + (Token * Lexer) :=
  match token L with
  | None => inl TypeError
  | Some t =>
      let L1 := set_token None L in
      match type t with
      | LINE =>
          inr (set_value (VNum (tokenOffset L - offset t - 1)) t, L1)
      | _ =>
          if negb (tokenValueOffset L =? -1) then
            match src with
            | None => inl TypeError
            | Some v =>
                inr (set_value
                       (VStr (substring v (tokenValueOffset L) (sourceOffset L))) t,
                     set_tokenValueOffset (-1) L1)
            end
          else inr (t, L1)
      end
  end.

(** ** One pass through the body of the character loop of [next] *)

(** How control leaves the [if (this.token === null) ... else switch ...]
    statement. *)
Inductive Branch : Type :=
  | Fall (tok : option Token) (L : Lexer)
      (* control reaches the counter increments; [tok] is the local
         variable [token], [None] for [undefined] *)
  | Return (t : Token) (L : Lexer)   (* [return this.flushToken()] *)
  | Raise (e : Error).

(** The condition guarding [throw new Error('Syntax error: Unexpected "x"
    ...')], evaluated left to right with short-circuiting.  [v] is
    [this.source.value] and [t] the token being read.  The second disjunct
    compares against the identifier [DIGIT_ZERO], which has no binding in
    the module (the constant is [UC.DIGIT_ZERO]): evaluating it raises a
    ReferenceError. *)
Definition hex_prefix_check (v : Chunk) (L : Lexer) (t : Token) : Error + bool :=
  if negb (tokenValueOffset L =? -1) then
    if negb (tokenValueOffset L =? sourceOffset L - 1)
       || negb (bool_decide (charCodeAt v (tokenValueOffset L) = Some UC.DIGIT_ZERO))
    then inr true
    else inr false
  else
    match value t with
    | VUndefined => inl TypeError          (* [undefined.length] *)
    | VNum _ => inr true                   (* [n.length] is [undefined] *)
    | VStr s =>
        if negb (Z.of_nat (length s) =? 1) then inr true
        else inl (ReferenceError "DIGIT_ZERO")
    end.

(** The branch taken when no token is being read. *)
Definition start_token (c : Z) (L : Lexer) : Branch :=
  match SINGLE_TOKENS c with
  | Some k => Fall (Some (makeToken k L)) L
  | None =>
      if c =? UC.LINE_FEED then
        Fall None
          (set_position (tokenOffset L) (tokenLine L + 1) (-1)
             (set_token (Some (makeToken LINE L)) L))
      else if c =? UC.APOSTROPHE then
        Fall None
          (set_tokenValueOffset (sourceOffset L)
             (set_token (Some (makeToken TEXT L)) L))
      else if UC.is_decdigit c then
        Fall None
          (set_tokenValueOffset (sourceOffset L)
             (set_token (Some (makeToken DECIMAL_NUMBER L)) L))
      else if is_symbol_character c then
        Fall None
          (set_tokenValueOffset (sourceOffset L)
             (set_token (Some (makeToken SYMBOL L)) L))
      else if UC.is_whitespace c then
        if sourceOffset L =? 0 then
          Fall None (set_token (Some (makeToken LINE L)) L)
        else Fall None L
      else Raise (UnexpectedCharacter c)
  end.

(** [return this.flushToken()] inside the loop, where [this.source] is the
    node holding [v]. *)
Definition return_flush (v : Chunk) (L : Lexer) : Branch :=
  match flushToken (Some v) L with
  | inl e => Raise e
  | inr (t, L') => Return t L'
  end.

(** The token being read stays in progress as [t]; "if the token is
    buffered, append the character". *)
Definition keep_reading (c : Z) (t : Token) (L : Lexer) : Branch :=
  Fall None
    (set_token
       (Some (if tokenValueOffset L =? -1 then append_char c t else t)) L).

(** The branch taken while token [t] is being read: the [switch]. *)
Definition continue_token (v : Chunk) (c : Z) (t : Token) (L : Lexer) : Branch :=
  match type t with
  | SYMBOL =>
      if is_symbol_character c then keep_reading c t L else return_flush v L
  | DECIMAL_NUMBER =>
      if c =? UC.SMALL_LETTER_X then
        match hex_prefix_check v L t with
        | inl e => Raise e
        | inr true => Raise UnexpectedX
        | inr false => keep_reading c (set_type HEX_NUMBER t) L
        end
      else if c =? UC.FULL_STOP then
        keep_reading c (set_type FRACTIONAL_NUMBER t) L
      else if negb (UC.is_decdigit c) then return_flush v L
      else keep_reading c t L
  | HEX_NUMBER =>
      if UC.is_hexdigit c then keep_reading c t L else return_flush v L
  | FRACTIONAL_NUMBER =>
      if (c =? UC.FULL_STOP) || (c =? UC.PLUS_SIGN)
         || (c =? UC.CAPITAL_LETTER_E) || (c =? UC.SMALL_LETTER_E)
         || UC.is_decdigit c
      then keep_reading c t L else return_flush v L
  | TEXT => Raise TextNotImplemented
  | LINE =>
      if negb (UC.is_space c) then return_flush v L else Fall None L
  | k => Raise (UnexpectedTokenType k)
  end.

Definition branch (v : Chunk) (c : Z) (L : Lexer) : Branch :=
  match token L with
  | None => start_token c L
  | Some t => continue_token v c t L
  end.

(** "Increment source counters and advance input" *)
Definition advance (L : Lexer) : Lexer :=
  set_position (tokenOffset L + 1) (tokenLine L) (tokenColumn L + 1)
    (set_sourceOffset (sourceOffset L + 1) L).

(** How one pass through the loop body ends. *)
Inductive Iter : Type :=
  | IContinue (L : Lexer)          (* the loop goes on *)
  | IReturn (t : Token) (L : Lexer) (* [next] returns [t] *)
  | IThrow (e : Error).

(** One pass through the body of [while (!isNaN(c = ...charCodeAt(...)))]
    on the codepoint [c] read from the chunk [v]. *)
Definition iteration (v : Chunk) (c : Z) (L : Lexer) : Iter :=
  match branch v c L with
  | Fall tok L1 =>
      let L2 := advance L1 in
      match tok with
      | Some t => IReturn t L2
      | None => IContinue L2
      end
  | Return t L1 => IReturn t L1
  | Raise e => IThrow e
  end.

(** The statements after the character loop, run when the chunk of node
    [nd] is exhausted: a value still held as a slice of the chunk is copied
    into the token, and the node is dropped from the queue. *)
Definition chunk_end (nd : Node.t) (L : Lexer) : Error + Lexer :=
  let dropped L1 :=
    set_sourceOffset 0
      (set_queue (Node.next nd)
         (match Node.next nd with None => None | Some _ => sourceTail L1 end)
         L1) in
  if negb (tokenValueOffset L =? -1) then
    match token L with
    | None => inl TypeError
    | Some t =>
        inr (dropped
               (set_tokenValueOffset (-1)
                  (set_token
                     (Some (set_value
                              (VStr (substring_from (Node.value nd)
                                       (tokenValueOffset L))) t)) L)))
    end
  else inr (dropped L).

(** ** [next] *)

Inductive Outcome : Type :=
  | Ret (r : option Token) (L : Lexer)  (* a token, or [None] for [null] *)
  | Throw (e : Error) (L : Lexer)       (* an exception; the lexer as left *)
  | OutOfFuel.

(** The two nested [while] loops of [next], as one loop: each round either
    runs the loop body on the next codepoint of the head chunk or, when the
    head chunk is exhausted, runs the statements that follow the character
    loop.  The lexer only reads the heap.  An exception leaves the lexer as
    the statements before the [throw] made it: [flushToken] has cleared
    [this.token] when it fails; every other exception is raised before
    anything is assigned.  A reference always leads to an object: the case
    of an address with no node is there for the heap being a list. *)
Fixpoint next_loop (fuel : nat) (h : Heap) (source_ended : bool) (L : Lexer)
  : Outcome :=
  match fuel with
  | O => OutOfFuel
  | S fuel' =>
      match source L with
      | None =>
          if source_ended && bool_decide (is_Some (token L)) then
            match flushToken None L with
            | inl e => Throw e (set_token None L)
            | inr (t, L') => Ret (Some t) L'
            end
          else Ret None L
      | Some s =>
          match h !! s with
          | None => Throw TypeError L
          | Some nd =>
              match charCodeAt (Node.value nd) (sourceOffset L) with
              | Some c =>
                  match iteration (Node.value nd) c L with
                  | IContinue L' => next_loop fuel' h source_ended L'
                  | IReturn t L' => Ret (Some t) L'
                  | IThrow e => Throw e L
                  end
              | None =>
                  match chunk_end nd L with
                  | inl e => Throw e L
                  | inr L' => next_loop fuel' h source_ended L'
                  end
              end
          end
      end
  end.

(** Rounds that always suffice: one per codepoint and one per node of the
    heap, and the final one. *)
Definition fuel_of (h : Heap) : nat :=
  S (length h + sum_list (map (fun nd => length (Node.value nd)) h)).

Inductive Result : Type :=
  | Returned (r : option Token) (st : State)
  | Thrown (e : Error) (st : State)
  | Diverged.

(** [next(source_ended)] *)
Definition next (source_ended : bool) (st : State) : Result :=
  match next_loop (fuel_of (heap st)) (heap st) source_ended (this st) with
  | Ret r L => Returned r {| heap := heap st; this := L |}
  | Throw e L => Thrown e {| heap := heap st; this := L |}
  | OutOfFuel => Diverged
  end.

(** ** Reading all tokens (lexer-demo.js) *)

(** How [read_tokens] ends: [next] returned null and left the state [st],
    or raised [e], or the bound on the number of calls was reached. *)
Inductive Ending : Type :=
  | Drained (st : State)
  | Threw (e : Error)
  | Unfinished.

(** [read_tokens(L, source_ended)]: [while ((tok = L.next(source_ended)))],
    collecting the tokens the demo prints, for at most [fuel] calls. *)
Fixpoint read_tokens (fuel : nat) (source_ended : bool) (st : State)
  : list Token * Ending :=
  match fuel with
  | O => ([], Unfinished)
  | S fuel' =>
      match next source_ended st with
      | Returned (Some t) st' =>
          let '(ts, r) := read_tokens fuel' source_ended st' in (t :: ts, r)
      | Returned None st' => ([], Drained st')
      | Thrown e _ => ([], Threw e)
      | Diverged => ([], Unfinished)
      end
  end.

(** A bound on the calls of [next] a reading makes: two for every round of
    the loop that the queue allows, and two more. *)
Definition tokens_fuel (st : State) : nat := 2 * fuel_of (heap st) + 2.

(** How a session ends. *)
Inductive Verdict : Type :=
  | Complete              (* every reading ended on null *)
  | Failed (e : Error)    (* a call raised [e] *)
  | Incomplete.           (* a reading reached its bound *)

(** A session that appends the chunks one at a time and reads all tokens
    after each; the last reading signals the end of the source. *)
Fixpoint feed (chunks : list Chunk) (st : State) : list Token * Verdict :=
  match chunks with
  | [] => ([], Complete)
  | c :: rest =>
      match appendSource c st with
      | inl e => ([], Failed e)
      | inr st1 =>
          let last_pass := bool_decide (rest = []) in
          match read_tokens (tokens_fuel st1) last_pass st1 with
          | (ts, Threw e) => (ts, Failed e)
          | (ts, Unfinished) => (ts, Incomplete)
          | (ts, Drained st2) =>
              let '(ts', r) := feed rest st2 in (ts ++ ts', r)
          end
      end
  end.

(** A session that appends all chunks first and then reads all tokens, the
    end of the source signalled. *)
Fixpoint append_all (chunks : list Chunk) (st : State) : Error + State :=
  match chunks with
  | [] => inr st
  | c :: rest =>
      match appendSource c st with
      | inl e => inl e
      | inr st1 => append_all rest st1
      end
  end.

Definition feed_queued (chunks : list Chunk) (st : State)
  : list Token * Verdict :=
  match append_all chunks st with
  | inl e => ([], Failed e)
  | inr st1 =>
      match read_tokens (tokens_fuel st1) true st1 with
      | (ts, Threw e) => (ts, Failed e)
      | (ts, Unfinished) => (ts, Incomplete)
      | (ts, Drained _) => (ts, Complete)
      end
  end.

Definition lex (chunks : list Chunk) : list Token * Verdict :=
  feed chunks State_new.

Definition lex_queued (chunks : list Chunk) : list Token * Verdict :=
  feed_queued chunks State_new.

(** ** The queue as a list of chunks *)

(** The chunks found by following [next] references from [p], at most
    [fuel] of them. *)
Fixpoint chunks_from (fuel : nat) (h : Heap) (p : option loc) : list Chunk :=
  match fuel, p with
  | S fuel', Some l =>
      match h !! l with
      | Some nd => Node.value nd :: chunks_from fuel' h (Node.next nd)
      | None => []
      end
  | _, _ => []
  end.

(** The queued chunks, head first. *)
Definition queue (st : State) : list Chunk :=
  chunks_from (length (heap st)) (heap st) (source (this st)).

(** The codepoints queued and not yet consumed. *)
Definition pending (st : State) : list Z :=
  drop (Z.to_nat (sourceOffset (this st))) (concat (queue st)).

(** ** Rounds of the loop *)

(** [round h L L']: one round of the loop of [next] takes the lexer from [L]
    to [L'] and the loop goes on. *)
Inductive round (h : Heap) (L L' : Lexer) : Prop :=
  | round_char s nd c :
      source L = Some s -> h !! s = Some nd ->
      charCodeAt (Node.value nd) (sourceOffset L) = Some c ->
      iteration (Node.value nd) c L = IContinue L' ->
      round h L L'
  | round_chunk s nd :
      source L = Some s -> h !! s = Some nd ->
      charCodeAt (Node.value nd) (sourceOffset L) = None ->
      chunk_end nd L = inr L' ->
      round h L L'.

(** ** Sessions *)

(** [session st chunks toks]: the state [st] is reached from a new lexer by
    some sequence of calls of [appendSource] and [next], in which [chunks]
    were appended, in this order, and the tokens [toks] were returned, in
    this order. *)
Inductive session : State -> list Chunk -> list Token -> Prop :=
  | session_new : session State_new [] []
  | session_append st chunks toks c st' :
      session st chunks toks ->
      appendSource c st = inr st' ->
      session st' (chunks ++ [c]) toks
  | session_next st chunks toks se r st' :
      session st chunks toks ->
      next se st = Returned r st' ->
      session st' chunks (toks ++ option_list r)
  | session_throw st chunks toks se e st' :
      session st chunks toks ->
      next se st = Thrown e st' ->
      session st' chunks toks.

(** The states the lexer goes through: those between two calls and those
    between two rounds of the loop of a call of [next]. *)
Definition reachable (st : State) : Prop :=
  exists L0 chunks toks,
    session {| heap := heap st; this := L0 |} chunks toks
    /\ rtc (round (heap st)) L0 (this st).

(** ** Well-formed states *)

Definition lt_opt (prev : option loc) (l : loc) : Prop :=
  match prev with Some l0 => (l0 < l)%nat | None => True end.

(** [chain h prev p q tl]: following [next] references from [p] leads
    through nodes that hold the chunks [q], at increasing addresses above
    [prev]; [tl] refers to the last of these nodes, or is [prev] when there
    is none. *)
Fixpoint chain (h : Heap) (prev p : option loc) (q : list Chunk)
  (tl : option loc) : Prop :=
  match q with
  | [] => p = None /\ tl = prev
  | v :: q' =>
      exists l nx,
        p = Some l /\ h !! l = Some (Node.mk v nx) /\ lt_opt prev l
        /\ chain h (Some l) nx q' tl
  end.

(** The kinds of token that are read over several codepoints. *)
Definition reading_kind (k : TokenKind) : bool :=
  match k with
  | LINE | DECIMAL_NUMBER | HEX_NUMBER | FRACTIONAL_NUMBER | SYMBOL | TEXT =>
      true
  | _ => false
  end.

(** The offset into the head chunk lies within the chunk. *)
Definition offset_ok (L : Lexer) (q : list Chunk) : Prop :=
  match q with
  | [] => sourceOffset L = 0
  | v :: _ => 0 <= sourceOffset L <= Z.of_nat (length v)
  end.

(** The token being read, if any, is of a kind read over several
    codepoints and began before the current position.  A Line token has no
    value; the text of any other token is either a slice of the head chunk
    that starts at [tokenValueOffset], or was copied into the token and
    [tokenValueOffset] is -1. *)
Definition token_ok (L : Lexer) (q : list Chunk) : Prop :=
  match token L with
  | None => tokenValueOffset L = -1
  | Some t =>
      reading_kind (type t) = true
      /\ offset t < tokenOffset L
      /\ if TokenKind_eqb (type t) LINE
         then tokenValueOffset L = -1 /\ value t = VUndefined
         else (tokenValueOffset L = -1
               /\ exists s, value t = VStr s
                    /\ Z.of_nat (length s) = tokenOffset L - offset t)
              \/ (0 <= tokenValueOffset L < sourceOffset L
                  /\ q <> []
                  /\ sourceOffset L - tokenValueOffset L
                     = tokenOffset L - offset t)
  end.

(** The invariant of the loop of [next], for a queue holding [q]. *)
Definition Inv (h : Heap) (L : Lexer) (q : list Chunk) : Prop :=
  chain h None (source L) q (sourceTail L) /\ offset_ok L q /\ token_ok L q.

Definition LF : Chunk := [UC.LINE_FEED].

(** The pending codepoints, for the queue [q]. *)
Definition pend (L : Lexer) (q : list Chunk) : list Z :=
  drop (Z.to_nat (sourceOffset L)) (concat q).

(** What is left to do: a round per pending codepoint and per chunk. *)
Definition work (L : Lexer) (q : list Chunk) : nat :=
  (length (pend L q) + length q)%nat.

(** What the invariant asks of the way control leaves the branches. *)
Definition branch_ok (h : Heap) (v : Chunk) (q : list Chunk) (b : Branch) : Prop :=
  match b with
  | Fall _ L1 => Inv h (advance L1) (v :: q)
  | Return _ L1 => Inv h L1 (v :: q)
  | Raise _ => True
  end.

(** ** Positions, counted from the start of the input *)

(** The step of the position counters over one codepoint, [brk] telling
    which codepoints break lines. *)
Definition position_step (brk : Z -> bool) (p : Z * Z) (c : Z) : Z * Z :=
  if brk c then (fst p + 1, 0) else (fst p, snd p + 1).

(** Line and column reached from (0, 0) after the codepoints [cs]. *)
Definition position_by (brk : Z -> bool) (cs : list Z) : Z * Z :=
  fold_left (position_step brk) cs (0, 0).

Definition is_line_feed (c : Z) : bool := c =? UC.LINE_FEED.

(** Two token objects with the same position fields: one token at two
    moments of its reading. *)
Definition same_start (t t' : Token) : Prop :=
  offset t' = offset t /\ line t' = line t /\ column t' = column t.

(** [t] was made by [makeToken] in state [L]. *)
Definition made_at (L : Lexer) (t : Token) : Prop :=
  offset t = tokenOffset L /\ line t = tokenLine L /\ column t = tokenColumn L.

(** The position fields of [t] are those of a token whose first codepoint
    comes after [take (offset t) consumed]. *)
Definition tok_pos (consumed : list Z) (t : Token) : Prop :=
  0 <= offset t < Z.of_nat (length consumed)
  /\ (line t, column t)
     = position_by is_line_feed (take (Z.to_nat (offset t)) consumed).

(** Where the next token to be returned begins, at the earliest. *)
Definition frontier (L : Lexer) : Z :=
  match token L with Some t => offset t | None => tokenOffset L end.

(** The history of a session, kept beside the state: [chunks] were appended
    and [toks] returned so far.  The codepoints appended are those consumed
    followed by those pending; the queue holds the last chunks appended;
    the counters count the consumed codepoints; the tokens returned and the
    token in progress begin where their position fields say, in the order
    they were returned. *)
Definition Track (chunks : list Chunk) (toks : list Token)
  (L : Lexer) (q : list Chunk) : Prop :=
  exists consumed,
    concat chunks = consumed ++ pend L q
    /\ (exists k, q = drop k chunks)
    /\ tokenOffset L = Z.of_nat (length consumed)
    /\ (tokenLine L, tokenColumn L) = position_by is_line_feed consumed
    /\ (forall t, token L = Some t -> tok_pos consumed t)
    /\ Forall (tok_pos consumed) toks
    /\ Forall (fun t => offset t < frontier L) toks
    /\ StronglySorted (fun a b => offset a < offset b) toks.

(** ** The life of a token *)

(** One step of the lexer that returns nothing: a round of the loop of
    [next], or a call of [appendSource].  (A call of [next] that returns
    null leaves the lexer as its last round left it.) *)
Inductive progress : State -> State -> Prop :=
  | progress_round h L L' :
      round h L L' -> progress {| heap := h; this := L |} {| heap := h; this := L' |}
  | progress_append c st st' :
      appendSource c st = inr st' -> progress st st'.

(** The head chunk has no codepoint left at the current offset. *)
Definition exhausted (st : State) : Prop :=
  exists s nd,
    source (this st) = Some s /\ heap st !! s = Some nd
    /\ charCodeAt (Node.value nd) (sourceOffset (this st)) = None.

(** The step from [a] to [b] takes the value capture from the slice held by
    [tokenValueOffset] to the copy held by the token. *)
Definition switches (a b : State) : Prop :=
  tokenValueOffset (this a) <> -1 /\ tokenValueOffset (this b) = -1.

(** ** Tokens that end on a codepoint they do not contain *)

Definition symbol_or_number (k : TokenKind) : bool :=
  match k with
  | SYMBOL | DECIMAL_NUMBER | HEX_NUMBER | FRACTIONAL_NUMBER => true
  | _ => false
  end.

(** The codepoints on which a token of kind [k] ends: those for which the
    [case] of [k] reaches [return this.flushToken()]. *)
Definition terminates (k : TokenKind) (c : Z) : bool :=
  match k with
  | SYMBOL => negb (is_symbol_character c)
  | DECIMAL_NUMBER =>
      negb (c =? UC.SMALL_LETTER_X) && negb (c =? UC.FULL_STOP)
      && negb (UC.is_decdigit c)
  | HEX_NUMBER => negb (UC.is_hexdigit c)
  | FRACTIONAL_NUMBER =>
      negb ((c =? UC.FULL_STOP) || (c =? UC.PLUS_SIGN)
            || (c =? UC.CAPITAL_LETTER_E) || (c =? UC.SMALL_LETTER_E)
            || UC.is_decdigit c)
  | _ => false
  end.

(** The text read so far of the token [t] in progress, the head chunk being
    [v]: the copy held by the token, or the slice of [v] from
    [tokenValueOffset] to the current offset. *)
Definition text_of (v : Chunk) (L : Lexer) (t : Token) : Chunk :=
  if tokenValueOffset L =? -1 then to_js_string (value t)
  else substring v (tokenValueOffset L) (sourceOffset L).

Definition token_text (st : State) (t : Token) : Chunk :=
  text_of (hd [] (queue st)) (this st) t.

(** ** Line tokens *)

(** The first pending codepoint is the first codepoint of its chunk: the
    offset into the head chunk is 0, or the head chunk is exhausted. *)
Definition at_chunk_start (st : State) : Prop :=
  sourceOffset (this st) = 0 \/ exhausted st.

(** No codepoint is pending and the end of the source is not signalled: a
    token in progress stays in progress. *)
Definition stays_open (rest : list Z) (source_ended : bool) : bool :=
  match rest with [] => negb source_ended | _ :: _ => false end.

(** The codepoints [rest] that follow the spaces of a line do not begin
    with a space. *)
Definition no_space_ahead (rest : list Z) : Prop :=
  match rest with [] => True | x :: _ => UC.is_space x = false end.

(** ** Scripts of calls *)

(** What a caller does, and what it sees. *)
Inductive Action : Type :=
  | Append (chunk : Chunk)
  | Next (source_ended : bool).

Inductive Event : Type :=
  | Got (r : option Token)   (* [next] returned a token, or null *)
  | Raised (e : Error)       (* a call raised an exception *)
  | Stuck.

(** The events of a script of calls run from the state [st]; a caller that
    catches an exception of [next] goes on with the lexer as it is. *)
Fixpoint run (script : list Action) (st : State) : list Event :=
  match script with
  | [] => []
  | Append c :: rest =>
      match appendSource c st with
      | inr st' => run rest st'
      | inl e => [Raised e]
      end
  | Next se :: rest =>
      match next se st with
      | Returned r st' => Got r :: run rest st'
      | Thrown e st' => Raised e :: run rest st'
      | Diverged => [Stuck]
      end
  end.

(** The state [a] is what the state [b] becomes by rounds of the loop of
    [next]: the two heaps have the same size and hold the same nodes from
    some address [m] on, below which lies nothing the lexer of [a] still
    refers to. *)
Definition ahead (a b : State) : Prop :=
  (exists q, Inv (heap a) (this a) q)
  /\ (exists q, Inv (heap b) (this b) q)
  /\ length (heap a) = length (heap b)
  /\ rtc (round (heap b)) (this b) (this a)
  /\ exists m : nat,
       (forall l, (m <= l)%nat -> heap a !! l = heap b !! l)
       /\ (forall s, source (this a) = Some s -> (m <= s)%nat).

(** An iteration outcome, with the queue references replaced. *)
Definition Iter_set_queue (s tl : option loc) (i : Iter) : Iter :=
  match i with
  | IContinue L => IContinue (set_queue s tl L)
  | IReturn t L => IReturn t (set_queue s tl L)
  | IThrow e => IThrow e
  end.

(** ** States for the examples *)

(** A session for the examples: the chunk "ab(" is appended and the symbol
    read, then the chunk "c" is appended. *)
Definition example_chunk : list Z := Eval vm_compute in str "ab(".

Definition example_state_1 : State :=
  Eval vm_compute in
    match appendSource example_chunk State_new with
    | inr st => st
    | inl _ => State_new
    end.

Definition example_token_1 : Token :=
  {| type := SYMBOL; value := VStr [97; 98]; offset := 0; line := 0;
     column := 0 |}.

Definition example_state_2 : State :=
  Eval vm_compute in
    match next false example_state_1 with
    | Returned _ st => st
    | _ => State_new
    end.

(** The chunks "a" and "b c" are queued; [capture_a] is the state after the
    round that consumes "a", [capture_b] after the round that drops the
    first chunk, [capture_d] after the round that consumes "b". *)
Definition capture_heap : list Node.t :=
  [Node.mk [97] (Some 1%nat); Node.mk [98; 32; 99] None].

Definition capture_a : State :=
  {| heap := capture_heap;
     this := {| source := Some 0%nat; sourceTail := Some 1%nat;
                sourceOffset := 1; tokenOffset := 1; tokenLine := 0;
                tokenColumn := 1;
                token := Some (mkToken SYMBOL VUndefined 0 0 0);
                tokenValueOffset := 0 |} |}.

Definition capture_b : State :=
  {| heap := capture_heap;
     this := {| source := Some 1%nat; sourceTail := Some 1%nat;
                sourceOffset := 0; tokenOffset := 1; tokenLine := 0;
                tokenColumn := 1;
                token := Some (mkToken SYMBOL (VStr [97]) 0 0 0);
                tokenValueOffset := -1 |} |}.

Definition capture_d : State :=
  {| heap := capture_heap;
     this := {| source := Some 1%nat; sourceTail := Some 1%nat;
                sourceOffset := 1; tokenOffset := 2; tokenLine := 0;
                tokenColumn := 2;
                token := Some (mkToken SYMBOL (VStr [97; 98]) 0 0 0);
                tokenValueOffset := -1 |} |}.

(** The state reached while the chunk "ab(" is read, after the rounds that
    consume "a" and "b": the symbol is in progress, its text a slice. *)
Definition terminator_token : Token := mkToken SYMBOL VUndefined 0 0 0.

Definition terminator_state : State :=
  {| heap := heap example_state_1;
     this := {| source := Some 0%nat; sourceTail := Some 0%nat;
                sourceOffset := 2; tokenOffset := 2; tokenLine := 0;
                tokenColumn := 2; token := Some terminator_token;
                tokenValueOffset := 0 |} |}.

(** The state in which the chunk made of a line break, three spaces and
    "abc" has been appended to a new lexer. *)
Definition line_state : State :=
  Eval vm_compute in
    match appendSource (LF ++ str "   abc") State_new with
    | inr st => st
    | inl _ => State_new
    end.

(** The chunk "ab" is appended to a new lexer; [next(false)] then returns
    null, the symbol being in progress. *)
Definition resume_state : State :=
  Eval vm_compute in
    match appendSource (str "ab") State_new with
    | inr st => st
    | inl _ => State_new
    end.

Definition resume_state' : State :=
  Eval vm_compute in
    match next false resume_state with
    | Returned _ st => st
    | _ => State_new
    end.

(** ** The shape of tokens *)

(** The codepoints that continue a fractional number. *)
Definition is_fraction_character (c : Z) : bool :=
  (c =? UC.FULL_STOP) || (c =? UC.PLUS_SIGN)
  || (c =? UC.CAPITAL_LETTER_E) || (c =? UC.SMALL_LETTER_E)
  || UC.is_decdigit c.

(** The codepoints [s] that a token of kind [k] can extend over: for a
    Line token a whitespace codepoint and the spaces after it; for the
    tokens with a text, the text; for the others their one character. *)
Definition lexeme (k : TokenKind) (s : list Z) : Prop :=
  match k with
  | LINE =>
      exists c sp,
        s = c :: sp /\ UC.is_whitespace c = true
        /\ Forall (fun x => UC.is_space x = true) sp
  | SYMBOL =>
      exists c s',
        s = c :: s' /\ is_symbol_character c = true
        /\ UC.is_decdigit c = false /\ c <> UC.APOSTROPHE
        /\ Forall (fun x => is_symbol_character x = true) s'
  | DECIMAL_NUMBER =>
      s <> [] /\ Forall (fun x => UC.is_decdigit x = true) s
  | HEX_NUMBER =>
      exists ds,
        s = UC.DIGIT_ZERO :: UC.SMALL_LETTER_X :: ds
        /\ Forall (fun x => UC.is_hexdigit x = true) ds
  | FRACTIONAL_NUMBER =>
      exists ds fs,
        s = ds ++ UC.FULL_STOP :: fs /\ ds <> []
        /\ Forall (fun x => UC.is_decdigit x = true) ds
        /\ Forall (fun x => is_fraction_character x = true) fs
  | TEXT => s = [UC.APOSTROPHE]
  | k => exists c, s = [c] /\ SINGLE_TOKENS c = Some k
  end.

(** The returned token [t] extends over the codepoints [s]: they have the
    shape of its kind, and its value is the number of codepoints after the
    first (Line), the codepoints themselves (tokens with a text), or
    absent. *)
Definition covers (t : Token) (s : list Z) : Prop :=
  lexeme (type t) s
  /\ value t
     = if TokenKind_eqb (type t) LINE then VNum (Z.of_nat (length s) - 1)
       else if reading_kind (type t) then VStr s
       else VUndefined.

(** [tiling cs toks]: the codepoints [cs] are, from left to right, the
    extents of the tokens [toks], in this order, each token at the offset
    it carries, with nothing but whitespace codepoints before, between and
    after them. *)
Inductive tiling : list Z -> list Token -> Prop :=
  | tiling_nil : tiling [] []
  | tiling_skip cs toks c :
      tiling cs toks -> UC.is_whitespace c = true ->
      tiling (cs ++ [c]) toks
  | tiling_token cs toks t s :
      tiling cs toks -> offset t = Z.of_nat (length cs) -> covers t s ->
      tiling (cs ++ s) (toks ++ [t]).

(** The codepoint at total offset [o] of the input [chunks] is LINE FEED,
    or is the first codepoint of a chunk. *)
Definition line_start (chunks : list (list Z)) (o : Z) : Prop :=
  concat chunks !! Z.to_nat o = Some UC.LINE_FEED
  \/ exists k, o = Z.of_nat (length (concat (take k chunks))).

(** What a session has made of its input, kept beside the state: the
    codepoints consumed are tiled by the tokens returned, followed by the
    codepoints of the token in progress, which have the shape of its kind
    and, unless it is a Line token, are its text read so far; the queue
    holds the chunks from the [k]-th on, and the offset into the head chunk
    counts the codepoints consumed of it. *)
Definition Shape (chunks : list (list Z)) (toks : list Token)
  (L : Lexer) (q : list (list Z)) : Prop :=
  exists consumed k,
    concat chunks = consumed ++ pend L q
    /\ q = drop k chunks /\ (k <= length chunks)%nat
    /\ Z.of_nat (length consumed)
       = Z.of_nat (length (concat (take k chunks))) + sourceOffset L
    /\ tokenOffset L = Z.of_nat (length consumed)
    /\ Forall (fun t => type t = LINE -> line_start chunks (offset t)) toks
    /\ match token L with
       | None => tiling consumed toks
       | Some t =>
           exists pre s,
             consumed = pre ++ s /\ tiling pre toks
             /\ offset t = Z.of_nat (length pre)
             /\ lexeme (type t) s
             /\ (type t = LINE -> line_start chunks (offset t))
             /\ (type t <> LINE -> text_of (hd [] q) L t = s)
       end.

(** ** Hexadecimal numerals *)

(** The value of the digit written by the code unit [d], lower case
    letters only. *)
Definition hex_digit_value (d : Z) : option Z :=
  if (0x30 <=? d) && (d <=? 0x39) then Some (d - 0x30)
  else if (0x61 <=? d) && (d <=? 0x66) then Some (d - 0x61 + 10)
  else None.

(** The number written by the digits [s] in base 16, most significant
    first, after [acc]. *)
Fixpoint parse_hex (s : list Z) (acc : Z) : option Z :=
  match s with
  | [] => Some acc
  | d :: s' =>
      match hex_digit_value d with
      | Some x => parse_hex s' (16 * acc + x)
      | None => None
      end
  end.

(** Equality of token kinds is decidable. *)
#[global] Instance TokenKind_eq_dec : EqDecision TokenKind.
Proof. solve_decision. Defined.

(** ** What is left to read *)

(** What bounds the number of tokens still to come: the pending
    codepoints, and the token in progress. *)
Definition left_to_read (L : Lexer) (q : list (list Z)) : nat :=
  (length (pend L q) + length (option_list (token L)))%nat.

(** ** The result of a call of [next] *)

(** The state a call leaves, [d] when there is none. *)
Definition result_state (r : Result) (d : State) : State :=
  match r with
  | Returned _ st | Thrown _ st => st
  | Diverged => d
  end.

(** The same result, leaving the state [st]. *)
Definition result_with (r : Result) (st : State) : Result :=
  match r with
  | Returned x _ => Returned x st
  | Thrown e _ => Thrown e st
  | Diverged => Diverged
  end.

(** The call ended within the character loop: it raised, or it returned a
    token while a chunk was queued.  (A token in progress that is flushed
    at the end of the source is returned with the queue empty.) *)
Definition within_loop (r : Result) : Prop :=
  match r with
  | Returned (Some _) st => is_Some (source (this st))
  | Thrown _ _ => True
  | _ => False
  end.

(** What is seen of a reading: the tokens, and how it ended. *)
Definition outcome (x : list Token * Ending) : list Token * Verdict :=
  match x with
  | (ts, Drained _) => (ts, Complete)
  | (ts, Threw e) => (ts, Failed e)
  | (ts, Unfinished) => (ts, Incomplete)
  end.

(** ** Chunk boundaries that do not show *)

(** The chunk [v] is empty, or begins with a codepoint that is neither "x"
    nor a whitespace codepoint other than LINE FEED. *)
Definition clean_start (v : list Z) : Prop :=
  match v with
  | [] => True
  | c :: _ =>
      c <> UC.SMALL_LETTER_X /\ (UC.is_whitespace c = true -> c = UC.LINE_FEED)
  end.

(** Every chunk after the first has a clean start. *)
Definition splits_cleanly (chunks : list (list Z)) : Prop :=
  Forall clean_start (tail chunks).

(** The tokens in progress of two lexers are the same token: of the same
    kind, begun at the same position, with the same text read so far,
    however each lexer holds it. *)
Definition same_token (LA : Lexer) (qA : list (list Z))
  (LB : Lexer) (qB : list (list Z)) : Prop :=
  match token LA, token LB with
  | None, None => True
  | Some tA, Some tB =>
      type tA = type tB /\ same_start tA tB
      /\ (type tA <> LINE ->
          text_of (hd [] qA) LA tA = text_of (hd [] qB) LB tB)
  | _, _ => False
  end.

(** [Whole chunks LA qA LB qB]: the lexer [LA], reading the input in the
    chunks [chunks], of which [qA] are still queued, and the lexer [LB],
    reading the same input as one chunk, are at the same place: the same
    codepoints are pending, the position counters agree, and the same
    token is in progress.  [LB] has its one chunk queued, holds the text
    of its token as a slice of it and counts its offset from the start of
    the input, or has dropped the chunk; [LA] has read the first [k]
    chunks, and when it holds the text of its token as a copy, the token
    began before the head chunk. *)
Definition Whole (chunks : list (list Z)) (LA : Lexer) (qA : list (list Z))
  (LB : Lexer) (qB : list (list Z)) : Prop :=
  pend LA qA = pend LB qB
  /\ tokenOffset LA = tokenOffset LB /\ tokenLine LA = tokenLine LB
  /\ tokenColumn LA = tokenColumn LB
  /\ same_token LA qA LB qB
  /\ (qB = []
      \/ exists vB,
           qB = [vB] /\ sourceOffset LB = tokenOffset LB
           /\ forall t, token LB = Some t -> type t <> LINE ->
                        tokenValueOffset LB <> -1)
  /\ exists k,
       qA = drop k chunks
       /\ tokenOffset LA
          = Z.of_nat (length (concat (take k chunks))) + sourceOffset LA
       /\ forall t, token LA = Some t ->
                    0 <= offset t
                    /\ (type t <> LINE -> tokenValueOffset LA = -1 ->
                        offset t < tokenOffset LA - sourceOffset LA).

(** What is asked of the tokens in progress of two such lexers: they are
    the same token; the one lexer holds the text as a slice; the other
    began the token at an offset that is not negative and, when it holds
    the text as a copy, lies before the offset [base], where its head
    chunk begins. *)
Definition same_progress (base : Z) (vA : list Z) (qA : list (list Z))
  (vB : list Z) (LA' LB' : Lexer) : Prop :=
  same_token LA' (vA :: qA) LB' [vB]
  /\ (forall t, token LB' = Some t -> type t <> LINE ->
                tokenValueOffset LB' <> -1)
  /\ (forall t, token LA' = Some t ->
                0 <= offset t
                /\ (type t <> LINE -> tokenValueOffset LA' = -1 ->
                    offset t < base)).

(** Two such lexers leave the branches of the loop body the same way. *)
Definition same_branch (base : Z) (vA : list Z) (qA : list (list Z))
  (vB : list Z) (bA bB : Branch) : Prop :=
  match bA, bB with
  | Fall tokA LA1, Fall tokB LB1 =>
      tokA = tokB
      /\ same_progress base vA qA vB (advance LA1) (advance LB1)
  | Return tA LA1, Return tB LB1 =>
      tA = tB /\ same_progress base vA qA vB LA1 LB1
  | Raise eA, Raise eB => eA = eB
  | _, _ => False
  end.

(** Two such lexers end a pass through the loop body the same way. *)
Definition same_iteration (chunks qA qB : list (list Z)) (iA iB : Iter)
  : Prop :=
  match iA, iB with
  | IContinue LA', IContinue LB' => Whole chunks LA' qA LB' qB
  | IReturn tA LA', IReturn tB LB' => tA = tB /\ Whole chunks LA' qA LB' qB
  | IThrow eA, IThrow eB => eA = eB
  | _, _ => False
  end.

(** ** More states for the examples *)

(** The chunk "1x" is appended to a new lexer; [next] then raises the
    syntax error at "x" and leaves [raised_state]. *)
Definition raising_state : State :=
  Eval vm_compute in
    match appendSource (str "1x") State_new with
    | inr st => st
    | inl _ => State_new
    end.

Definition raised_state : State :=
  Eval vm_compute in
    match next false raising_state with
    | Thrown _ st => st
    | _ => State_new
    end.

(** The tokens of the chunk "ab(", and the state in which reading them
    to the end of the source leaves the lexer. *)
Definition example_token_2 : Token :=
  {| type := LEFT_PAREN; value := VUndefined; offset := 2; line := 0;
     column := 2 |}.

Definition drained_state : State :=
  Eval vm_compute in
    match read_tokens (tokens_fuel example_state_1) true example_state_1 with
    | (_, Drained st) => st
    | _ => State_new
    end.

(** The Line token of [line_state], and the state after it is returned. *)
Definition line_token : Token :=
  {| type := LINE; value := VNum 3; offset := 0; line := 0; column := 0 |}.

Definition line_state_1 : State :=
  Eval vm_compute in
    match next true line_state with
    | Returned _ st => st
    | _ => State_new
    end.

(** * Basic facts *)

Lemma charCodeAt_Some (v : Chunk) (i c : Z) :
  charCodeAt v i = Some c ->
  0 <= i < Z.of_nat (length v) /\ v !! Z.to_nat i = Some c.
Proof.
  unfold charCodeAt. destruct (Z.leb_spec 0 i); [|discriminate].
  intros Hl. split; [|assumption].
  apply lookup_lt_Some in Hl. lia.
Qed.

Lemma charCodeAt_None (v : Chunk) (i : Z) :
  0 <= i -> charCodeAt v i = None -> Z.of_nat (length v) <= i.
Proof.
  unfold charCodeAt. destruct (Z.leb_spec 0 i); [|lia].
  intros _ Hl. apply lookup_ge_None in Hl. lia.
Qed.

Lemma substring_length (v : Chunk) (a b : Z) :
  0 <= a <= b -> b <= Z.of_nat (length v) ->
  Z.of_nat (length (substring v a b)) = b - a.
Proof.
  intros Ha Hb. unfold substring.
  rewrite length_take, length_drop. lia.
Qed.

Lemma substring_from_length (v : Chunk) (a : Z) :
  0 <= a <= Z.of_nat (length v) ->
  Z.of_nat (length (substring_from v a)) = Z.of_nat (length v) - a.
Proof. intros Ha. unfold substring_from. apply substring_length; lia. Qed.

Arguments UC.is_space : simpl never.
Arguments UC.is_linebreak : simpl never.
Arguments UC.is_whitespace : simpl never.
Arguments UC.is_decdigit : simpl never.
Arguments UC.is_hexdigit : simpl never.
Arguments is_symbol_character : simpl never.
Arguments SINGLE_TOKENS : simpl never.
Arguments substring : simpl never.
Arguments substring_from : simpl never.
Arguments charCodeAt : simpl never.
Arguments to_js_string : simpl never.

(** Case analysis on a classifier test [H : ... = true]: one goal for each
    alternative of the test, the comparisons turned into equalities and
    inequalities of [Z]. *)
Ltac classifier_cases H :=
  repeat (apply orb_true_iff in H as [H|H]);
  repeat match goal with
  | H' : (_ =? _) = true |- _ => apply Z.eqb_eq in H'
  | H' : _ && _ = true |- _ => apply andb_true_iff in H' as [? ?]
  | H' : (_ <? _) = true |- _ => apply Z.ltb_lt in H'
  end.

(** The invariant of the result of a step, from its three parts. *)
Ltac split_Inv := split; [|split].

(** The identifiers in [SINGLE_TOKENS] are truthy: the test
    [if ((token = SINGLE_TOKENS[c]))] succeeds exactly on the keys of the
    table. *)
Lemma SINGLE_TOKENS_truthy c k : SINGLE_TOKENS c = Some k -> tok_id k <> 0.
Proof.
  unfold SINGLE_TOKENS. intros H.
  repeat case_match; simplify_eq; discriminate.
Qed.

(** ** The loop body keeps the invariant *)

Lemma flushToken_Inv h L v q t L' :
  Inv h L (v :: q) ->
  flushToken (Some v) L = inr (t, L') ->
  Inv h L' (v :: q).
Proof.
  intros (Hc & Ho & Ht) Hf. unfold flushToken in Hf.
  destruct L as [src tl so to tln tc tok tvo]; cbn in *.
  unfold token_ok in Ht; cbn in Ht.
  destruct tok as [t0|]; [|discriminate].
  destruct Ht as (Hk & Hoff & Ht).
  destruct (type t0) eqn:Hty; cbn in Hf, Ht, Hk; try discriminate;
    repeat case_match; simplify_eq;
    (split; [assumption | split; [assumption|]]);
    unfold token_ok; cbn; try reflexivity; lia.
Qed.

Lemma return_flush_ok h L v q :
  Inv h L (v :: q) -> branch_ok h v q (return_flush v L).
Proof.
  intros HI. unfold return_flush.
  destruct (flushToken (Some v) L) as [e|[t L']] eqn:Hf; cbn; [trivial|].
  eapply flushToken_Inv; eassumption.
Qed.

Lemma keep_reading_ok h L v q c t t' :
  Inv h L (v :: q) ->
  sourceOffset L < Z.of_nat (length v) ->
  token L = Some t ->
  type t <> LINE -> reading_kind (type t') = true -> type t' <> LINE ->
  value t' = value t -> offset t' = offset t ->
  branch_ok h v q (keep_reading c t' L).
Proof.
  intros (Hc & Ho & Ht) Hlt Htok Hk Hk' Hk'' Hv Hoff.
  destruct L as [src tl so to tln tc tok tvo]; cbn in *. subst tok.
  unfold token_ok in Ht; cbn in Ht. destruct Ht as (_ & Hpos & Ht).
  assert (TokenKind_eqb (type t) LINE = false) as E
    by (destruct (type t); try reflexivity; congruence).
  assert (TokenKind_eqb (type t') LINE = false) as E'
    by (destruct (type t'); try reflexivity; congruence).
  rewrite E in Ht.
  split; [assumption|]. split; [cbn; lia|].
  unfold token_ok; cbn.
  destruct Ht as [(-> & s & Hs & Hlen)|(Hr & Hq & Hlen)].
  - cbn. rewrite E'. split; [assumption|]. split; [cbn; lia|].
    left. split; [reflexivity|]. rewrite Hv, Hs.
    exists (s ++ [c]). split; [reflexivity|].
    rewrite length_app. cbn. lia.
  - destruct (Z.eqb_spec tvo (-1)); [lia|]. rewrite E'.
    split; [assumption|]. split; [lia|].
    right. split; [lia|]. split; [assumption|]. lia.
Qed.

Lemma start_token_ok h L v q c :
  Inv h L (v :: q) ->
  sourceOffset L < Z.of_nat (length v) ->
  token L = None ->
  branch_ok h v q (start_token c L).
Proof.
  intros (Hc & Ho & Ht) Hlt Htok.
  destruct L as [src tl so to tln tc tok tvo]; cbn in *. subst tok.
  unfold token_ok in Ht; cbn in Ht. subst tvo.
  unfold start_token; cbn.
  repeat case_match; cbn; trivial;
    (split; [assumption|]); (split; [cbn; lia|]);
    unfold token_ok; cbn; try reflexivity;
    (split; [reflexivity|]); (split; [lia|]);
    first [ split; reflexivity | right; split; [lia|]; split; [discriminate|lia] ].
Qed.

Lemma continue_token_ok h L v q c t :
  Inv h L (v :: q) ->
  sourceOffset L < Z.of_nat (length v) ->
  token L = Some t ->
  branch_ok h v q (continue_token v c t L).
Proof.
  intros HI Hlt Htok. unfold continue_token.
  pose proof HI as (Hc & Ho & Ht).
  unfold token_ok in Ht. rewrite Htok in Ht. destruct Ht as (Hk & Hpos & Ht).
  destruct (type t) eqn:Hty; try discriminate Hk; cbn in Ht;
    repeat case_match; cbn [branch_ok]; trivial;
    try (apply return_flush_ok; assumption);
    try (eapply keep_reading_ok; try eassumption; cbn; congruence).
  destruct HI as (? & ? & HI). destruct L; cbn in *.
  split; [assumption|]. split; [cbn; lia|].
  unfold token_ok in *; cbn in *. subst. rewrite Hty. cbn.
  split; [reflexivity|]. split; [lia|]. assumption.
Qed.

Lemma iteration_Inv h L v q c :
  Inv h L (v :: q) ->
  charCodeAt v (sourceOffset L) = Some c ->
  match iteration v c L with
  | IContinue L' | IReturn _ L' => Inv h L' (v :: q)
  | IThrow _ => True
  end.
Proof.
  intros HI Hc.
  apply charCodeAt_Some in Hc as [Hc _].
  assert (branch_ok h v q (branch v c L)) as Hb.
  { unfold branch. destruct (token L) eqn:Htok.
    - apply continue_token_ok; [assumption|lia|assumption].
    - apply start_token_ok; [assumption|lia|assumption]. }
  unfold iteration. destruct (branch v c L) as [[t|] L1|t L1|e]; exact Hb.
Qed.

(** ** Dropping an exhausted chunk keeps the invariant *)

Lemma chain_head h prev p v q tl :
  chain h prev p (v :: q) tl ->
  exists l nx, p = Some l /\ h !! l = Some (Node.mk v nx)
               /\ chain h (Some l) nx q tl.
Proof. cbn. intros (l & nx & ? & ? & ? & ?). eauto. Qed.

Lemma chain_forget_prev h prev p v q tl :
  chain h prev p (v :: q) tl -> chain h None p (v :: q) tl.
Proof. cbn. intros (l & nx & ? & ? & ? & ?). exists l, nx. cbn. auto. Qed.

Lemma Inv_head h L v q :
  Inv h L (v :: q) ->
  exists l nx, source L = Some l /\ h !! l = Some (Node.mk v nx)
               /\ chain h (Some l) nx q (sourceTail L).
Proof. intros (Hc & _). apply chain_head in Hc. exact Hc. Qed.

Lemma Inv_nil h L : Inv h L [] -> source L = None /\ sourceTail L = None.
Proof. intros ([? ?] & _). auto. Qed.

Lemma chunk_end_Inv h L v q nx :
  Inv h L (v :: q) ->
  chain h None (source L) (v :: q) (sourceTail L) ->
  (exists l, source L = Some l /\ h !! l = Some (Node.mk v nx)) ->
  charCodeAt v (sourceOffset L) = None ->
  exists L', chunk_end (Node.mk v nx) L = inr L' /\ Inv h L' q.
Proof.
  intros (_ & Ho & Ht) Hc (l & Hs & Hl) Hnone.
  apply chain_head in Hc as (l' & nx' & Hs' & Hl' & Hc).
  assert (l' = l) by congruence. subst l'.
  assert (nx' = nx) by congruence. subst nx'.
  cbn in Ho. apply charCodeAt_None in Hnone; [|lia].
  assert (chain h None nx q
            (match nx with None => None | Some _ => sourceTail L end)) as Hc'.
  { destruct q as [|v' q'].
    - destruct Hc as [-> _]. split; reflexivity.
    - pose proof Hc as (l' & nx' & -> & _). eapply chain_forget_prev, Hc. }
  assert (offset_ok (set_sourceOffset 0 L) q) as Ho'.
  { destruct q; cbn; lia. }
  unfold chunk_end; cbn [Node.value Node.next].
  destruct L as [src tl so to tln tc tok tvo]; cbn in *.
  unfold token_ok in Ht; cbn in Ht.
  destruct tok as [t|].
  - destruct Ht as (Hk & Hpos & Ht).
    destruct (TokenKind_eqb (type t) LINE) eqn:E.
    + destruct Ht as [-> Hv]. cbn. eexists. split; [reflexivity|].
      split; [exact Hc'|]. split; [exact Ho'|].
      unfold token_ok; cbn. rewrite E. auto.
    + destruct Ht as [(-> & s & Hv & Hlen)|(Hr & Hq & Hlen)].
      * cbn. eexists. split; [reflexivity|].
        split; [exact Hc'|]. split; [exact Ho'|].
        unfold token_ok; cbn. rewrite E. split; [assumption|].
        split; [assumption|]. left. eauto.
      * destruct (Z.eqb_spec tvo (-1)); [lia|]. cbn.
        eexists. split; [reflexivity|].
        split; [exact Hc'|]. split; [exact Ho'|].
        unfold token_ok; cbn. rewrite E. split; [assumption|].
        split; [assumption|]. left. split; [reflexivity|].
        eexists. split; [reflexivity|].
        rewrite substring_from_length; lia.
  - subst tvo. cbn. eexists. split; [reflexivity|].
    split; [exact Hc'|]. split; [exact Ho'|]. reflexivity.
Qed.

(** ** What the loop body leaves alone *)

Lemma flushToken_frame src L t L' :
  flushToken src L = inr (t, L') ->
  source L' = source L /\ sourceTail L' = sourceTail L
  /\ sourceOffset L' = sourceOffset L /\ tokenOffset L' = tokenOffset L
  /\ tokenLine L' = tokenLine L /\ tokenColumn L' = tokenColumn L
  /\ token L' = None.
Proof.
  unfold flushToken. intros H.
  repeat case_match; simplify_eq; cbn; auto 10.
Qed.

Lemma branch_frame v c L :
  match branch v c L with
  | Fall _ L1 | Return _ L1 =>
      source L1 = source L /\ sourceTail L1 = sourceTail L
      /\ sourceOffset L1 = sourceOffset L /\ tokenOffset L1 = tokenOffset L
  | Raise _ => True
  end.
Proof.
  unfold branch, start_token, continue_token, keep_reading, return_flush.
  repeat case_match; simplify_eq; cbn; auto;
    match goal with
    | H : flushToken _ _ = inr _ |- _ =>
        apply flushToken_frame in H; intuition congruence
    end.
Qed.

Lemma iteration_continue_frame v c L L' :
  iteration v c L = IContinue L' ->
  source L' = source L /\ sourceTail L' = sourceTail L
  /\ sourceOffset L' = sourceOffset L + 1
  /\ tokenOffset L' = tokenOffset L + 1.
Proof.
  unfold iteration. pose proof (branch_frame v c L) as Hf.
  destruct (branch v c L) as [[t|] L1|t L1|e]; intros H; simplify_eq.
  cbn. intuition congruence.
Qed.

Lemma round_cases h L L' q :
  Inv h L q -> round h L L' ->
  exists v q0 nx l,
    q = v :: q0 /\ source L = Some l /\ h !! l = Some (Node.mk v nx)
    /\ ((exists c, charCodeAt v (sourceOffset L) = Some c
                   /\ iteration v c L = IContinue L'
                   /\ Inv h L' q /\ pend L q = c :: pend L' q)
        \/ (charCodeAt v (sourceOffset L) = None
            /\ chunk_end (Node.mk v nx) L = inr L'
            /\ Inv h L' q0 /\ pend L q = pend L' q0
            /\ sourceOffset L' = 0)).
Proof.
  intros HI Hr.
  assert (exists s, source L = Some s) as [s Hs] by (destruct Hr; eauto).
  destruct q as [|v q0].
  { apply Inv_nil in HI as [? _]. congruence. }
  destruct (Inv_head _ _ _ _ HI) as (l & nx & Hl & Hnd & Hch).
  exists v, q0, nx, l. split; [reflexivity|]. split; [assumption|].
  split; [assumption|].
  destruct Hr as [s' nd c Hs' Hnd' Hc Hit | s' nd Hs' Hnd' Hc Hce];
    assert (s' = l) by congruence; subst s';
    assert (nd = Node.mk v nx) by congruence; subst nd; cbn in *.
  - left. exists c. split; [assumption|]. split; [assumption|].
    pose proof (iteration_Inv _ _ _ _ _ HI Hc) as HI'. rewrite Hit in HI'.
    split; [assumption|].
    apply iteration_continue_frame in Hit as (_ & _ & Ho & _).
    apply charCodeAt_Some in Hc as [Hr Hc].
    unfold pend. rewrite Ho. cbn [concat].
    replace (Z.to_nat (sourceOffset L + 1)) with (S (Z.to_nat (sourceOffset L)))
      by lia.
    apply drop_S. rewrite lookup_app_l by lia. assumption.
  - right. split; [assumption|].
    destruct (chunk_end_Inv _ _ _ _ nx HI) as (L1 & HL1 & HI1);
      [apply HI|eauto|assumption|].
    assert (L1 = L') by congruence. subst L1.
    split; [assumption|]. split; [assumption|].
    destruct HI as (_ & Ho & _). cbn in Ho.
    apply charCodeAt_None in Hc; [|lia].
    assert (sourceOffset L' = 0) as Ho'.
    { unfold chunk_end in Hce. repeat case_match; simplify_eq; reflexivity. }
    split; [|assumption].
    unfold pend. rewrite Ho'. cbn [concat].
    rewrite drop_app_length'; [reflexivity|lia].
Qed.

Lemma round_Inv h L L' q :
  Inv h L q -> round h L L' ->
  exists q', Inv h L' q' /\ S (work L' q') = work L q.
Proof.
  intros HI Hr.
  destruct (round_cases _ _ _ _ HI Hr)
    as (v & q0 & nx & l & -> & _ & _ & [(c & _ & _ & HI' & Hp)|(_ & _ & HI' & Hp & _)]).
  - exists (v :: q0). split; [assumption|]. unfold work. rewrite Hp. reflexivity.
  - exists q0. split; [assumption|]. unfold work. rewrite Hp. cbn. lia.
Qed.

(** ** The loop of [next], round by round *)

Lemma chain_unique h prev p q q' tl tl' :
  chain h prev p q tl -> chain h prev p q' tl' -> q = q'.
Proof.
  revert prev p q'. induction q as [|v q IH]; intros prev p [|v' q']; cbn.
  - reflexivity.
  - intros [-> _] (l & nx & ? & _). discriminate.
  - intros (l & nx & -> & _) [? _]. discriminate.
  - intros (l & nx & -> & Hl & _ & Hc) (l' & nx' & ? & Hl' & _ & Hc').
    simplify_eq. f_equal. eapply IH; eassumption.
Qed.

Lemma Inv_unique h L q q' : Inv h L q -> Inv h L q' -> q = q'.
Proof. intros (Hc & _) (Hc' & _). eapply chain_unique; eassumption. Qed.

Lemma next_loop_round h se fuel L L' :
  round h L L' -> next_loop (S fuel) h se L = next_loop fuel h se L'.
Proof.
  intros [s nd c Hs Hnd Hc Hit | s nd Hs Hnd Hc Hce]; cbn;
    rewrite Hs, Hnd, Hc.
  - rewrite Hit. reflexivity.
  - rewrite Hce. reflexivity.
Qed.

Lemma round_or_exit h se L :
  (exists L', round h L L') \/ next_loop 1 h se L <> OutOfFuel.
Proof.
  cbn. destruct (source L) as [s|] eqn:Hs.
  - destruct (h !! s) as [nd|] eqn:Hnd; [|right; discriminate].
    destruct (charCodeAt (Node.value nd) (sourceOffset L)) as [c|] eqn:Hc.
    + destruct (iteration (Node.value nd) c L) eqn:Hit;
        [left; eexists; eapply round_char; eassumption | right; discriminate ..].
    + destruct (chunk_end nd L) eqn:Hce; [right; discriminate|].
      left. eexists. eapply round_chunk; eassumption.
  - right. repeat case_match; discriminate.
Qed.

Lemma next_loop_exit h se fuel L :
  next_loop 1 h se L <> OutOfFuel ->
  next_loop (S fuel) h se L = next_loop 1 h se L.
Proof.
  cbn. intros H. repeat case_match; try reflexivity; congruence.
Qed.

(** From a state that satisfies the invariant the loop ends, after rounds
    that keep the invariant and any property [P] that every round keeps. *)
Lemma next_loop_run h se (P : Lexer -> list Chunk -> Prop) :
  (forall L q L' q', Inv h L q -> P L q -> round h L L' -> Inv h L' q' ->
                     P L' q') ->
  forall fuel L q,
    Inv h L q -> P L q -> (work L q < fuel)%nat ->
    exists L1 q1,
      Inv h L1 q1 /\ P L1 q1 /\ rtc (round h) L L1
      /\ next_loop 1 h se L1 <> OutOfFuel
      /\ next_loop fuel h se L = next_loop 1 h se L1.
Proof.
  intros Hstep. induction fuel as [|fuel IH]; intros L q HI HP Hw; [lia|].
  destruct (round_or_exit h se L) as [[L' Hr]|Hex].
  - destruct (round_Inv _ _ _ _ HI Hr) as (q' & HI' & Hw').
    destruct (IH L' q' HI' (Hstep _ _ _ _ HI HP Hr HI') ltac:(lia))
      as (L1 & q1 & ? & ? & ? & ? & ?).
    exists L1, q1. repeat (split; [assumption|]).
    split; [eapply rtc_l; eassumption|]. split; [assumption|].
    rewrite (next_loop_round _ _ _ _ _ Hr). assumption.
  - exists L, q. repeat (split; [assumption|]).
    split; [reflexivity|]. split; [assumption|].
    apply next_loop_exit. assumption.
Qed.

(** The fuel [next] runs with is enough. *)
Lemma sum_chunks_drop (h : Heap) (i j : nat) :
  (i <= j)%nat ->
  (sum_list (map (fun nd => S (length (Node.value nd))) (drop j h))
   <= sum_list (map (fun nd => S (length (Node.value nd))) (drop i h)))%nat.
Proof.
  intros Hij. replace j with (i + (j - i))%nat by lia.
  rewrite <- drop_drop.
  generalize (drop i h) (j - i)%nat. clear. intros l n. revert l.
  induction n as [|n IH]; intros [|x l]; cbn; try lia.
  specialize (IH l). lia.
Qed.

Lemma chain_work h prev l q tl :
  chain h prev (Some l) q tl ->
  (length (concat q) + length q
   <= sum_list (map (fun nd => S (length (Node.value nd))) (drop l h)))%nat.
Proof.
  revert prev l. induction q as [|v q IH]; intros prev l; cbn.
  - intros [? _]. discriminate.
  - intros (l0 & nx & Hl & Hnd & _ & Hc). simplify_eq.
    rewrite (drop_S _ _ _ Hnd). cbn. rewrite length_app.
    destruct q as [|v' q'].
    + cbn. lia.
    + pose proof Hc as (l1 & nx1 & -> & _ & Hlt & _). cbn in Hlt.
      specialize (IH _ _ Hc).
      pose proof (sum_chunks_drop h (S l0) l1 ltac:(lia)). cbn in *. lia.
Qed.

Lemma sum_S_length (h : Heap) :
  sum_list (map (fun nd => S (length (Node.value nd))) h)
  = (length h + sum_list (map (fun nd => length (Node.value nd)) h))%nat.
Proof. induction h as [|x h IH]; cbn; lia. Qed.

Lemma work_fuel h L q : Inv h L q -> (work L q < fuel_of h)%nat.
Proof.
  intros (Hc & _). unfold work, pend, fuel_of. rewrite length_drop.
  destruct (source L) as [l|] eqn:Hs.
  - apply chain_work in Hc.
    pose proof (sum_chunks_drop h 0 l ltac:(lia)) as Hd. rewrite drop_0 in Hd.
    rewrite (sum_S_length h) in Hd. lia.
  - destruct q as [|v q]; [cbn; lia|].
    destruct Hc as (l & nx & ? & _). discriminate.
Qed.

Lemma next_loop_fuel h se L q fuel fuel' :
  Inv h L q -> (work L q < fuel)%nat -> (work L q < fuel')%nat ->
  next_loop fuel h se L = next_loop fuel' h se L.
Proof.
  revert L q fuel'. induction fuel as [|fuel IH]; intros L q fuel' HI Hw Hw';
    [lia|].
  destruct fuel' as [|fuel']; [lia|].
  destruct (round_or_exit h se L) as [[L' Hr]|Hex].
  - rewrite !(next_loop_round _ _ _ _ _ Hr).
    destruct (round_Inv _ _ _ _ HI Hr) as (q' & HI' & Hwk).
    apply (IH _ q'); [assumption|lia|lia].
  - rewrite (next_loop_exit h se fuel), (next_loop_exit h se fuel')
      by assumption.
    reflexivity.
Qed.

(** ** [appendSource] keeps the invariant *)

Lemma chain_lookup_lt h prev l q tl :
  chain h prev (Some l) q tl -> (l < length h)%nat.
Proof.
  destruct q as [|v q]; cbn.
  - intros [? _]. discriminate.
  - intros (l0 & nx & ? & Hnd & _). simplify_eq.
    eapply lookup_lt_Some, Hnd.
Qed.

Lemma chain_cons h prev l v nx q tl :
  h !! l = Some (Node.mk v nx) -> lt_opt prev l ->
  chain h (Some l) nx q tl ->
  chain h prev (Some l) (v :: q) tl.
Proof. intros. exists l, nx. auto. Qed.

Lemma chain_nil h prev : chain h prev None [] prev.
Proof. split; reflexivity. Qed.

Lemma chain_append h prev s q tl c :
  chain h prev (Some s) q tl ->
  exists t nd,
    tl = Some t /\ (s <= t)%nat /\ h !! t = Some nd
    /\ chain (<[t := Node.mk (Node.value nd) (Some (length h))]>
                (h ++ [Node.mk c None]))
         prev (Some s) (q ++ [c]) (Some (length h)).
Proof.
  revert prev s. induction q as [|v q IH]; intros prev s.
  { intros [? _]. discriminate. }
  intros (l & nx & Hs & Hnd & Hlt & Hc). simplify_eq.
  pose proof (lookup_lt_Some _ _ _ Hnd) as Hl.
  destruct q as [|v' q'].
  - destruct Hc as [-> ->]. exists l, (Node.mk v None).
    split; [reflexivity|]. split; [lia|]. split; [assumption|].
    apply chain_cons with (nx := Some (length h)).
    + apply list_lookup_insert_eq. rewrite length_app. simpl. lia.
    + assumption.
    + apply chain_cons with (nx := None).
      * rewrite list_lookup_insert_ne by lia.
        rewrite lookup_app_r by lia. rewrite Nat.sub_diag. reflexivity.
      * exact Hl.
      * apply chain_nil.
  - pose proof Hc as (l' & nx' & Hnx & _ & Hlt' & _). simplify_eq.
    simpl in Hlt'.
    destruct (IH _ _ Hc) as (t & nd & -> & Hle & Ht & Hc').
    exists t, nd. split; [reflexivity|]. split; [lia|]. split; [assumption|].
    change ((v :: v' :: q') ++ [c]) with (v :: ((v' :: q') ++ [c])).
    apply chain_cons with (nx := Some l').
    + rewrite list_lookup_insert_ne by lia.
      rewrite lookup_app_l by lia. assumption.
    + assumption.
    + assumption.
Qed.

Lemma appendSource_Inv h L q c :
  Inv h L q ->
  exists h' s tl,
    appendSource c {| heap := h; this := L |}
    = inr {| heap := h'; this := set_queue s tl L |}
    /\ Inv h' (set_queue s tl L) (q ++ [c])
    /\ length h' = S (length h)
    /\ (source L = None -> s = Some (length h) /\ tl = Some (length h))
    /\ (is_Some (source L) -> s = source L).
Proof.
  intros (Hc & Ho & Ht). unfold appendSource; cbn [heap this].
  destruct (source L) as [s|] eqn:Hs.
  - destruct (chain_append _ _ _ _ _ c Hc) as (t & nd & Htl & Hle & Hnd & Hc').
    rewrite Htl. rewrite lookup_app_l by (eapply lookup_lt_Some, Hnd).
    rewrite Hnd. do 3 eexists. split; [reflexivity|].
    split; [|split; [rewrite length_insert, length_app; cbn; lia|]].
    + split; [exact Hc'|]. split.
      * destruct q; [destruct Hc; discriminate|exact Ho].
      * unfold token_ok in *; cbn. destruct (token L); [|assumption].
        destruct Ht as (? & ? & Ht). do 2 (split; [assumption|]).
        destruct (TokenKind_eqb _ _); [assumption|].
        destruct Ht as [?|(? & ? & ?)]; [left; assumption|right].
        split; [assumption|]. split; [|assumption].
        destruct q; discriminate.
    + split; [discriminate|]. intros _. reflexivity.
  - destruct q as [|v q]; [|destruct Hc as (? & ? & ? & _); discriminate].
    do 3 eexists. split; [reflexivity|].
    split; [|split; [rewrite length_app; cbn; lia|]].
    + split.
      * apply chain_cons with (nx := None); [|exact I|apply chain_nil].
        rewrite lookup_app_r by reflexivity. rewrite Nat.sub_diag.
        reflexivity.
      * split; [cbn in *; lia|].
        unfold token_ok in *; cbn. destruct (token L); [|assumption].
        destruct Ht as (? & ? & Ht). do 2 (split; [assumption|]).
        destruct (TokenKind_eqb _ _); [assumption|].
        destruct Ht as [?|(? & ? & ?)]; [left; assumption|congruence].
    + split; [auto|]. intros [? ?]. discriminate.
Qed.

(** ** How the loop ends *)

Lemma exit_cases h se L q o :
  Inv h L q ->
  next_loop 1 h se L = o -> o <> OutOfFuel ->
  (q = [] /\ source L = None
   /\ ((se = true /\ exists t0 t L', token L = Some t0
                       /\ flushToken None L = inr (t, L')
                       /\ o = Ret (Some t) L')
       \/ ((se = false \/ token L = None) /\ o = Ret None L)))
  \/ (exists v q0 c,
        q = v :: q0 /\ charCodeAt v (sourceOffset L) = Some c
        /\ ((exists t L', iteration v c L = IReturn t L'
                          /\ o = Ret (Some t) L')
            \/ (exists e, iteration v c L = IThrow e /\ o = Throw e L))).
Proof.
  intros HI Ho Hne. destruct q as [|v q0].
  - left. pose proof (Inv_nil _ _ HI) as [Hs _]. split; [reflexivity|].
    split; [assumption|].
    cbn in Ho. rewrite Hs in Ho.
    destruct HI as (_ & _ & Ht). unfold token_ok in Ht.
    destruct se; [|right; cbn in Ho; auto].
    destruct (token L) as [t|] eqn:Htok; [|right; cbn in Ho; auto].
    left. split; [reflexivity|]. cbn [andb] in Ho.
    rewrite bool_decide_eq_true_2 in Ho by eauto.
    assert (tokenValueOffset L = -1) as Hv.
    { destruct Ht as (_ & _ & Ht).
      destruct (TokenKind_eqb _ _); [tauto|].
      destruct Ht as [[? _]|(_ & ? & _)]; congruence. }
    unfold flushToken in *. rewrite Htok, Hv in *.
    destruct (type t); cbn in *; eauto 10.
  - right. destruct (Inv_head _ _ _ _ HI) as (l & nx & Hs & Hnd & _).
    cbn in Ho. rewrite Hs, Hnd in Ho. cbn in Ho.
    destruct (charCodeAt v (sourceOffset L)) as [c|] eqn:Hc.
    + exists v, q0, c. split; [reflexivity|]. split; [assumption|].
      destruct (iteration v c L) eqn:Hit; [congruence|left|right]; eauto.
    + destruct (chunk_end_Inv _ _ _ _ nx HI) as (L1 & HL1 & _);
        [apply HI|eauto|assumption|].
      rewrite HL1 in Ho. congruence.
Qed.

Lemma exit_Inv h se L q r L' :
  Inv h L q -> next_loop 1 h se L = Ret r L' -> Inv h L' q.
Proof.
  intros HI Ho.
  destruct (exit_cases _ _ _ _ _ HI Ho ltac:(discriminate))
    as [(-> & Hs & [(_ & t0 & t & L1 & Htok & Hf & ?)|(_ & ?)])
       |(v & q0 & c & -> & Hc & [(t & L1 & Hit & ?)|(e & _ & ?)])];
    simplify_eq; try assumption.
  - destruct HI as (Hch & Hoff & Ht).
    pose proof (flushToken_frame _ _ _ _ Hf) as (E1 & E2 & E3 & _ & _ & _ & E4).
    split_Inv.
    + cbn in *. rewrite E1, E2. assumption.
    + cbn in *. lia.
    + unfold token_ok in *. rewrite E4. rewrite Htok in Ht.
      unfold flushToken in Hf. rewrite Htok in Hf.
      repeat case_match; simplify_eq; cbn; try reflexivity; intuition lia.
  - pose proof (iteration_Inv _ _ _ _ _ HI Hc) as HI'. rewrite Hit in HI'.
    assumption.
Qed.

Lemma exit_throw h se L q e L' :
  Inv h L q -> next_loop 1 h se L = Throw e L' -> L' = L.
Proof.
  intros HI Ho.
  destruct (exit_cases _ _ _ _ _ HI Ho ltac:(discriminate))
    as [(-> & Hs & [(_ & t0 & t & L1 & Htok & Hf & ?)|(_ & ?)])
       |(v & q0 & c & -> & Hc & [(t & L1 & Hit & ?)|(e' & _ & ?)])];
    congruence.
Qed.

(** ** The queue of a state that satisfies the invariant *)

Lemma chunks_from_chain h prev p q tl fuel :
  chain h prev p q tl ->
  match p with Some l => (length h - l <= fuel)%nat | None => True end ->
  chunks_from fuel h p = q.
Proof.
  revert prev p fuel. induction q as [|v q IH]; intros prev p fuel.
  - intros [-> _] _. destruct fuel; reflexivity.
  - intros (l & nx & -> & Hnd & _ & Hc) Hf.
    pose proof (lookup_lt_Some _ _ _ Hnd) as Hl.
    destruct fuel as [|fuel]; [lia|]. cbn. rewrite Hnd. cbn. f_equal.
    apply (IH (Some l)); [assumption|].
    destruct nx as [l'|]; [|trivial].
    destruct q as [|v' q']; [destruct Hc; discriminate|].
    destruct Hc as (l1 & nx1 & ? & _ & Hlt & _). simplify_eq. cbn in Hlt. lia.
Qed.

Lemma Inv_queue h L q : Inv h L q -> queue {| heap := h; this := L |} = q.
Proof.
  intros (Hc & _). unfold queue; cbn.
  eapply chunks_from_chain; [eassumption|].
  destruct (source L); [lia|trivial].
Qed.

Lemma Inv_pending h L q :
  Inv h L q -> pending {| heap := h; this := L |} = pend L q.
Proof. intros HI. unfold pending. rewrite (Inv_queue _ _ _ HI). reflexivity. Qed.

(** ** Every state the lexer goes through satisfies the invariant *)

Lemma Inv_new : Inv [] Lexer_new [].
Proof. repeat split. Qed.

Lemma rounds_Inv h L L' q :
  rtc (round h) L L' -> Inv h L q -> exists q', Inv h L' q'.
Proof.
  intros Hr. revert q. induction Hr as [L|L L1 L2 Hr _ IH]; intros q HI.
  - eauto.
  - destruct (round_Inv _ _ _ _ HI Hr) as (q1 & HI1 & _). eauto.
Qed.

(** [next], from a state that satisfies the invariant: rounds of the loop
    lead to a lexer [L1] from which the loop is left. *)
Lemma next_run se st q (P : Lexer -> list Chunk -> Prop) :
  (forall L q L' q', Inv (heap st) L q -> P L q -> round (heap st) L L' ->
                     Inv (heap st) L' q' -> P L' q') ->
  Inv (heap st) (this st) q -> P (this st) q ->
  exists L1 q1,
    Inv (heap st) L1 q1 /\ P L1 q1 /\ rtc (round (heap st)) (this st) L1
    /\ ((exists r L', next_loop 1 (heap st) se L1 = Ret r L'
                      /\ next se st = Returned r {| heap := heap st; this := L' |})
        \/ (exists e, next_loop 1 (heap st) se L1 = Throw e L1
                      /\ next se st = Thrown e {| heap := heap st; this := L1 |})).
Proof.
  intros Hstep HI HP.
  destruct (next_loop_run (heap st) se P Hstep (fuel_of (heap st)) _ _ HI HP
              (work_fuel _ _ _ HI))
    as (L1 & q1 & HI1 & HP1 & Hr & Hex & Hrun).
  exists L1, q1. do 3 (split; [assumption|]).
  unfold next. rewrite Hrun.
  destruct (next_loop 1 (heap st) se L1) as [r L'|e L'|] eqn:Ho; [| |congruence].
  - left. eauto.
  - right. pose proof (exit_throw _ _ _ _ _ _ HI1 Ho). subst L'. eauto.
Qed.

Lemma next_Inv se st q :
  Inv (heap st) (this st) q ->
  match next se st with
  | Returned _ st' | Thrown _ st' =>
      heap st' = heap st /\ exists q', Inv (heap st') (this st') q'
  | Diverged => False
  end.
Proof.
  intros HI.
  destruct (next_run se st q (fun _ _ => True)) as (L1 & q1 & HI1 & _ & _ & H);
    [trivial|assumption|trivial|].
  destruct H as [(r & L' & Ho & ->)|(e & Ho & ->)]; cbn.
  - split; [reflexivity|]. exists q1. eapply exit_Inv; eassumption.
  - split; [reflexivity|]. eauto.
Qed.

(** [next] returns or raises: the fuel it runs with is never used up. *)
Lemma next_total se st q :
  Inv (heap st) (this st) q -> next se st <> Diverged.
Proof.
  intros HI Hn. pose proof (next_Inv se st q HI) as H.
  rewrite Hn in H. exact H.
Qed.

Lemma session_Inv st chunks toks :
  session st chunks toks -> exists q, Inv (heap st) (this st) q.
Proof.
  induction 1 as [|st chunks toks c st' _ [q HI] Ha
                  |st chunks toks se r st' _ [q HI] Hn
                  |st chunks toks se e st' _ [q HI] Hn].
  - exists []. apply Inv_new.
  - destruct st as [h L].
    destruct (appendSource_Inv _ _ _ c HI) as (h' & s & tl & Ha' & HI' & _).
    cbn in *. rewrite Ha' in Ha. simplify_eq. eauto.
  - pose proof (next_Inv se st q HI) as Hn'. rewrite Hn in Hn'. apply Hn'.
  - pose proof (next_Inv se st q HI) as Hn'. rewrite Hn in Hn'. apply Hn'.
Qed.

Lemma reachable_Inv st :
  reachable st -> exists q, Inv (heap st) (this st) q.
Proof.
  intros (L0 & chunks & toks & Hs & Hr).
  apply session_Inv in Hs as [q HI]. cbn in HI.
  eapply rounds_Inv; eassumption.
Qed.

Lemma session_reachable st chunks toks : session st chunks toks -> reachable st.
Proof.
  intros Hs. exists (this st), chunks, toks. split; [|reflexivity].
  destruct st; exact Hs.
Qed.

(** ** The position counters, codepoint by codepoint *)

(** A pass through the loop body either consumes the codepoint, and then
    the offsets advance by one and line and column follow LINE FEED alone,
    or consumes nothing and leaves the position as it is. *)
Lemma branch_position v c L :
  match branch v c L with
  | Fall _ L1 =>
      sourceOffset (advance L1) = sourceOffset L + 1
      /\ tokenOffset (advance L1) = tokenOffset L + 1
      /\ (tokenLine (advance L1), tokenColumn (advance L1))
         = position_step is_line_feed (tokenLine L, tokenColumn L) c
  | Return _ L1 =>
      sourceOffset L1 = sourceOffset L /\ tokenOffset L1 = tokenOffset L
      /\ tokenLine L1 = tokenLine L /\ tokenColumn L1 = tokenColumn L
  | Raise _ => True
  end.
Proof.
  unfold position_step, is_line_feed.
  unfold branch, start_token, continue_token, keep_reading, return_flush.
  destruct (Z.eqb_spec c UC.LINE_FEED) as [->|Hc].
  - change (SINGLE_TOKENS UC.LINE_FEED) with (@None TokenKind).
    change (is_symbol_character UC.LINE_FEED) with false.
    change (UC.is_decdigit UC.LINE_FEED) with false.
    change (UC.is_hexdigit UC.LINE_FEED) with false.
    change (UC.is_space UC.LINE_FEED) with false.
    cbn.
    repeat case_match; simplify_eq; cbn; auto;
      match goal with
      | H : flushToken _ _ = inr _ |- _ =>
          apply flushToken_frame in H; intuition congruence
      end.
  - repeat case_match; simplify_eq; cbn; auto;
      try match goal with
      | H : flushToken _ _ = inr _ |- _ =>
          apply flushToken_frame in H; intuition congruence
      end.
Qed.

Lemma iteration_position v c L :
  match iteration v c L with
  | IContinue L' | IReturn _ L' =>
      (sourceOffset L' = sourceOffset L + 1
       /\ tokenOffset L' = tokenOffset L + 1
       /\ (tokenLine L', tokenColumn L')
          = position_step is_line_feed (tokenLine L, tokenColumn L) c)
      \/ (sourceOffset L' = sourceOffset L /\ tokenOffset L' = tokenOffset L
          /\ tokenLine L' = tokenLine L /\ tokenColumn L' = tokenColumn L)
  | IThrow _ => True
  end.
Proof.
  unfold iteration. pose proof (branch_position v c L) as H.
  destruct (branch v c L) as [[t|] L1|t L1|e]; auto.
Qed.

(** ** The token in progress, round by round *)

Lemma flushToken_token src L t L' :
  flushToken src L = inr (t, L') ->
  exists t0, token L = Some t0 /\ same_start t0 t /\ type t = type t0.
Proof.
  unfold flushToken, same_start. intros H.
  destruct (token L) as [t0|]; [|discriminate]. exists t0.
  repeat case_match; simplify_eq; cbn; auto.
Qed.

Lemma iteration_return_cases v c L t L' :
  iteration v c L = IReturn t L' ->
  (token L = None /\ made_at L t /\ value t = VUndefined
   /\ SINGLE_TOKENS c = Some (type t) /\ L' = advance L)
  \/ (is_Some (token L) /\ flushToken (Some v) L = inr (t, L')).
Proof.
  unfold iteration, branch. destruct (token L) as [t0|] eqn:Htok.
  - intros H. right. split; [eauto|].
    unfold continue_token, keep_reading, return_flush in H.
    repeat case_match; simplify_eq; reflexivity.
  - intros H. left. split; [reflexivity|].
    unfold start_token in H.
    repeat case_match; simplify_eq; cbn; unfold made_at; auto.
Qed.

Lemma iteration_continue_token v c L L' :
  iteration v c L = IContinue L' ->
  match token L', token L with
  | Some t', Some t => same_start t t'
  | Some t', None => made_at L t'
  | None, Some _ => False
  | None, None => True
  end.
Proof.
  unfold iteration, branch. destruct (token L) as [t0|] eqn:Htok.
  - intros H.
    unfold continue_token, keep_reading, return_flush in H.
    repeat case_match; simplify_eq; cbn in *; simplify_eq;
      try rewrite Htok in *; simplify_eq; cbn; unfold same_start; auto.
  - intros H. unfold start_token in H.
    repeat case_match; simplify_eq; cbn in *; simplify_eq;
      try rewrite Htok in *; simplify_eq; cbn; unfold made_at; auto.
Qed.

Lemma chunk_end_frame nd L L' :
  chunk_end nd L = inr L' ->
  tokenOffset L' = tokenOffset L /\ tokenLine L' = tokenLine L
  /\ tokenColumn L' = tokenColumn L /\ tokenValueOffset L' = -1
  /\ match token L', token L with
     | Some t', Some t => same_start t t' /\ type t' = type t
     | None, None => True
     | _, _ => False
     end.
Proof.
  unfold chunk_end. intros H.
  repeat case_match; simplify_eq; cbn in *; simplify_eq;
    unfold same_start; auto 10.
  all: try (match goal with H : negb _ = false |- _ =>
              apply negb_false_iff, Z.eqb_eq in H end; auto 10).
Qed.

(** ** The history of a session *)

Lemma position_by_snoc brk cs c :
  position_by brk (cs ++ [c]) = position_step brk (position_by brk cs) c.
Proof. unfold position_by. rewrite fold_left_app. reflexivity. Qed.

Lemma tok_pos_snoc consumed c t :
  tok_pos consumed t -> tok_pos (consumed ++ [c]) t.
Proof.
  intros [Hr Hp]. split; [rewrite length_app; cbn; lia|].
  rewrite take_app_le by lia. assumption.
Qed.

Lemma tok_pos_made consumed c L t :
  tokenOffset L = Z.of_nat (length consumed) ->
  (tokenLine L, tokenColumn L) = position_by is_line_feed consumed ->
  made_at L t -> tok_pos (consumed ++ [c]) t.
Proof.
  intros Ho Hp (E1 & E2 & E3). split.
  - rewrite length_app; cbn; lia.
  - rewrite E1, E2, E3, Ho, Nat2Z.id, take_app_length. assumption.
Qed.

Lemma tok_pos_same consumed t t' :
  same_start t t' -> tok_pos consumed t -> tok_pos consumed t'.
Proof. intros (E1 & E2 & E3). unfold tok_pos. rewrite E1, E2, E3. trivial. Qed.

Lemma sorted_snoc (toks : list Token) (t : Token) :
  StronglySorted (fun a b => offset a < offset b) toks ->
  Forall (fun a => offset a < offset t) toks ->
  StronglySorted (fun a b => offset a < offset b) (toks ++ [t]).
Proof.
  intros Hs Hf. apply StronglySorted_app_2.
  - intros a b Ha Hb. apply list_elem_of_singleton in Hb. subst b.
    rewrite Forall_forall in Hf. apply Hf. assumption.
  - assumption.
  - repeat constructor.
Qed.

Lemma Track_round h chunks toks L q L' q' :
  Inv h L q -> Track chunks toks L q -> round h L L' -> Inv h L' q' ->
  Track chunks toks L' q'.
Proof.
  intros HI (consumed & T1 & [k T2] & T3 & T4 & T5 & T6 & T7 & T8) Hr HI'.
  destruct (round_cases _ _ _ _ HI Hr)
    as (v & q0 & nx & l & -> & _ & _
        & [(c & Hc & Hit & HI1 & Hp)|(Hc & Hce & HI1 & Hp & _)]);
    pose proof (Inv_unique _ _ _ _ HI' HI1); subst q'.
  - (* a codepoint is consumed *)
    pose proof (iteration_continue_frame _ _ _ _ Hit) as (_ & _ & Eso & Eto).
    pose proof (iteration_position v c L) as Hpos. rewrite Hit in Hpos.
    destruct Hpos as [(_ & _ & Hpos)|(? & _)]; [|lia].
    pose proof (iteration_continue_token _ _ _ _ Hit) as Htk.
    exists (consumed ++ [c]).
    split; [rewrite <- (assoc_L (++)); cbn; congruence|].
    split; [eauto|].
    split; [rewrite length_app; cbn; lia|].
    split; [rewrite position_by_snoc, <- T4; assumption|].
    split; [|split; [|split]].
    + intros t' Ht'. rewrite Ht' in Htk.
      destruct (token L) as [t|].
      * eapply tok_pos_same; [eassumption|]. apply tok_pos_snoc. auto.
      * eapply tok_pos_made; eassumption.
    + eapply Forall_impl; [exact T6|]. intros t. apply tok_pos_snoc.
    + eapply Forall_impl; [exact T7|]. intros t. cbn.
      unfold frontier.
      destruct (token L') as [t'|], (token L) as [t0|];
        try destruct Htk as (? & _); try contradiction; lia.
    + assumption.
  - (* the head chunk is dropped *)
    pose proof (chunk_end_frame _ _ _ Hce) as (Eto & Etl & Etc & _ & Htk).
    exists consumed.
    split; [congruence|].
    split.
    { exists (k + 1)%nat. rewrite <- drop_drop, <- T2. reflexivity. }
    split; [congruence|]. split; [congruence|].
    split; [|split; [|split]].
    + intros t' Ht'. rewrite Ht' in Htk.
      destruct (token L) as [t|]; [|contradiction].
      eapply tok_pos_same; [apply Htk|auto].
    + assumption.
    + eapply Forall_impl; [exact T7|]. intros t. cbn.
      unfold frontier.
      destruct (token L') as [t'|], (token L) as [t0|];
        try destruct Htk as ((? & _) & _); try contradiction; lia.
    + assumption.
Qed.

Lemma pend_char L L' v q0 c :
  charCodeAt v (sourceOffset L) = Some c ->
  sourceOffset L' = sourceOffset L + 1 ->
  pend L (v :: q0) = c :: pend L' (v :: q0).
Proof.
  intros Hc Ho. apply charCodeAt_Some in Hc as [Hr Hc].
  unfold pend. rewrite Ho. cbn [concat].
  replace (Z.to_nat (sourceOffset L + 1)) with (S (Z.to_nat (sourceOffset L)))
    by lia.
  apply drop_S. rewrite lookup_app_l by lia. assumption.
Qed.

Lemma Track_flush chunks toks src L q t L' :
  Track chunks toks L q ->
  flushToken src L = inr (t, L') ->
  Track chunks (toks ++ [t]) L' q.
Proof.
  intros (consumed & T1 & T2 & T3 & T4 & T5 & T6 & T7 & T8) Hf.
  pose proof (flushToken_frame _ _ _ _ Hf) as (_ & _ & Eso & Eto & Etl & Etc & Etk).
  pose proof (flushToken_token _ _ _ _ Hf) as (t0 & Ht0 & Hsame & _).
  pose proof (T5 _ Ht0) as Hpos0.
  assert (offset t = offset t0) as Eoff by apply Hsame.
  unfold frontier in T7. rewrite Ht0 in T7.
  exists consumed.
  split; [unfold pend in *; congruence|]. split; [assumption|].
  split; [congruence|]. split; [congruence|].
  split; [intros ? ?; congruence|].
  split; [|split].
  - apply Forall_app. split; [assumption|]. constructor; [|constructor].
    eapply tok_pos_same; eassumption.
  - unfold frontier. rewrite Etk, Eto, T3.
    destruct Hpos0 as [? _].
    apply Forall_app. split.
    + eapply Forall_impl; [exact T7|]. intros a. cbn. lia.
    + constructor; [lia|constructor].
  - apply sorted_snoc; [assumption|].
    eapply Forall_impl; [exact T7|]. intros a. cbn. lia.
Qed.

Lemma Track_exit h se chunks toks L q r L' :
  Inv h L q -> Track chunks toks L q ->
  next_loop 1 h se L = Ret r L' ->
  Track chunks (toks ++ option_list r) L' q.
Proof.
  intros HI HT Ho.
  destruct (exit_cases _ _ _ _ _ HI Ho ltac:(discriminate))
    as [(-> & Hs & [(_ & t0 & t & L1 & Htok & Hf & ?)|(_ & ?)])
       |(v & q0 & c & -> & Hc & [(t & L1 & Hit & ?)|(e & _ & ?)])];
    simplify_eq; cbn [option_list].
  - eapply Track_flush; eassumption.
  - rewrite app_nil_r. assumption.
  - destruct (iteration_return_cases _ _ _ _ _ Hit)
      as [(Htok & Hmade & _ & _ & ->)|(_ & Hf)];
      [|eapply Track_flush; eassumption].
    destruct HT as (consumed & T1 & T2 & T3 & T4 & T5 & T6 & T7 & T8).
    pose proof (iteration_position v c L) as Hpos. rewrite Hit in Hpos.
    destruct Hpos as [(Eso & Eto & Hpos)|(Eso & _)]; [|cbn in Eso; lia].
    unfold frontier in T7. rewrite Htok in T7.
    assert (offset t = tokenOffset L) as Eoff by apply Hmade.
    exists (consumed ++ [c]).
    split.
    { rewrite <- (assoc_L (++)). cbn.
      rewrite <- (pend_char L (advance L) v q0 c Hc Eso). assumption. }
    split; [assumption|].
    split; [rewrite length_app; cbn in *; lia|].
    split; [rewrite position_by_snoc, <- T4; assumption|].
    split; [intros ?; cbn; congruence|].
    split; [|split].
    + apply Forall_app. split.
      * eapply Forall_impl; [exact T6|]. intros a. apply tok_pos_snoc.
      * constructor; [|constructor]. eapply tok_pos_made; eassumption.
    + unfold frontier. cbn. rewrite Htok.
      apply Forall_app. split.
      * eapply Forall_impl; [exact T7|]. intros a. cbn. lia.
      * constructor; [lia|constructor].
    + apply sorted_snoc; [assumption|].
      eapply Forall_impl; [exact T7|]. intros a. cbn. lia.
Qed.

Lemma Track_append chunks toks L q c s tl :
  offset_ok L q -> Track chunks toks L q ->
  Track (chunks ++ [c]) toks (set_queue s tl L) (q ++ [c]).
Proof.
  intros Ho (consumed & T1 & [k T2] & T3 & T4 & T5 & T6 & T7 & T8).
  exists consumed.
  split.
  { rewrite concat_app, T1. cbn [concat]. rewrite app_nil_r.
    rewrite <- (assoc_L (++)). f_equal.
    unfold pend. cbn [sourceOffset set_queue]. rewrite concat_app. cbn [concat].
    rewrite app_nil_r. symmetry. apply drop_app_le.
    destruct q as [|v q0]; cbn in *; [lia|]. rewrite length_app. lia. }
  split.
  { destruct (decide (k <= length chunks)%nat).
    - exists k. rewrite drop_app_le by assumption. congruence.
    - exists (length chunks). rewrite drop_app_length.
      rewrite drop_ge in T2 by lia. subst q. reflexivity. }
  auto 10.
Qed.

Lemma Track_new : Track [] [] Lexer_new [].
Proof.
  exists []. split; [reflexivity|]. split; [exists 0%nat; reflexivity|].
  split; [reflexivity|]. split; [reflexivity|].
  split; [intros ? ?; discriminate|]. repeat constructor.
Qed.

(** The invariant and the history, for every session. *)
Lemma session_Track st chunks toks :
  session st chunks toks ->
  exists q, Inv (heap st) (this st) q /\ Track chunks toks (this st) q.
Proof.
  induction 1 as [|st chunks toks c st' _ (q & HI & HT) Ha
                  |st chunks toks se r st' _ (q & HI & HT) Hn
                  |st chunks toks se e st' _ (q & HI & HT) Hn].
  - exists []. split; [apply Inv_new|apply Track_new].
  - destruct st as [h L].
    destruct (appendSource_Inv _ _ _ c HI) as (h' & s & tl & Ha' & HI' & _).
    cbn in *. rewrite Ha' in Ha. simplify_eq. cbn.
    exists (q ++ [c]). split; [assumption|].
    apply Track_append; [apply HI|exact HT].
  - destruct (next_run se st q (Track chunks toks))
      as (L1 & q1 & HI1 & HT1 & _ & [(r' & L' & Ho & Hn')|(e & _ & Hn')]);
      [intros La qa Lb qb Ha Hb Hc Hd; exact (Track_round _ _ _ _ _ _ _ Ha Hb Hc Hd)
      |assumption|assumption| |congruence].
    rewrite Hn' in Hn. simplify_eq. cbn.
    exists q1. split; [eapply exit_Inv; eassumption|].
    eapply Track_exit; eassumption.
  - destruct (next_run se st q (Track chunks toks))
      as (L1 & q1 & HI1 & HT1 & _ & [(r' & L' & Ho & Hn')|(e' & _ & Hn')]);
      [intros La qa Lb qb Ha Hb Hc Hd; exact (Track_round _ _ _ _ _ _ _ Ha Hb Hc Hd)
      |assumption|assumption|congruence|].
    rewrite Hn' in Hn. simplify_eq. cbn. eauto.
Qed.

(** * The queue of chunks *)

Lemma Inv_head_tail h L q :
  Inv h L q -> (source L = None <-> sourceTail L = None).
Proof.
  intros (Hc & _). destruct q as [|v q].
  - destruct Hc as [-> ->]. tauto.
  - pose proof Hc as (l & nx & Hs & _). rewrite Hs in Hc.
    destruct (chain_append _ _ _ _ _ [] Hc) as (t & _ & -> & _).
    rewrite Hs. split; discriminate.
Qed.

(** C10.  After every call of [appendSource] and of [next], the head of the
    chunk queue is null exactly when its tail is null; the queue holds the
    chunks appended last, in the order they were appended; [appendSource]
    always succeeds and puts its chunk behind the queued ones, and on a
    drained queue it starts a queue of the one fresh node, which both
    [source] and [sourceTail] then refer to. *)
Theorem queue_head_tail_invariant st chunks toks :
  session st chunks toks ->
  (source (this st) = None <-> sourceTail (this st) = None)
  /\ (exists k, queue st = drop k chunks)
  /\ forall c, exists st',
       appendSource c st = inr st'
       /\ queue st' = queue st ++ [c]
       /\ (source (this st) = None ->
           source (this st') = Some (length (heap st))
           /\ sourceTail (this st') = Some (length (heap st))
           /\ heap st' !! length (heap st) = Some (Node.mk c None)).
Proof.
  intros Hs. destruct (session_Track _ _ _ Hs) as (q & HI & HT).
  destruct st as [h L]. cbn [heap this] in *.
  rewrite (Inv_queue _ _ _ HI).
  split; [eapply Inv_head_tail; eassumption|].
  split; [destruct HT as (_ & _ & Hk & _); exact Hk|].
  intros c.
  destruct (appendSource_Inv _ _ _ c HI) as (h' & s & tl & Ha & HI' & Hlen & Hnew & _).
  eexists. split; [exact Ha|]. cbn [heap this].
  split; [apply (Inv_queue _ _ _ HI')|].
  intros Hnone. destruct (Hnew Hnone) as [-> ->].
  split; [reflexivity|]. split; [reflexivity|].
  destruct HI' as (Hc & _).
  assert (q = []) as ->.
  { destruct HI as (Hq & _). destruct q as [|v q]; [reflexivity|].
    destruct Hq as (? & ? & ? & _). congruence. }
  destruct Hc as (l & nx & Hl & Hnd & _ & Hnx & _). cbn in Hl. simplify_eq.
  assumption.
Qed.

Lemma example_session_2 :
  session example_state_2 [example_chunk] [example_token_1].
Proof.
  apply (session_next example_state_1 [example_chunk] [] false
           (Some example_token_1)).
  - apply (session_append State_new [] [] example_chunk).
    + apply session_new.
    + reflexivity.
  - vm_compute. reflexivity.
Defined.

Lemma queue_head_tail_invariant_witness :
  (source (this example_state_2) = None
   <-> sourceTail (this example_state_2) = None)
  /\ (exists k, queue example_state_2 = drop k [example_chunk])
  /\ forall c, exists st',
       appendSource c example_state_2 = inr st'
       /\ queue st' = queue example_state_2 ++ [c]
       /\ (source (this example_state_2) = None ->
           source (this st') = Some (length (heap example_state_2))
           /\ sourceTail (this st') = Some (length (heap example_state_2))
           /\ heap st' !! length (heap example_state_2)
              = Some (Node.mk c None)).
Proof.
  exact (queue_head_tail_invariant example_state_2 [example_chunk]
           [example_token_1] example_session_2).
Defined.

(** * Chunk boundaries *)

(** C1 (feeding a source in chunks gives the tokens of the whole source),
    at an input where the code departs from it: "a b" fed as one chunk gives
    the symbols "a" and "b"; fed as "a" and " b" it gives an additional Line
    token at offset 1, the space being the first codepoint of its chunk.
    It does so whether the tokens are read after each chunk or after the
    last one. *)
Theorem chunk_split_changes_tokens :
  lex [str "a b"]
  = ([mkToken SYMBOL (VStr (str "a")) 0 0 0;
      mkToken SYMBOL (VStr (str "b")) 2 0 2], Complete)
  /\ lex [str "a"; str " b"]
     = ([mkToken SYMBOL (VStr (str "a")) 0 0 0;
         mkToken LINE (VNum 0) 1 0 1;
         mkToken SYMBOL (VStr (str "b")) 2 0 2], Complete)
  /\ lex_queued [str "a"; str " b"] = lex [str "a"; str " b"]
  /\ lex [str "a b"] <> lex [str "a"; str " b"].
Proof.
  assert (lex [str "a b"]
          = ([mkToken SYMBOL (VStr (str "a")) 0 0 0;
              mkToken SYMBOL (VStr (str "b")) 2 0 2], Complete)) as E1
    by (vm_compute; reflexivity).
  assert (lex [str "a"; str " b"]
          = ([mkToken SYMBOL (VStr (str "a")) 0 0 0;
              mkToken LINE (VNum 0) 1 0 1;
              mkToken SYMBOL (VStr (str "b")) 2 0 2], Complete)) as E2
    by (vm_compute; reflexivity).
  split; [exact E1|]. split; [exact E2|].
  split; [vm_compute; reflexivity|].
  rewrite E1, E2. discriminate.
Qed.

(** * The hexadecimal prefix *)

(** While a DecimalNumber token whose text is still a slice of the chunk is
    read, "x" turns it into a HexNumber when the text is the single digit
    "0" and raises the syntax error otherwise. *)
Lemma hex_prefix_slice v L t :
  token L = Some t -> type t = DECIMAL_NUMBER ->
  tokenValueOffset L <> -1 ->
  let text_is_zero :=
    (tokenValueOffset L =? sourceOffset L - 1)
    && bool_decide (charCodeAt v (tokenValueOffset L) = Some UC.DIGIT_ZERO) in
  iteration v UC.SMALL_LETTER_X L
  = if text_is_zero
    then IContinue (advance (set_token (Some (set_type HEX_NUMBER t)) L))
    else IThrow UnexpectedX.
Proof.
  intros Htok Hty Hv. cbn zeta.
  unfold iteration, branch, continue_token, hex_prefix_check, keep_reading.
  rewrite Htok, Hty. cbn.
  destruct (Z.eqb_spec (tokenValueOffset L) (-1)); [contradiction|]. cbn.
  destruct (tokenValueOffset L =? sourceOffset L - 1); cbn; [|reflexivity].
  destruct (bool_decide _); reflexivity.
Qed.

(** Once the text has been copied into the token, "x" raises the syntax
    error when the text is not one codepoint long, and otherwise reads the
    unbound identifier [DIGIT_ZERO]. *)
Lemma hex_prefix_copied v L t s :
  token L = Some t -> type t = DECIMAL_NUMBER ->
  tokenValueOffset L = -1 -> value t = VStr s ->
  iteration v UC.SMALL_LETTER_X L
  = if (length s =? 1)%nat then IThrow (ReferenceError "DIGIT_ZERO")
    else IThrow UnexpectedX.
Proof.
  intros Htok Hty Hv Hs.
  unfold iteration, branch, continue_token, hex_prefix_check.
  rewrite Htok, Hty, Hv, Hs. cbn.
  destruct (Nat.eqb_spec (length s) 1) as [->|Hn]; cbn; [reflexivity|].
  destruct (Z.eqb_spec (Z.of_nat (length s)) 1); [lia|reflexivity].
Qed.

(** C2 ("x" after a decimal text that is exactly "0", in either capture
    mode, makes the token a HexNumber and raises nothing), at an input where
    the code departs from it: "0x1" in one chunk is a HexNumber; fed as "0"
    and "x1", the digit "0" is copied into the token at the end of its
    chunk, and the "x" then raises a ReferenceError. *)
Theorem hex_prefix_across_chunks_raises :
  lex [str "0x1"]
  = ([mkToken HEX_NUMBER (VStr (str "0x1")) 0 0 0], Complete)
  /\ lex [str "0"; str "x1"] = ([], Failed (ReferenceError "DIGIT_ZERO"))
  /\ lex_queued [str "0"; str "x1"] = ([], Failed (ReferenceError "DIGIT_ZERO")).
Proof. repeat split; vm_compute; reflexivity. Qed.

(** * Whitespace between tokens *)

Lemma is_space_not_linebreak c :
  UC.is_space c = true -> UC.is_linebreak c = false.
Proof.
  unfold UC.is_space, UC.is_linebreak. intros H.
  classifier_cases H; subst; try reflexivity.
  repeat (apply orb_false_iff; split); try apply andb_false_iff;
    try (apply Z.eqb_neq; lia).
  right. apply Z.ltb_ge. lia.
Qed.

(** A whitespace codepoint that is not a line break, met while no token is
    read: it is dropped, unless it is the first codepoint of its chunk, in
    which case a Line token begins. *)
Lemma whitespace_between_tokens v c L :
  token L = None ->
  UC.is_whitespace c = true -> UC.is_linebreak c = false ->
  iteration v c L
  = IContinue (advance (if sourceOffset L =? 0
                        then set_token (Some (makeToken LINE L)) L
                        else L)).
Proof.
  intros Htok Hw Hl.
  assert (UC.is_space c = true) as Hs.
  { unfold UC.is_whitespace in Hw. rewrite Hl, orb_false_r in Hw. exact Hw. }
  assert (c = 0x09 \/ 0x20 <= c) as Hrange.
  { pose proof Hs as Hs'. unfold UC.is_space in Hs'.
    classifier_cases Hs'; lia. }
  assert (is_symbol_character c = false) as Hsym.
  { unfold is_symbol_character. rewrite Hw. cbn.
    rewrite andb_false_r. reflexivity. }
  assert (SINGLE_TOKENS c = None /\ (c =? UC.LINE_FEED) = false
          /\ (c =? UC.APOSTROPHE) = false /\ UC.is_decdigit c = false)
    as (E1 & E2 & E3 & E4).
  { unfold UC.is_space in Hs.
    classifier_cases Hs; subst; try (repeat split; reflexivity).
    unfold SINGLE_TOKENS, UC.is_decdigit.
    repeat match goal with
    | |- context [?a =? ?b] =>
        destruct (Z.eqb_spec a b); [unfold UC.LINE_FEED, UC.APOSTROPHE in *; lia|]
    end.
    repeat split. apply andb_false_iff. right. apply Z.ltb_ge. lia. }
  unfold iteration, branch, start_token.
  rewrite Htok, E1, E2, E3, E4, Hsym, Hw.
  destruct (sourceOffset L =? 0); reflexivity.
Qed.

(** C3 (whitespace met between tokens is dropped, except at total offset
    0), at an input where the code departs from it: a space that is the
    first codepoint of a chunk appended later, at total offset 1, is not
    dropped but begins a Line token, which is returned with offset 1; in one
    chunk the same space is dropped. *)
Theorem space_at_chunk_start_begins_line :
  lex [str "("; str " a"]
  = ([mkToken LEFT_PAREN VUndefined 0 0 0;
      mkToken LINE (VNum 0) 1 0 1;
      mkToken SYMBOL (VStr (str "a")) 2 0 2], Complete)
  /\ lex [str "( a"]
     = ([mkToken LEFT_PAREN VUndefined 0 0 0;
         mkToken SYMBOL (VStr (str "a")) 2 0 2], Complete).
Proof. split; vm_compute; reflexivity. Qed.

(** * Positions *)

(** C4, as stated, fails: CARRIAGE RETURN is a line-break codepoint, and
    consuming it (after the symbol "a" of the chunk "a", CR, "b") advances
    the total offset and the column by one and leaves the line counter as it
    is. *)
Lemma carriage_return_keeps_line :
  let v := [97; 13; 98] in
  exists st1 st2 t L3,
    appendSource v State_new = inr st1
    /\ next false st1 = Returned (Some t) st2
    /\ charCodeAt v (sourceOffset (this st2)) = Some 13
    /\ UC.is_linebreak 13 = true
    /\ iteration v 13 (this st2) = IContinue L3
    /\ tokenOffset L3 = tokenOffset (this st2) + 1
    /\ tokenLine L3 = tokenLine (this st2)
    /\ tokenColumn L3 = tokenColumn (this st2) + 1.
Proof.
  cbn zeta. do 4 eexists.
  split; [reflexivity|]. split; [vm_compute; reflexivity|].
  repeat split; vm_compute; reflexivity.
Qed.

(** C4, amended.  In every session the codepoints appended are those
    consumed followed by those pending; the total offset is the number of
    codepoints consumed, and line and column are those reached from (0, 0)
    by stepping over the consumed codepoints, where LINE FEED, and no other
    codepoint, increments the line and resets the column to 0.  Codepoint
    by codepoint: a pass through the loop body either consumes its
    codepoint, and then the total offset advances by one and line and column
    make this step, or consumes nothing and leaves the position as it is. *)
Theorem position_counters st chunks toks :
  session st chunks toks ->
  (exists consumed,
      concat chunks = consumed ++ pending st
      /\ tokenOffset (this st) = Z.of_nat (length consumed)
      /\ (tokenLine (this st), tokenColumn (this st))
         = position_by is_line_feed consumed)
  /\ forall v c L,
       match iteration v c L with
       | IContinue L' | IReturn _ L' =>
           (sourceOffset L' = sourceOffset L + 1
            /\ tokenOffset L' = tokenOffset L + 1
            /\ (tokenLine L', tokenColumn L')
               = position_step is_line_feed (tokenLine L, tokenColumn L) c)
           \/ (sourceOffset L' = sourceOffset L
               /\ tokenOffset L' = tokenOffset L
               /\ tokenLine L' = tokenLine L
               /\ tokenColumn L' = tokenColumn L)
       | IThrow _ => True
       end.
Proof.
  intros Hs. split; [|exact iteration_position].
  destruct (session_Track _ _ _ Hs) as (q & HI & HT).
  destruct HT as (consumed & T1 & _ & T3 & T4 & _).
  exists consumed. destruct st as [h L]. cbn [heap this] in *.
  rewrite (Inv_pending _ _ _ HI). auto.
Qed.

Lemma position_counters_witness :
  (exists consumed,
      concat [example_chunk] = consumed ++ pending example_state_2
      /\ tokenOffset (this example_state_2) = Z.of_nat (length consumed)
      /\ (tokenLine (this example_state_2), tokenColumn (this example_state_2))
         = position_by is_line_feed consumed)
  /\ forall v c L,
       match iteration v c L with
       | IContinue L' | IReturn _ L' =>
           (sourceOffset L' = sourceOffset L + 1
            /\ tokenOffset L' = tokenOffset L + 1
            /\ (tokenLine L', tokenColumn L')
               = position_step is_line_feed (tokenLine L, tokenColumn L) c)
           \/ (sourceOffset L' = sourceOffset L
               /\ tokenOffset L' = tokenOffset L
               /\ tokenLine L' = tokenLine L
               /\ tokenColumn L' = tokenColumn L)
       | IThrow _ => True
       end.
Proof.
  exact (position_counters example_state_2 [example_chunk] [example_token_1]
           example_session_2).
Defined.

(** C9, as stated, fails: in the chunk "a", CR, "b" the symbol "b" follows a
    line-break codepoint, and is returned with line 0 and column 2, where
    counting line-break codepoints gives line 1 and column 0. *)
Lemma carriage_return_token_position :
  let input := [97; 13; 98] in
  let b := mkToken SYMBOL (VStr [98]) 2 0 2 in
  lex [input] = ([mkToken SYMBOL (VStr [97]) 0 0 0; b], Complete)
  /\ position_by UC.is_linebreak (take (Z.to_nat (offset b)) input) = (1, 0)
  /\ (line b, column b)
     <> position_by UC.is_linebreak (take (Z.to_nat (offset b)) input).
Proof.
  cbn zeta. split; [vm_compute; reflexivity|].
  split; [vm_compute; reflexivity|]. vm_compute. discriminate.
Qed.

(** C9, amended.  In every session each token returned has an offset
    strictly greater than that of the token returned before it, and its line
    and column are those reached from (0, 0) by stepping over the codepoints
    appended before its first codepoint, where LINE FEED, and no other
    codepoint, increments the line and resets the column to 0. *)
Theorem token_positions st chunks toks :
  session st chunks toks ->
  (forall i a b,
      toks !! i = Some a -> toks !! S i = Some b -> offset a < offset b)
  /\ Forall (fun t =>
               0 <= offset t < Z.of_nat (length (concat chunks))
               /\ (line t, column t)
                  = position_by is_line_feed
                      (take (Z.to_nat (offset t)) (concat chunks))) toks.
Proof.
  intros Hs. destruct (session_Track _ _ _ Hs) as (q & HI & HT).
  destruct HT as (consumed & T1 & _ & _ & _ & _ & T6 & _ & T8).
  split.
  - intros i a b Ha Hb.
    rewrite <- (take_drop i toks) in T8.
    apply StronglySorted_app_1_r in T8.
    rewrite (drop_S _ _ _ Ha) in T8.
    apply StronglySorted_inv in T8 as [_ T8].
    rewrite Forall_forall in T8. apply T8.
    apply list_elem_of_lookup. exists 0%nat.
    rewrite lookup_drop. rewrite Nat.add_0_r. assumption.
  - eapply Forall_impl; [exact T6|]. intros t [Hr Hp]. cbn.
    rewrite T1. split; [rewrite length_app; lia|].
    rewrite take_app_le by lia. assumption.
Qed.

Lemma token_positions_witness :
  (forall i a b,
      [example_token_1] !! i = Some a -> [example_token_1] !! S i = Some b ->
      offset a < offset b)
  /\ Forall (fun t =>
               0 <= offset t < Z.of_nat (length (concat [example_chunk]))
               /\ (line t, column t)
                  = position_by is_line_feed
                      (take (Z.to_nat (offset t)) (concat [example_chunk])))
       [example_token_1].
Proof.
  exact (token_positions example_state_2 [example_chunk] [example_token_1]
           example_session_2).
Defined.

(** * Capture of the value of a token *)

Lemma iteration_continue_capture v c L L' :
  iteration v c L = IContinue L' -> is_Some (token L) ->
  tokenValueOffset L' = tokenValueOffset L.
Proof.
  intros H [t Ht]. unfold iteration, branch in H. rewrite Ht in H.
  unfold continue_token, keep_reading, return_flush in H.
  repeat case_match; simplify_eq; reflexivity.
Qed.

Lemma chunk_end_copy nd L L' :
  chunk_end nd L = inr L' -> tokenValueOffset L <> -1 ->
  exists t t', token L = Some t /\ token L' = Some t'
    /\ value t' = VStr (substring_from (Node.value nd) (tokenValueOffset L)).
Proof.
  unfold chunk_end. intros H Hv.
  destruct (Z.eqb_spec (tokenValueOffset L) (-1)); [contradiction|].
  cbn in H. destruct (token L) as [t|]; [|discriminate].
  simplify_eq. cbn. eauto.
Qed.

Lemma appendSource_this c st st' :
  appendSource c st = inr st' ->
  (exists s tl, this st' = set_queue s tl (this st))
  /\ length (heap st') = S (length (heap st)).
Proof.
  unfold appendSource. intros H.
  repeat case_match; simplify_eq; cbn;
    (split; [eauto|]); rewrite ?length_insert, length_app; cbn; lia.
Qed.

Lemma progress_capture a b :
  progress a b -> is_Some (token (this a)) ->
  is_Some (token (this b))
  /\ (tokenValueOffset (this a) = -1 -> tokenValueOffset (this b) = -1)
  /\ (switches a b
      <-> tokenValueOffset (this a) <> -1 /\ exhausted a /\ heap b = heap a)
  /\ (switches a b ->
      exists s nd t',
        source (this a) = Some s /\ heap a !! s = Some nd
        /\ token (this b) = Some t'
        /\ value t'
           = VStr (substring_from (Node.value nd) (tokenValueOffset (this a)))).
Proof.
  intros [h L L' [s nd c Hs Hnd Hc Hit | s nd Hs Hnd Hc Hce] | c st st' Ha] Htok;
    cbn [heap this] in *.
  - (* a codepoint is consumed: nothing changes *)
    pose proof (iteration_continue_token _ _ _ _ Hit) as Ht.
    pose proof (iteration_continue_capture _ _ _ _ Hit Htok) as Hv.
    destruct Htok as [t Htok]. rewrite Htok in Ht.
    split; [destruct (token L'); [eauto|contradiction]|].
    split; [congruence|].
    unfold switches, exhausted; cbn [heap this].
    split; [split|].
    + intros [? ?]. congruence.
    + intros (_ & (s' & nd' & ? & ? & ?) & _). congruence.
    + intros [? ?]. congruence.
  - (* the chunk is exhausted: the slice is copied *)
    pose proof (chunk_end_frame _ _ _ Hce) as (_ & _ & _ & Hv & Ht).
    destruct Htok as [t Htok]. rewrite Htok in Ht.
    split; [destruct (token L'); [eauto|contradiction]|].
    split; [auto|].
    unfold switches, exhausted; cbn [heap this].
    split; [split|].
    + intros [? _]. split; [assumption|]. split; [eauto|reflexivity].
    + intros (? & _). auto.
    + intros [Hne _].
      destruct (chunk_end_copy _ _ _ Hce Hne) as (t0 & t' & _ & Ht' & Hval).
      exists s, nd, t'. auto.
  - (* a chunk is appended: the lexer keeps token and capture *)
    destruct (appendSource_this _ _ _ Ha) as [(s & tl & E) Hlen].
    unfold switches. rewrite E. cbn [token tokenValueOffset set_queue].
    split; [assumption|]. split; [auto|].
    split; [split|].
    + intros [? ?]. contradiction.
    + intros (_ & _ & Hh). rewrite Hh in Hlen. lia.
    + intros [? ?]. contradiction.
Qed.

Lemma progress_rtc_capture a b :
  rtc progress a b -> is_Some (token (this a)) ->
  is_Some (token (this b))
  /\ (tokenValueOffset (this a) = -1 -> tokenValueOffset (this b) = -1).
Proof.
  induction 1 as [|a b c Hab _ IH]; intros Htok; [auto|].
  destruct (progress_capture _ _ Hab Htok) as (Htok' & Hv & _).
  destruct (IH Htok') as (? & ?). auto.
Qed.

(** C8.  Along the steps of the lexer after a token has begun, the token
    stays in progress; its value capture switches from slice to copy in a
    step exactly when that step is the round taken on an exhausted head
    chunk (a round, unlike [appendSource], leaves the heap as it is) while
    the value is still a slice, and the rest of the chunk from the start of
    the token is then the value of the token; a copied value never becomes
    a slice again; so the switch happens at most once. *)
Theorem capture_mode_switches_once a b c d :
  is_Some (token (this a)) ->
  progress a b -> rtc progress b c -> progress c d ->
  is_Some (token (this d))
  /\ (switches a b
      <-> tokenValueOffset (this a) <> -1 /\ exhausted a /\ heap b = heap a)
  /\ (switches a b ->
      exists s nd t',
        source (this a) = Some s /\ heap a !! s = Some nd
        /\ token (this b) = Some t'
        /\ value t'
           = VStr (substring_from (Node.value nd) (tokenValueOffset (this a))))
  /\ (tokenValueOffset (this a) = -1 ->
      tokenValueOffset (this b) = -1 /\ tokenValueOffset (this c) = -1
      /\ tokenValueOffset (this d) = -1)
  /\ (switches a b -> ~ switches c d).
Proof.
  intros Ha Hab Hbc Hcd.
  destruct (progress_capture _ _ Hab Ha) as (Hb & Hab1 & Hab2 & Hab3).
  destruct (progress_rtc_capture _ _ Hbc Hb) as (Hc & Hbc1).
  destruct (progress_capture _ _ Hcd Hc) as (Hd & Hcd1 & _).
  split; [assumption|]. split; [assumption|]. split; [assumption|].
  split.
  { intros Hv. pose proof (Hab1 Hv). pose proof (Hbc1 ltac:(assumption)).
    auto. }
  unfold switches. intros [_ Hb1] [Hc1 _]. auto.
Qed.

(** [capture_a] is a state the lexer goes through: "a" and "b c" are
    appended to a new lexer, and the first round of [next] consumes "a". *)
Lemma capture_a_reachable : reachable capture_a.
Proof.
  exists {| source := Some 0%nat; sourceTail := Some 1%nat; sourceOffset := 0;
            tokenOffset := 0; tokenLine := 0; tokenColumn := 0;
            token := None; tokenValueOffset := -1 |},
    [[97]; [98; 32; 99]], [].
  split.
  - apply (session_append
             {| heap := [Node.mk [97] None];
                this := set_queue (Some 0%nat) (Some 0%nat) Lexer_new |}
             [[97]] [] [98; 32; 99]).
    + apply (session_append State_new [] [] [97]).
      * apply session_new.
      * reflexivity.
    + reflexivity.
  - eapply rtc_l; [|apply rtc_refl].
    apply (round_char _ _ _ 0%nat (Node.mk [97] (Some 1%nat)) 97);
      reflexivity.
Qed.

Lemma capture_a_b : progress capture_a capture_b.
Proof.
  apply progress_round.
  apply (round_chunk _ _ _ 0%nat (Node.mk [97] (Some 1%nat))); reflexivity.
Defined.

Lemma capture_b_d : progress capture_b capture_d.
Proof.
  apply progress_round.
  apply (round_char _ _ _ 1%nat (Node.mk [98; 32; 99] None) 98); reflexivity.
Defined.

Lemma capture_mode_switches_once_witness :
  is_Some (token (this capture_d))
  /\ (switches capture_a capture_b
      <-> tokenValueOffset (this capture_a) <> -1 /\ exhausted capture_a
          /\ heap capture_b = heap capture_a)
  /\ (switches capture_a capture_b ->
      exists s nd t',
        source (this capture_a) = Some s /\ heap capture_a !! s = Some nd
        /\ token (this capture_b) = Some t'
        /\ value t'
           = VStr (substring_from (Node.value nd)
                     (tokenValueOffset (this capture_a))))
  /\ (tokenValueOffset (this capture_a) = -1 ->
      tokenValueOffset (this capture_b) = -1
      /\ tokenValueOffset (this capture_b) = -1
      /\ tokenValueOffset (this capture_d) = -1)
  /\ (switches capture_a capture_b -> ~ switches capture_b capture_d).
Proof.
  apply (capture_mode_switches_once capture_a capture_b capture_b capture_d).
  - eexists. reflexivity.
  - exact capture_a_b.
  - apply rtc_refl.
  - exact capture_b_d.
Defined.

(** * Terminators *)

Lemma terminates_branch v c L t :
  token L = Some t -> terminates (type t) c = true ->
  branch v c L = return_flush v L.
Proof.
  intros Htok Ht. unfold branch. rewrite Htok. unfold continue_token.
  destruct (type t); cbn in Ht; try discriminate Ht.
  - destruct (c =? UC.SMALL_LETTER_X); [discriminate|].
    destruct (c =? UC.FULL_STOP); [discriminate|].
    destruct (UC.is_decdigit c); [discriminate|]. reflexivity.
  - destruct (UC.is_hexdigit c); [discriminate|]. reflexivity.
  - apply negb_true_iff in Ht. rewrite Ht. reflexivity.
  - destruct (is_symbol_character c); [discriminate|]. reflexivity.
Qed.

Lemma start_token_made c L tok L1 t2 :
  token L = None -> start_token c L = Fall tok L1 ->
  tok = Some t2 \/ token L1 = Some t2 -> made_at L t2.
Proof.
  intros Htok H Ht2. unfold start_token in H.
  repeat case_match; simplify_eq; cbn in *;
    destruct Ht2; simplify_eq; try congruence; repeat split.
Qed.

Lemma set_value_same_start x t t1 :
  type t1 = type t -> same_start t t1 -> set_value x t1 = set_value x t.
Proof.
  intros Hty (E1 & E2 & E3). unfold set_value. congruence.
Qed.

Lemma symbol_or_number_not_line k :
  symbol_or_number k = true -> TokenKind_eqb k LINE = false.
Proof. destruct k; cbn; congruence. Qed.

Lemma substring_from_eq v a : substring_from v a = substring v a (Z.of_nat (length v)).
Proof. reflexivity. Qed.

Lemma chunk_end_text v nx L L' t t' :
  chunk_end (Node.mk v nx) L = inr L' ->
  token L = Some t -> token L' = Some t' ->
  sourceOffset L = Z.of_nat (length v) ->
  text_of v L t = to_js_string (value t').
Proof.
  unfold chunk_end, text_of. intros H Ht Ht' Hso. rewrite Ht in H.
  destruct (tokenValueOffset L =? -1); cbn in H; simplify_eq; cbn in *;
    simplify_eq; cbn.
  - reflexivity.
  - rewrite Hso. reflexivity.
Qed.

Lemma flush_value h L v q t :
  Inv h L (v :: q) -> token L = Some t -> symbol_or_number (type t) = true ->
  exists L',
    flushToken (Some v) L = inr (set_value (VStr (text_of v L t)) t, L')
    /\ offset t + Z.of_nat (length (text_of v L t)) = tokenOffset L.
Proof.
  intros (_ & Ho & Ht) Htok Hk. unfold token_ok in Ht. rewrite Htok in Ht.
  destruct Ht as (_ & _ & Ht).
  rewrite (symbol_or_number_not_line _ Hk) in Ht.
  unfold flushToken, text_of. rewrite Htok. cbn in Ho.
  destruct Ht as [(Hv & s & Hs & Hlen)|(Hr & _ & Hlen)].
  - rewrite Hv. cbn. rewrite Hs. change (to_js_string (VStr s)) with s.
    replace (set_value (VStr s) t) with t
      by (destruct t; cbn in *; subst; reflexivity).
    destruct (type t); try discriminate Hk; eexists; (split; [reflexivity|lia]).
  - destruct (Z.eqb_spec (tokenValueOffset L) (-1)); [lia|]. cbn.
    rewrite substring_length by lia.
    destruct (type t); try discriminate Hk; eexists; (split; [reflexivity|lia]).
Qed.

(** C6.  A Symbol or number token in progress ends on the first pending
    codepoint [c] when [c] does not continue it: [next] returns the token
    with the text read so far as its value, [c] not included; the position
    counters are left as they were and [c] stays the first pending
    codepoint, with no token in progress, so that [c] is examined again as
    the start of what follows; the text of the token ends where the total
    offset stands, which is the offset any token begun by [c] gets. *)
Theorem terminator_not_consumed st t c rest se :
  reachable st ->
  token (this st) = Some t -> symbol_or_number (type t) = true ->
  pending st = c :: rest ->
  terminates (type t) c = true ->
  exists st',
    next se st = Returned (Some (set_value (VStr (token_text st t)) t)) st'
    /\ pending st' = c :: rest
    /\ token (this st') = None
    /\ tokenOffset (this st') = tokenOffset (this st)
    /\ tokenLine (this st') = tokenLine (this st)
    /\ tokenColumn (this st') = tokenColumn (this st)
    /\ offset t + Z.of_nat (length (token_text st t)) = tokenOffset (this st')
    /\ forall v tok L1 t2,
         branch v c (this st') = Fall tok L1 ->
         tok = Some t2 \/ token L1 = Some t2 ->
         offset t2 = offset t + Z.of_nat (length (token_text st t)).
Proof.
  intros Hreach Htok Hk Hpend Hterm.
  destruct (reachable_Inv _ Hreach) as [q HI].
  destruct st as [h L]. cbn [heap this] in *.
  rewrite (Inv_pending _ _ _ HI) in Hpend.
  unfold token_text. rewrite (Inv_queue _ _ _ HI). cbn [this].
  set (text := text_of (hd [] q) L t).
  set (P := fun (L1 : Lexer) (q1 : list (list Z)) =>
              exists t1, token L1 = Some t1 /\ type t1 = type t
                /\ same_start t t1 /\ pend L1 q1 = c :: rest
                /\ tokenOffset L1 = tokenOffset L
                /\ tokenLine L1 = tokenLine L
                /\ tokenColumn L1 = tokenColumn L
                /\ text_of (hd [] q1) L1 t1 = text).
  destruct (next_run se {| heap := h; this := L |} q P)
    as (L1 & q1 & HI1 & HP1 & _ & Hexit).
  { (* every round keeps P *)
    cbn [heap]. clear HI. intros La qa Lb qb HI (t1 & Ht1 & Hty & Hst & Hp & E1 & E2 & E3 & Etx) Hr HIb.
    destruct (round_cases _ _ _ _ HI Hr)
      as (v & q0 & nx & l & -> & _ & _
          & [(c' & Hc & Hit & HI1 & Hp')|(Hc & Hce & HI1 & Hp' & Hso)]);
      pose proof (Inv_unique _ _ _ _ HIb HI1); subst qb.
    - exfalso. assert (c' = c) by congruence. subst c'.
      unfold iteration in Hit.
      rewrite (terminates_branch v c La t1 Ht1) in Hit by congruence.
      unfold return_flush in Hit.
      destruct (flushToken (Some v) La) as [?|[? ?]]; discriminate.
    - pose proof (chunk_end_frame _ _ _ Hce) as (F1 & F2 & F3 & F4 & Ht).
      rewrite Ht1 in Ht. destruct (token Lb) as [t2|] eqn:Ht2; [|contradiction].
      destruct Ht as [Hst2 Hty2].
      exists t2. split; [assumption|]. split; [congruence|].
      split.
      { destruct Hst as (? & ? & ?), Hst2 as (? & ? & ?).
        repeat split; congruence. }
      split; [congruence|]. do 3 (split; [congruence|]).
      rewrite <- Etx. cbn [hd]. unfold text_of at 1. rewrite F4. cbn.
      symmetry. eapply chunk_end_text; try eassumption.
      destruct HI as (_ & Ho & _). cbn in Ho.
      apply charCodeAt_None in Hc; lia. }
  { exact HI. }
  { exists t. unfold same_start. auto 10. }
  destruct HP1 as (t1 & Ht1 & Hty & Hst & Hp & E1 & E2 & E3 & Etx).
  cbn [heap] in *.
  assert (exists v q0, q1 = v :: q0 /\ charCodeAt v (sourceOffset L1) = Some c)
    as (v & q0 & -> & Hc).
  { destruct q1 as [|v q0]; [unfold pend in Hp; cbn in Hp; rewrite drop_nil in Hp; discriminate|].
    exists v, q0. split; [reflexivity|].
    destruct (charCodeAt v (sourceOffset L1)) as [c'|] eqn:Hc.
    - rewrite (pend_char L1 (advance L1) v q0 c' Hc eq_refl) in Hp. congruence.
    - exfalso. destruct Hexit as [(r & L' & Ho & _)|(e & Ho & _)];
        destruct (exit_cases _ _ _ _ _ HI1 Ho ltac:(discriminate))
          as [(? & _)|(v' & q' & c' & ? & Hc' & _)]; simplify_eq. }
  cbn [hd] in Etx.
  destruct (flush_value _ _ _ _ _ HI1 Ht1 ltac:(congruence)) as (L' & Hf & Hlen).
  rewrite Etx in Hf, Hlen.
  rewrite (set_value_same_start _ _ _ Hty Hst) in Hf.
  assert (iteration v c L1 = IReturn (set_value (VStr text) t) L') as Hit.
  { unfold iteration.
    rewrite (terminates_branch v c L1 t1 Ht1) by congruence.
    unfold return_flush. rewrite Hf. reflexivity. }
  assert (next_loop 1 h se L1 = Ret (Some (set_value (VStr text) t)) L') as Ho'.
  { destruct (Inv_head _ _ _ _ HI1) as (l & nx & Hs & Hnd & _).
    cbn. rewrite Hs, Hnd. cbn. rewrite Hc, Hit. reflexivity. }
  exists {| heap := h; this := L' |}.
  split.
  { destruct Hexit as [(r & L2 & Ho & ->)|(e & Ho & _)]; congruence. }
  pose proof (exit_Inv _ _ _ _ _ _ HI1 Ho') as HI'.
  pose proof (flushToken_frame _ _ _ _ Hf) as (_ & _ & Eso & Eto & Etl & Etc & Etk).
  rewrite (Inv_pending _ _ _ HI'). cbn [this].
  split; [unfold pend in *; congruence|].
  split; [assumption|]. do 3 (split; [congruence|]).
  destruct Hst as (Eoff & _).
  split; [lia|].
  intros v' tok L2 t2 Hb Ht2. unfold branch in Hb. rewrite Etk in Hb.
  destruct (start_token_made _ _ _ _ _ Etk Hb Ht2) as (-> & _). lia.
Qed.

Lemma terminator_state_reachable : reachable terminator_state.
Proof.
  exists (this example_state_1), [example_chunk], [].
  split.
  - apply (session_append State_new [] [] example_chunk).
    + apply session_new.
    + reflexivity.
  - eapply rtc_l.
    { apply (round_char _ _ _ 0%nat (Node.mk example_chunk None) 97);
        reflexivity. }
    eapply rtc_l; [|apply rtc_refl].
    apply (round_char _ _ _ 0%nat (Node.mk example_chunk None) 98);
      reflexivity.
Defined.

Lemma terminator_not_consumed_witness :
  exists st',
    next false terminator_state
    = Returned (Some (set_value (VStr (token_text terminator_state
                                         terminator_token))
                        terminator_token)) st'
    /\ pending st' = 40 :: []
    /\ token (this st') = None
    /\ tokenOffset (this st') = tokenOffset (this terminator_state)
    /\ tokenLine (this st') = tokenLine (this terminator_state)
    /\ tokenColumn (this st') = tokenColumn (this terminator_state)
    /\ offset terminator_token
       + Z.of_nat (length (token_text terminator_state terminator_token))
       = tokenOffset (this st')
    /\ forall v tok L1 t2,
         branch v 40 (this st') = Fall tok L1 ->
         tok = Some t2 \/ token L1 = Some t2 ->
         offset t2
         = offset terminator_token
           + Z.of_nat (length (token_text terminator_state terminator_token)).
Proof.
  apply (terminator_not_consumed terminator_state terminator_token 40 [] false).
  - exact terminator_state_reachable.
  - reflexivity.
  - reflexivity.
  - reflexivity.
  - reflexivity.
Defined.

(** * Line tokens *)

Lemma linebreak_cases c :
  UC.is_linebreak c = true ->
  SINGLE_TOKENS c = None /\ (c =? UC.APOSTROPHE) = false
  /\ UC.is_decdigit c = false /\ is_symbol_character c = false
  /\ UC.is_whitespace c = true.
Proof.
  intros H.
  assert (UC.is_whitespace c = true) as Hw
    by (unfold UC.is_whitespace; rewrite H; apply orb_true_r).
  assert (is_symbol_character c = false) as Hs.
  { unfold is_symbol_character. rewrite Hw. cbn.
    rewrite andb_false_r. reflexivity. }
  assert (c = 10 \/ c = 11 \/ c = 12 \/ c = 13 \/ c = 0x85 \/ c = 0x2028
          \/ c = 0x2029) as Hc.
  { unfold UC.is_linebreak in H. classifier_cases H; lia. }
  repeat split; try assumption;
    decompose [or] Hc; subst; reflexivity.
Qed.

Lemma line_begins v c L :
  token L = None -> UC.is_linebreak c = true ->
  c = UC.LINE_FEED \/ sourceOffset L = 0 ->
  exists L',
    iteration v c L = IContinue L'
    /\ token L' = Some (makeToken LINE L)
    /\ tokenOffset L' = tokenOffset L + 1.
Proof.
  intros Htok Hl Hc.
  destruct (linebreak_cases c Hl) as (E1 & E2 & E3 & E4 & E5).
  unfold iteration, branch, start_token. rewrite Htok, E1.
  destruct (Z.eqb_spec c UC.LINE_FEED) as [->|Hne].
  - eexists. split; [reflexivity|]. split; reflexivity.
  - destruct Hc as [?|Hso]; [contradiction|].
    rewrite E2, E3, E4, E5, Hso. cbn.
    eexists. split; [reflexivity|]. split; reflexivity.
Qed.

Lemma line_goes_on v c L t :
  token L = Some t -> type t = LINE -> UC.is_space c = true ->
  iteration v c L = IContinue (advance L).
Proof.
  intros Htok Hty Hs. unfold iteration, branch, continue_token.
  rewrite Htok, Hty, Hs. reflexivity.
Qed.

Lemma line_flush src L t :
  token L = Some t -> type t = LINE ->
  flushToken src L
  = inr (set_value (VNum (tokenOffset L - offset t - 1)) t, set_token None L).
Proof. intros Htok Hty. unfold flushToken. rewrite Htok, Hty. reflexivity. Qed.

Lemma line_ends v c L t :
  token L = Some t -> type t = LINE -> UC.is_space c = false ->
  iteration v c L
  = IReturn (set_value (VNum (tokenOffset L - offset t - 1)) t)
      (set_token None L).
Proof.
  intros Htok Hty Hs. unfold iteration, branch, continue_token, return_flush.
  rewrite Htok, Hty, Hs. cbn. rewrite (line_flush _ _ _ Htok Hty). reflexivity.
Qed.

Lemma pend_nil L : pend L [] = [].
Proof. unfold pend. cbn. apply drop_nil. Qed.

Lemma drop_app_head {A} (k : nat) (l rest : list A) (x : A) (tl : list A) :
  (k <= length l)%nat -> drop k l ++ rest = x :: tl ->
  ((k < length l)%nat /\ l !! k = Some x /\ tl = drop (S k) l ++ rest)
  \/ (k = length l /\ rest = x :: tl).
Proof.
  intros Hk H. destruct (decide (k < length l)%nat) as [Hlt|Hge].
  - left. split; [assumption|].
    destruct (lookup_lt_is_Some_2 l k Hlt) as [y Hy].
    rewrite (drop_S _ _ _ Hy) in H. cbn in H. simplify_eq. auto.
  - right. assert (k = length l) by lia. subst k.
    rewrite drop_all in H. auto.
Qed.

(** The rounds of a call of [next] that read a Line token [tk]: either the
    token is still to begin, on the line break [c] that is the first pending
    codepoint, or it is in progress; [base] is the total offset after its
    first codepoint, or at the start of the call when the token is in
    progress then.  The spaces [spaces] are pending next, and no space
    follows them. *)
Lemma line_run h L q se tk base c spaces rest :
  Inv h L q ->
  type tk = LINE ->
  (token L = None /\ pend L q = c :: spaces ++ rest
   /\ tk = makeToken LINE L /\ base = tokenOffset L + 1
   /\ UC.is_linebreak c = true
   /\ (c = UC.LINE_FEED \/ sourceOffset L = 0
       \/ Z.of_nat (length (hd [] q)) <= sourceOffset L))
  \/ (token L = Some tk /\ pend L q = spaces ++ rest
      /\ base = tokenOffset L) ->
  Forall (fun x => UC.is_space x = true) spaces ->
  no_space_ahead rest ->
  exists L' q',
    Inv h L' q' /\ pend L' q' = rest
    /\ tokenOffset L' = base + Z.of_nat (length spaces)
    /\ if stays_open rest se
       then next_loop (fuel_of h) h se L = Ret None L' /\ token L' = Some tk
       else next_loop (fuel_of h) h se L
            = Ret (Some (set_value
                           (VNum (base + Z.of_nat (length spaces)
                                  - offset tk - 1)) tk)) L'
            /\ token L' = None.
Proof.
  intros HI Hty Hstart Hsp Hrest.
  set (P := fun (L1 : Lexer) (q1 : list (list Z)) =>
              (token L1 = None /\ pend L1 q1 = c :: spaces ++ rest
               /\ tk = makeToken LINE L1 /\ base = tokenOffset L1 + 1
               /\ UC.is_linebreak c = true
               /\ (c = UC.LINE_FEED \/ sourceOffset L1 = 0
                   \/ Z.of_nat (length (hd [] q1)) <= sourceOffset L1))
              \/ (exists k, (k <= length spaces)%nat
                    /\ token L1 = Some tk
                    /\ pend L1 q1 = drop k spaces ++ rest
                    /\ tokenOffset L1 = base + Z.of_nat k)).
  destruct (next_loop_run h se P) with (fuel := fuel_of h) (L := L) (q := q)
    as (L1 & q1 & HI1 & HP1 & _ & Hne & Hrun).
  { (* every round keeps P *)
    clear HI. intros La qa Lb qb HI HP Hr HIb.
    destruct (round_cases _ _ _ _ HI Hr)
      as (v & q0 & nx & l & -> & _ & _
          & [(c' & Hc & Hit & HI1 & Hp')|(Hc & Hce & HI1 & Hp' & Hso)]);
      pose proof (Inv_unique _ _ _ _ HIb HI1); subst qb.
    - destruct HP as [(Ht & Hp & Hm & Hb & Hlb & Hs)|(k & Hk & Ht & Hp & Ho)].
      + (* the line break is consumed *)
        assert (c' = c) by congruence. subst c'.
        destruct (line_begins v c La Ht Hlb) as (L' & Hit' & Ht' & Ho').
        { destruct Hs as [?|[?|Hs]]; [auto|auto|].
          cbn in Hs. apply charCodeAt_Some in Hc. lia. }
        assert (L' = Lb) by congruence. subst L'.
        right. exists 0%nat. split; [lia|].
        split; [congruence|].
        split; [rewrite drop_0; congruence|]. lia.
      + (* a space is consumed *)
        rewrite Hp' in Hp. symmetry in Hp.
        destruct (drop_app_head _ _ _ _ _ Hk Hp) as [(Hlt & Hx & Hd)|(-> & Hr')].
        * rewrite Forall_forall in Hsp.
          pose proof (Hsp c' (list_elem_of_lookup_2 _ _ _ Hx)) as Hspc.
          rewrite (line_goes_on v c' La tk Ht Hty Hspc) in Hit.
          simplify_eq. right. exists (S k). split; [lia|].
          split; [assumption|]. split; [assumption|]. cbn. lia.
        * exfalso. subst rest. cbn in Hrest.
          rewrite (line_ends v c' La tk Ht Hty Hrest) in Hit.
          discriminate.
    - pose proof (chunk_end_frame _ _ _ Hce) as (F1 & F2 & F3 & F4 & Htk).
      destruct HP as [(Ht & Hp & Hm & Hb & Hlb & Hs)|(k & Hk & Ht & Hp & Ho)].
      + left. rewrite Ht in Htk.
        split; [destruct (token Lb); [contradiction|reflexivity]|].
        split; [congruence|].
        split; [unfold makeToken in *; congruence|].
        split; [congruence|]. auto.
      + right. exists k. split; [assumption|].
        split.
        { unfold chunk_end in Hce.
          destruct HI as (_ & _ & HtokI). unfold token_ok in HtokI.
          rewrite Ht, Hty in HtokI. destruct HtokI as (_ & _ & [Hv _]).
          rewrite Hv in Hce. cbn in Hce. simplify_eq. cbn. assumption. }
        split; congruence. }
  { exact HI. }
  { destruct Hstart as [?|(Ht & Hp & Hb)]; [left; assumption|].
    right. exists 0%nat. rewrite drop_0. split; [lia|]. auto with lia. }
  { apply work_fuel. assumption. }
  rewrite Hrun.
  destruct (exit_cases _ _ _ _ _ HI1 eq_refl Hne)
    as [(-> & Hs & Hcase)|(v & q0 & c' & -> & Hc & Hcase)].
  - destruct HP1 as [(_ & Hp & _)|(k & Hk & Ht & Hp & Ho)];
      rewrite pend_nil in Hp; [discriminate|].
    symmetry in Hp. apply app_eq_nil in Hp as [Hd ->].
    assert (k = length spaces) as ->.
    { apply (f_equal length) in Hd. rewrite length_drop in Hd. cbn in Hd. lia. }
    destruct Hcase as [(-> & t0 & t' & L' & Ht0 & Hf & Ho')|([->|?] & Ho')];
      [| |congruence]; cbn [stays_open negb].
    + pose proof (line_flush None _ _ Ht Hty) as Hf'.
      rewrite Hf in Hf'. injection Hf' as -> ->.
      pose proof (exit_Inv _ _ _ _ _ _ HI1 Ho') as HI'.
      exists (set_token None L1), []. rewrite Ho', Ho.
      split; [exact HI'|].
      split; [apply pend_nil|]. split; [exact Ho|].
      split; reflexivity.
    + exists L1, []. split; [assumption|]. split; [apply pend_nil|].
      split; [assumption|]. split; assumption.
  - destruct HP1 as [(Ht & Hp & Hm & Hb & Hlb & Hs)|(k & Hk & Ht & Hp & Ho)].
    + exfalso.
      rewrite (pend_char L1 (advance L1) v q0 c' Hc eq_refl) in Hp.
      simplify_eq.
      destruct (line_begins v c L1 Ht Hlb) as (L' & Hit' & _).
      { destruct Hs as [?|[?|Hs]]; [auto|auto|].
        cbn in Hs. apply charCodeAt_Some in Hc. lia. }
      destruct Hcase as [(? & ? & ? & _)|(? & ? & _)]; congruence.
    + rewrite (pend_char L1 (advance L1) v q0 c' Hc eq_refl) in Hp.
      symmetry in Hp.
      destruct (drop_app_head _ _ _ _ _ Hk Hp) as [(Hlt & Hx & Hd)|(-> & Hr')].
      * exfalso. rewrite Forall_forall in Hsp.
        pose proof (Hsp c' (list_elem_of_lookup_2 _ _ _ Hx)) as Hspc.
        pose proof (line_goes_on v c' L1 tk Ht Hty Hspc).
        destruct Hcase as [(? & ? & ? & _)|(? & ? & _)]; congruence.
      * subst rest. cbn in Hrest. cbn [stays_open].
        pose proof (line_ends v c' L1 tk Ht Hty Hrest) as Hit.
        destruct Hcase as [(t' & L' & Hit' & Ho')|(? & ? & _)]; [|congruence].
        rewrite Hit in Hit'. injection Hit' as <- <-.
        pose proof (exit_Inv _ _ _ _ _ _ HI1 Ho') as HI'.
        exists (set_token None L1), (v :: q0). rewrite Ho', Ho.
        split; [exact HI'|].
        split.
        { rewrite <- (pend_char L1 (advance L1) v q0 c' Hc eq_refl).
          reflexivity. }
        split; [exact Ho|]. split; reflexivity.
Qed.

Lemma at_chunk_start_head h L q :
  Inv h L q -> at_chunk_start {| heap := h; this := L |} ->
  sourceOffset L = 0 \/ Z.of_nat (length (hd [] q)) <= sourceOffset L.
Proof.
  intros HI [?|(s & nd & Hs & Hnd & Hc)]; [auto|]. cbn [heap this] in *.
  right. destruct q as [|v q0].
  - apply Inv_nil in HI as [? _]. congruence.
  - destruct (Inv_head _ _ _ _ HI) as (l & nx & Hs' & Hnd' & _).
    simplify_eq. cbn in *.
    destruct HI as (_ & Hoff & _). cbn in Hoff.
    apply charCodeAt_None in Hc; lia.
Qed.

(** C5.  The value a Line token gets when flushed is the total offset then,
    less the offset of the token, less one.  For a line-break codepoint [c]
    that begins a Line token (LINE FEED anywhere, any other line break as
    the first codepoint of its chunk), followed by the space codepoints
    [spaces] and by no further space: [next] returns a Line token that
    begins at [c], whose value is the number of these spaces; or, when
    nothing follows the spaces and the end of the source is not signalled,
    returns null with the token in progress, and a later call, with more
    spaces pending, adds their number.  In particular a line break, three
    spaces and "abc" give a Line token of value 3 and then the symbol
    "abc". *)
Theorem line_token_value :
  (forall src L t,
      token L = Some t -> type t = LINE ->
      flushToken src L
      = inr (set_value (VNum (tokenOffset L - offset t - 1)) t,
             set_token None L))
  /\ (forall st c spaces rest se,
        reachable st ->
        token (this st) = None ->
        pending st = c :: spaces ++ rest ->
        UC.is_linebreak c = true ->
        c = UC.LINE_FEED \/ at_chunk_start st ->
        Forall (fun x => UC.is_space x = true) spaces ->
        no_space_ahead rest ->
        exists st',
          pending st' = rest
          /\ tokenOffset (this st')
             = tokenOffset (this st) + 1 + Z.of_nat (length spaces)
          /\ if stays_open rest se
             then next se st = Returned None st'
                  /\ token (this st') = Some (makeToken LINE (this st))
             else next se st
                  = Returned
                      (Some (mkToken LINE (VNum (Z.of_nat (length spaces)))
                               (tokenOffset (this st)) (tokenLine (this st))
                               (tokenColumn (this st)))) st'
                  /\ token (this st') = None)
  /\ (forall st t spaces rest se,
        reachable st ->
        token (this st) = Some t -> type t = LINE ->
        pending st = spaces ++ rest ->
        Forall (fun x => UC.is_space x = true) spaces ->
        no_space_ahead rest ->
        exists st',
          pending st' = rest
          /\ tokenOffset (this st')
             = tokenOffset (this st) + Z.of_nat (length spaces)
          /\ if stays_open rest se
             then next se st = Returned None st' /\ token (this st') = Some t
             else next se st
                  = Returned
                      (Some (set_value
                               (VNum (tokenOffset (this st) - offset t - 1
                                      + Z.of_nat (length spaces))) t)) st'
                  /\ token (this st') = None)
  /\ lex [LF ++ str "   abc"]
     = ([mkToken LINE (VNum 3) 0 0 0;
         mkToken SYMBOL (VStr (str "abc")) 4 1 3], Complete).
Proof.
  split; [exact line_flush|].
  split; [|split; [|vm_compute; reflexivity]].
  - intros st c spaces rest se Hreach Htok Hpend Hlb Hstart Hsp Hrest.
    destruct (reachable_Inv _ Hreach) as [q HI].
    destruct st as [h L]. cbn [heap this] in *.
    rewrite (Inv_pending _ _ _ HI) in Hpend.
    destruct (line_run h L q se (makeToken LINE L) (tokenOffset L + 1)
                c spaces rest HI eq_refl) as (L' & q' & HI' & Hp & Ho & Hres);
      [left|assumption|assumption|].
    { do 5 (split; [auto|]).
      destruct Hstart as [?|Hst]; [auto|right].
      eapply at_chunk_start_head; eassumption. }
    exists {| heap := h; this := L' |}.
    rewrite (Inv_pending _ _ _ HI'). cbn [this].
    split; [assumption|]. split; [assumption|].
    unfold next; cbn [heap this].
    destruct (stays_open rest se); destruct Hres as [-> Ht]; (split; [|exact Ht]).
    + reflexivity.
    + do 3 f_equal. unfold set_value, makeToken; cbn. do 2 f_equal. lia.
  - intros st t spaces rest se Hreach Htok Hty Hpend Hsp Hrest.
    destruct (reachable_Inv _ Hreach) as [q HI].
    destruct st as [h L]. cbn [heap this] in *.
    rewrite (Inv_pending _ _ _ HI) in Hpend.
    destruct (line_run h L q se t (tokenOffset L) 0 spaces rest HI Hty)
      as (L' & q' & HI' & Hp & Ho & Hres); [right; auto|assumption|assumption|].
    exists {| heap := h; this := L' |}.
    rewrite (Inv_pending _ _ _ HI'). cbn [this].
    split; [assumption|]. split; [assumption|].
    unfold next; cbn [heap this].
    destruct (stays_open rest se); destruct Hres as [-> Ht]; (split; [|exact Ht]).
    + reflexivity.
    + do 4 f_equal. lia.
Qed.

Lemma line_state_reachable : reachable line_state.
Proof.
  apply (session_reachable _ [LF ++ str "   abc"] []).
  apply (session_append State_new [] [] (LF ++ str "   abc")).
  - apply session_new.
  - reflexivity.
Defined.

Lemma line_token_value_witness :
  exists st',
    pending st' = [97; 98; 99]
    /\ tokenOffset (this st')
       = tokenOffset (this line_state) + 1 + Z.of_nat (length [32; 32; 32])
    /\ next true line_state
       = Returned (Some (mkToken LINE (VNum (Z.of_nat (length [32; 32; 32])))
                           (tokenOffset (this line_state))
                           (tokenLine (this line_state))
                           (tokenColumn (this line_state)))) st'
    /\ token (this st') = None.
Proof.
  apply (proj1 (proj2 line_token_value)
           line_state 10 [32; 32; 32] [97; 98; 99] true).
  - exact line_state_reachable.
  - reflexivity.
  - reflexivity.
  - reflexivity.
  - left. reflexivity.
  - repeat constructor.
  - reflexivity.
Defined.

(** * Resuming *)

(** The loop body neither reads nor writes the queue references. *)
Lemma flushToken_set_queue src s tl L :
  flushToken src (set_queue s tl L)
  = match flushToken src L with
    | inl e => inl e
    | inr (t, L') => inr (t, set_queue s tl L')
    end.
Proof.
  unfold flushToken. cbn.
  destruct (token L) as [t|]; [|reflexivity].
  destruct (type t); cbn; repeat case_match; reflexivity.
Qed.

Lemma iteration_set_queue v c s tl L :
  iteration v c (set_queue s tl L) = Iter_set_queue s tl (iteration v c L).
Proof.
  unfold iteration, branch. cbn [token set_queue].
  destruct (token L) as [t|].
  - unfold continue_token, keep_reading, return_flush, hex_prefix_check.
    rewrite flushToken_set_queue. cbn.
    destruct (flushToken (Some v) L) as [e|[t' L']];
      destruct (type t); cbn;
      repeat match goal with
      | |- context [if ?b then _ else _] => destruct b; cbn
      | |- context [match value t with _ => _ end] => destruct (value t); cbn
      end; reflexivity.
  - unfold start_token. cbn.
    destruct (SINGLE_TOKENS c); cbn; [reflexivity|].
    repeat match goal with
    | |- context [if ?b then _ else _] => destruct b; cbn
    end; reflexivity.
Qed.

Lemma chain_next_lt h l l' q tl :
  chain h (Some l) (Some l') q tl -> (l < l')%nat.
Proof.
  destruct q as [|v q]; cbn.
  - intros [? _]. discriminate.
  - intros (l0 & nx & ? & _ & Hlt & _). simplify_eq. exact Hlt.
Qed.

Lemma chunk_end_source nd L L' :
  chunk_end nd L = inr L' ->
  source L' = Node.next nd
  /\ sourceTail L' = match Node.next nd with
                     | None => None
                     | Some _ => sourceTail L
                     end.
Proof.
  unfold chunk_end. intros H.
  repeat case_match; simplify_eq; cbn; auto.
Qed.

Lemma round_source h L L' q :
  Inv h L q -> round h L L' ->
  forall s, source L = Some s ->
    match source L' with
    | Some s' => (s <= s')%nat /\ sourceTail L' = sourceTail L
    | None => True
    end.
Proof.
  intros HI Hr s Hs.
  destruct (round_cases _ _ _ _ HI Hr)
    as (v & q0 & nx & l & -> & Hl & Hnd
        & [(c & _ & Hit & _)|(_ & Hce & _)]).
  - apply iteration_continue_frame in Hit as (E1 & E2 & _).
    rewrite E1, Hs, E2. auto.
  - apply chunk_end_source in Hce as [E1 E2]. cbn in E1, E2.
    rewrite E1, E2.
    destruct nx as [l'|]; [|trivial].
    destruct (Inv_head _ _ _ _ HI) as (l0 & nx0 & Hl0 & Hnd0 & Hc).
    simplify_eq. apply chain_next_lt in Hc. split; [lia|reflexivity].
Qed.

Lemma round_needs_source h L L' : round h L L' -> is_Some (source L).
Proof. intros [s ? ? Hs|s ? Hs]; eauto. Qed.

Lemma rounds_from_empty h L L' :
  rtc (round h) L L' -> source L = None -> L' = L.
Proof.
  intros Hr Hs. destruct Hr as [|L L1 L2 Hr _]; [reflexivity|].
  apply round_needs_source in Hr as [? ?]. congruence.
Qed.

Lemma rounds_source h L L' q :
  Inv h L q -> rtc (round h) L L' ->
  forall s s', source L = Some s -> source L' = Some s' ->
    (s <= s')%nat /\ sourceTail L' = sourceTail L.
Proof.
  intros HI Hr. revert q HI.
  induction Hr as [L|L L1 L2 Hr Hrs IH]; intros q HI s s' Hs Hs'.
  - simplify_eq. auto.
  - pose proof (round_source _ _ _ _ HI Hr s Hs) as H1.
    destruct (round_Inv _ _ _ _ HI Hr) as (q1 & HI1 & _).
    destruct (source L1) as [s1|] eqn:Hs1.
    + destruct H1 as [Hle Htl].
      destruct (IH _ HI1 s1 s' eq_refl Hs') as [Hle' Htl'].
      split; [lia|congruence].
    + apply rounds_from_empty in Hrs; [|assumption]. congruence.
Qed.

(** ** Two heaps that hold the same nodes where the lexer looks *)

Lemma round_agree hA hB L L' :
  round hA L L' ->
  (forall s, source L = Some s -> hA !! s = hB !! s) ->
  round hB L L'.
Proof.
  intros [s nd c Hs Hnd Hc Hit|s nd Hs Hnd Hc Hce] Hag;
    rewrite (Hag _ Hs) in Hnd.
  - eapply round_char; eassumption.
  - eapply round_chunk; eassumption.
Qed.

Lemma next_loop_1_agree hA hB se L :
  (forall s, source L = Some s -> hA !! s = hB !! s) ->
  next_loop 1 hA se L = next_loop 1 hB se L.
Proof.
  intros Hag. cbn. destruct (source L) as [s|]; [|reflexivity].
  rewrite (Hag s eq_refl). reflexivity.
Qed.

Section Agree.

(** Two heaps that hold the same nodes at every address from [m] on. *)
Variables (hA hB : list Node.t) (m : nat).
Hypothesis agree : forall l, (m <= l)%nat -> hA !! l = hB !! l.

Lemma next_loop_agree se fuel L q :
  Inv hA L q ->
  (forall s, source L = Some s -> (m <= s)%nat) ->
  next_loop fuel hA se L = next_loop fuel hB se L.
Proof.
  revert L q.
  induction fuel as [|fuel IH]; intros L q HI Hm; [reflexivity|].
  assert (forall s, source L = Some s -> hA !! s = hB !! s) as Hs by auto.
  destruct (round_or_exit hA se L) as [[L' Hr]|Hex].
  - rewrite (next_loop_round _ _ _ _ _ Hr).
    rewrite (next_loop_round _ _ _ _ _ (round_agree _ _ _ _ Hr Hs)).
    destruct (round_Inv _ _ _ _ HI Hr) as (q' & HI' & _).
    apply (IH _ _ HI').
    intros s' Hs'. destruct (round_needs_source _ _ _ Hr) as [s0 Hs0].
    pose proof (round_source _ _ _ _ HI Hr s0 Hs0) as Hmono.
    rewrite Hs' in Hmono. specialize (Hm _ Hs0). lia.
  - rewrite (next_loop_exit hA) by assumption.
    rewrite (next_loop_1_agree hA hB) in Hex by assumption.
    rewrite (next_loop_exit hB) by assumption.
    symmetry. apply next_loop_1_agree.
    intros s Hs'. symmetry. auto.
Qed.

Lemma chain_agree prev p q tl :
  chain hA prev p q tl ->
  (forall s, p = Some s -> (m <= s)%nat) ->
  chain hB prev p q tl.
Proof.
  revert prev p.
  induction q as [|v q IH]; intros prev p Hc Hm; [exact Hc|].
  destruct Hc as (l & nx & -> & Hnd & Hlt & Hc).
  specialize (Hm l eq_refl).
  apply chain_cons with (nx := nx);
    [rewrite <- agree by lia; assumption|assumption|].
  apply IH; [assumption|].
  intros s ->. apply chain_next_lt in Hc. lia.
Qed.

Lemma Inv_agree L q :
  Inv hA L q ->
  (forall s, source L = Some s -> (m <= s)%nat) ->
  Inv hB L q.
Proof.
  intros (Hc & Ho & Ht) Hm. split; [|auto].
  apply chain_agree; assumption.
Qed.

End Agree.

(** ** Rounds on a queue to which a chunk has been appended *)

Lemma chunk_end_requeue nd nd2 s tl L L' :
  Node.value nd2 = Node.value nd ->
  chunk_end nd L = inr L' ->
  chunk_end nd2 (set_queue s tl L)
  = inr (set_queue (Node.next nd2)
           (match Node.next nd2 with None => None | Some _ => tl end) L').
Proof.
  unfold chunk_end. intros Hv H. cbn [tokenValueOffset token set_queue].
  rewrite Hv.
  destruct (negb (tokenValueOffset L =? -1)).
  - destruct (token L) as [t|]; [|discriminate]. simplify_eq. reflexivity.
  - simplify_eq. reflexivity.
Qed.

Lemma chain_tail_bound h prev l q tl t :
  chain h prev (Some l) q tl -> tl = Some t -> (l <= t)%nat.
Proof.
  intros Hc ->. destruct (chain_append _ _ _ _ _ [] Hc) as (t' & _ & ? & ? & _).
  simplify_eq. assumption.
Qed.

Section Relink.

(** The heap [h], whose node [t] is the tail of the queue, and the heap
    after [appendSource(c)]: a node for [c] at the end, the tail linked to
    it. *)
Variables (h : list Node.t) (t : nat) (ndt : Node.t) (c : list Z).
Hypothesis tail_node : h !! t = Some ndt.

Local Abbreviation relinked :=
  (<[t := Node.mk (Node.value ndt) (Some (length h))]>
     (h ++ [Node.mk c None])).

(** The source reference after a round, when the dropped node was the
    tail: the new node. *)
Local Abbreviation next_source L' :=
  (match source L' with None => Some (length h) | Some s' => Some s' end).

Lemma round_relink L L' q :
  Inv h L q -> sourceTail L = Some t ->
  round h L L' ->
  round relinked
    (set_queue (source L) (Some (length h)) L)
    (set_queue (next_source L') (Some (length h)) L').
Proof.
  intros HI Htl Hr.
  pose proof (lookup_lt_Some _ _ _ tail_node) as Ht.
  destruct (round_cases _ _ _ _ HI Hr)
    as (v & q0 & nx & l & -> & Hl & Hnd
        & [(c' & Hc & Hit & _)|(Hc & Hce & _)]).
  - (* a codepoint is consumed: only the value of the node matters *)
    pose proof (iteration_continue_frame _ _ _ _ Hit) as (Es & _).
    rewrite Es, Hl.
    assert (exists nx', relinked !! l = Some (Node.mk v nx')) as [nx' Hl'].
    { destruct (decide (t = l)) as [->|Hne].
      - simplify_eq. eexists.
        apply list_lookup_insert_eq. rewrite length_app. cbn. lia.
      - exists nx. rewrite list_lookup_insert_ne by assumption.
        rewrite lookup_app_l by (eapply lookup_lt_Some, Hnd). assumption. }
    apply (round_char _ _ _ l (Node.mk v nx') c');
      [reflexivity|exact Hl'|exact Hc|].
    cbn [Node.value]. rewrite iteration_set_queue, Hit. reflexivity.
  - (* the head chunk is dropped *)
    pose proof (chunk_end_source _ _ _ Hce) as [Es _]. cbn in Es.
    destruct (Inv_head _ _ _ _ HI) as (l0 & nx0 & Hl0 & Hnd0 & Hch).
    assert (l0 = l) by congruence. subst l0.
    assert (nx0 = nx) by congruence. subst nx0.
    rewrite Hl, Es.
    destruct nx as [l'|].
    + (* another chunk follows: the node is not the tail *)
      pose proof (chain_next_lt _ _ _ _ _ Hch) as Hlt.
      pose proof (chain_tail_bound _ _ _ _ _ _ Hch Htl) as Hle.
      apply (round_chunk _ _ _ l (Node.mk v (Some l')));
        [reflexivity| |exact Hc|].
      * rewrite list_lookup_insert_ne by lia.
        rewrite lookup_app_l by (eapply lookup_lt_Some, Hnd). exact Hnd.
      * rewrite (chunk_end_requeue _ _ _ _ _ _ eq_refl Hce). reflexivity.
    + (* the node is the tail, to which the new node is now linked *)
      assert (t = l) as Htl'.
      { destruct q0 as [|v' q']; [destruct Hch; congruence|].
        destruct Hch as (? & ? & ? & _). discriminate. }
      rewrite <- Htl' in *.
      assert (ndt = Node.mk v None) as Hndt by congruence.
      apply (round_chunk _ _ _ t (Node.mk v (Some (length h))));
        [reflexivity| |exact Hc|].
      * rewrite Hndt. cbn [Node.value].
        apply list_lookup_insert_eq. rewrite length_app. cbn. lia.
      * cbn [Node.value].
        rewrite (chunk_end_requeue (Node.mk v None)
                   (Node.mk v (Some (length h))) _ _ _ _ eq_refl Hce).
        reflexivity.
Qed.

Lemma rounds_relink L L' q :
  Inv h L q -> sourceTail L = Some t ->
  is_Some (source L) ->
  rtc (round h) L L' ->
  rtc (round relinked)
    (set_queue (source L) (Some (length h)) L)
    (set_queue (next_source L') (Some (length h)) L').
Proof.
  intros HI Htl Hsrc Hr. revert q HI Htl Hsrc.
  induction Hr as [L|L L1 L2 Hr Hrs IH]; intros q HI Htl [s Hs].
  - rewrite Hs. reflexivity.
  - pose proof (round_relink _ _ _ HI Htl Hr) as Hr'.
    eapply rtc_l; [exact Hr'|].
    destruct (round_Inv _ _ _ _ HI Hr) as (q1 & HI1 & _).
    pose proof (round_source _ _ _ _ HI Hr s Hs) as Hmono.
    destruct (source L1) as [s1|] eqn:Hs1.
    + destruct Hmono as [_ Htl1].
      apply (IH q1 HI1); [congruence|eauto].
    + apply rounds_from_empty in Hrs; [|assumption]. subst L2.
      rewrite Hs1. reflexivity.
Qed.

End Relink.

(** ** A state and a state ahead of it behave alike *)

Lemma appendSource_empty c h L :
  source L = None ->
  appendSource c {| heap := h; this := L |}
  = inr {| heap := h ++ [Node.mk c None];
           this := set_queue (Some (length h)) (Some (length h)) L |}.
Proof. intros Hs. unfold appendSource. cbn. rewrite Hs. reflexivity. Qed.

Lemma appendSource_linked c h L s t ndt :
  source L = Some s -> sourceTail L = Some t -> h !! t = Some ndt ->
  appendSource c {| heap := h; this := L |}
  = inr {| heap := <[t := Node.mk (Node.value ndt) (Some (length h))]>
                     (h ++ [Node.mk c None]);
           this := set_queue (Some s) (Some (length h)) L |}.
Proof.
  intros Hs Ht Hnd. unfold appendSource. cbn. rewrite Hs, Ht.
  rewrite lookup_app_l by (eapply lookup_lt_Some, Hnd). rewrite Hnd.
  reflexivity.
Qed.

Lemma Inv_tail h L q s :
  Inv h L q -> source L = Some s ->
  exists t ndt, sourceTail L = Some t /\ (s <= t)%nat /\ h !! t = Some ndt.
Proof.
  intros (Hc & _) Hs. rewrite Hs in Hc.
  destruct (chain_append _ _ _ _ _ [] Hc) as (t & ndt & ? & ? & ? & _).
  eauto.
Qed.

Lemma agree_snoc (hA hB : list Node.t) (m : nat) x :
  length hA = length hB ->
  (forall l, (m <= l)%nat -> hA !! l = hB !! l) ->
  forall l, (m <= l)%nat -> (hA ++ [x]) !! l = (hB ++ [x]) !! l.
Proof.
  intros Hlen Hag l Hl. destruct (decide (l < length hA)%nat).
  - rewrite !lookup_app_l by lia. auto.
  - rewrite !lookup_app_r by lia. rewrite Hlen. reflexivity.
Qed.

Lemma agree_insert (hA hB : list Node.t) (m t : nat) x :
  length hA = length hB ->
  (forall l, (m <= l)%nat -> hA !! l = hB !! l) ->
  forall l, (m <= l)%nat -> <[t := x]> hA !! l = <[t := x]> hB !! l.
Proof.
  intros Hlen Hag l Hl. rewrite !list_lookup_insert, Hlen.
  case_decide; auto.
Qed.

Lemma ahead_append a b c :
  ahead a b ->
  exists a' b',
    appendSource c a = inr a' /\ appendSource c b = inr b' /\ ahead a' b'.
Proof.
  intros ([qA HIA] & [qB HIB] & Hlen & Hr & m & Hag & Hm).
  destruct a as [hA LA], b as [hB LB]. cbn [heap this] in *.
  destruct (appendSource_Inv _ _ _ c HIA) as (hA' & sA & tlA & EA & HIA' & _).
  destruct (appendSource_Inv _ _ _ c HIB) as (hB' & sB & tlB & EB & HIB' & _).
  do 2 eexists. split; [exact EA|]. split; [exact EB|].
  split; [eauto|]. split; [eauto|]. cbn [heap this].
  destruct (source LA) as [s|] eqn:HsA.
  - (* the queue of [a] is not empty *)
    destruct (source LB) as [s0|] eqn:HsB;
      [|apply rounds_from_empty in Hr; [congruence|assumption]].
    destruct (rounds_source _ _ _ _ HIB Hr _ _ HsB HsA) as [Hle Htl].
    destruct (Inv_tail _ _ _ _ HIA HsA) as (t & ndt & HtA & Hst & Hnd).
    assert (hB !! t = Some ndt) as HndB.
    { rewrite <- Hag; [assumption|]. specialize (Hm _ eq_refl). lia. }
    assert (sourceTail LB = Some t) as HtB by congruence.
    rewrite (appendSource_linked c hA LA s t ndt HsA HtA Hnd) in EA.
    rewrite (appendSource_linked c hB LB s0 t ndt HsB HtB HndB) in EB.
    injection EA as <- <- <-. injection EB as <- <- <-.
    split; [rewrite !length_insert, !length_app; cbn; lia|].
    split.
    + pose proof (rounds_relink hB t ndt c HndB _ _ _ HIB HtB
                    ltac:(eauto) Hr) as Hr'.
      rewrite HsA, HsB in Hr'. rewrite Hlen. exact Hr'.
    + exists m. split.
      * rewrite Hlen. apply agree_insert; [rewrite !length_app; lia|].
        apply agree_snoc; assumption.
      * cbn. intros ? [= <-]. auto.
  - (* the queue of [a] is empty: it starts afresh *)
    rewrite (appendSource_empty c hA LA HsA) in EA.
    injection EA as <- <- <-.
    destruct (source LB) as [s0|] eqn:HsB.
    + destruct (Inv_tail _ _ _ _ HIB HsB) as (t & ndt & HtB & Hst & HndB).
      rewrite (appendSource_linked c hB LB s0 t ndt HsB HtB HndB) in EB.
      injection EB as <- <- <-.
      split; [rewrite !length_insert, !length_app; cbn; lia|].
      split.
      * pose proof (rounds_relink hB t ndt c HndB _ _ _ HIB HtB
                      ltac:(eauto) Hr) as Hr'.
        rewrite HsA, HsB in Hr'. rewrite Hlen. exact Hr'.
      * exists (length hA). split.
        -- intros l Hl. pose proof (lookup_lt_Some _ _ _ HndB).
           rewrite list_lookup_insert_ne by lia.
           apply (agree_snoc hA hB (length hA)); [assumption| |assumption].
           intros l' Hl'. rewrite !lookup_ge_None_2 by lia. reflexivity.
        -- cbn. intros ? [= <-]. lia.
    + apply rounds_from_empty in Hr; [|assumption]. subst LA.
      rewrite (appendSource_empty c hB LB HsB) in EB.
      injection EB as <- <- <-.
      split; [rewrite !length_app; cbn; lia|].
      split; [rewrite Hlen; reflexivity|].
      exists (length hA). split.
      * apply agree_snoc; [assumption|].
        intros l' Hl'. rewrite !lookup_ge_None_2 by lia. reflexivity.
      * cbn. intros ? [= <-]. lia.
Qed.

Lemma next_loop_rounds h se L L' q :
  Inv h L q -> rtc (round h) L L' ->
  next_loop (fuel_of h) h se L = next_loop (fuel_of h) h se L'.
Proof.
  intros HI Hr. revert q HI.
  induction Hr as [L|L L1 L2 Hr _ IH]; intros q HI; [reflexivity|].
  destruct (round_Inv _ _ _ _ HI Hr) as (q1 & HI1 & Hw).
  rewrite <- (IH _ HI1).
  rewrite (next_loop_fuel h se L q (fuel_of h) (S (fuel_of h)) HI);
    [|apply work_fuel; assumption
     |pose proof (work_fuel _ _ _ HI); lia].
  apply next_loop_round. assumption.
Qed.

Lemma exit_source h se L q r L' :
  Inv h L q -> next_loop 1 h se L = Ret r L' -> source L' = source L.
Proof.
  intros HI Ho.
  destruct (exit_cases _ _ _ _ _ HI Ho ltac:(discriminate))
    as [(-> & Hs & [(_ & t0 & t & L1 & Htok & Hf & ?)|(_ & ?)])
       |(v & q0 & c & -> & Hc & [(t & L1 & Hit & ?)|(e & _ & ?)])];
    simplify_eq; try reflexivity.
  - apply flushToken_frame in Hf. apply Hf.
  - unfold iteration in Hit. pose proof (branch_frame v c L) as Hb.
    destruct (branch v c L) as [[?|] ?|? ?|?]; simplify_eq; cbn; apply Hb.
Qed.

(** The outcome of the loop of [next], whatever the fuel above the work
    left, together with what it keeps. *)
Lemma next_loop_outcome h se (m : nat) L q :
  Inv h L q ->
  (forall s, source L = Some s -> (m <= s)%nat) ->
  exists L',
    ((exists r, next_loop (fuel_of h) h se L = Ret r L')
     \/ (exists e, next_loop (fuel_of h) h se L = Throw e L'))
    /\ (exists q', Inv h L' q')
    /\ (forall s, source L' = Some s -> (m <= s)%nat).
Proof.
  intros HI Hm.
  destruct (next_loop_run h se (fun L _ => forall s, source L = Some s -> (m <= s)%nat))
    with (fuel := fuel_of h) (L := L) (q := q)
    as (L1 & q1 & HI1 & HP1 & _ & Hne & Hrun).
  { intros La qa Lb qb HIa HPa Hr _ s Hs.
    destruct (round_needs_source _ _ _ Hr) as [s0 Hs0].
    pose proof (round_source _ _ _ _ HIa Hr s0 Hs0) as Hmono.
    rewrite Hs in Hmono. specialize (HPa _ Hs0). lia. }
  { assumption. }
  { assumption. }
  { apply work_fuel. assumption. }
  rewrite Hrun.
  destruct (next_loop 1 h se L1) as [r L'|e L'|] eqn:Ho; [| |congruence].
  - exists L'. split; [eauto|].
    split; [exists q1; eapply exit_Inv; eassumption|].
    rewrite (exit_source _ _ _ _ _ _ HI1 Ho). assumption.
  - pose proof (exit_throw _ _ _ _ _ _ HI1 Ho). subst L'.
    exists L1. split; [eauto|]. split; [eauto|]. assumption.
Qed.

Lemma ahead_next a b se :
  ahead a b ->
  exists a' b',
    ((exists r, next se a = Returned r a' /\ next se b = Returned r b')
     \/ (exists e, next se a = Thrown e a' /\ next se b = Thrown e b'))
    /\ ahead a' b'.
Proof.
  intros ([qA HIA] & [qB HIB] & Hlen & Hr & m & Hag & Hm).
  destruct a as [hA LA], b as [hB LB]. cbn [heap this] in *.
  assert (Inv hB LA qA) as HIBA by (eapply Inv_agree; eassumption).
  assert (next_loop (fuel_of hB) hB se LB = next_loop (fuel_of hA) hA se LA)
    as Hsame.
  { rewrite (next_loop_rounds _ se _ _ _ HIB Hr).
    rewrite (next_loop_fuel hB se LA qA (fuel_of hB) (fuel_of hA) HIBA);
      [|apply work_fuel; assumption
       |eapply work_fuel; eassumption].
    symmetry. eapply next_loop_agree; eassumption. }
  destruct (next_loop_outcome hA se m LA qA HIA Hm)
    as (L' & Hout & [q' HI'] & Hm').
  exists {| heap := hA; this := L' |}, {| heap := hB; this := L' |}.
  split.
  - unfold next; cbn [heap this]. rewrite Hsame.
    destruct Hout as [[r ->]|[e ->]]; [left|right]; eauto.
  - split; [eauto|]. cbn [heap this].
    split; [exists q'; eapply Inv_agree; eassumption|].
    split; [assumption|]. split; [reflexivity|]. eauto.
Qed.

Lemma ahead_run script : forall a b, ahead a b -> run script a = run script b.
Proof.
  induction script as [|[c|se] script IH]; intros a b Hab; [reflexivity| |].
  - destruct (ahead_append a b c Hab) as (a' & b' & Ea & Eb & Hab').
    cbn. rewrite Ea, Eb. auto.
  - destruct (ahead_next a b se Hab)
      as (a' & b' & [(r & Ea & Eb)|(e & Ea & Eb)] & Hab');
      cbn; rewrite Ea, Eb; f_equal; auto.
Qed.

(** What of resuming holds whatever the chunks are: when [next(false)]
    returns null, every queued codepoint has been taken into the state of
    the lexer and the queue is empty; calling [next(false)] again returns
    null and leaves the state as it is; and whatever the caller does from
    then on (appending chunks, calling [next]), it sees the same tokens,
    nulls and exceptions as it would had these calls not been made and the
    same chunks been queued all along. *)
Theorem next_null_is_resumable st chunks toks st' :
  session st chunks toks ->
  next false st = Returned None st' ->
  queue st' = [] /\ pending st' = []
  /\ next false st' = Returned None st'
  /\ forall script, run script st' = run script st.
Proof.
  intros Hs Hn. destruct (session_Inv _ _ _ Hs) as [q HI].
  destruct (next_run false st q (fun _ _ => True))
    as (L1 & q1 & HI1 & _ & Hr & [(r & L' & Ho & Hn')|(e & _ & Hn')]);
    [trivial|assumption|trivial| |congruence].
  rewrite Hn' in Hn. injection Hn as -> <-.
  destruct (exit_cases _ _ _ _ _ HI1 Ho ltac:(discriminate))
    as [(-> & Hsrc & [(? & _)|(_ & E)])
       |(v & q0 & c & -> & Hc & [(t & L2 & Hit & ?)|(e & _ & ?)])];
    try discriminate.
  injection E as ->.
  assert (ahead {| heap := heap st; this := L1 |} st) as Hahead.
  { split; [eauto|]. split; [eauto|]. split; [reflexivity|].
    split; [exact Hr|]. exists 0%nat. split; [reflexivity|]. intros; lia. }
  split; [apply (Inv_queue _ _ _ HI1)|].
  split; [rewrite (Inv_pending _ _ _ HI1); apply pend_nil|].
  split.
  - unfold next, fuel_of. cbn. rewrite Hsrc. reflexivity.
  - intros script. apply ahead_run. assumption.
Qed.

Lemma resume_session : session resume_state [str "ab"] [].
Proof.
  apply (session_append State_new [] [] (str "ab")).
  - apply session_new.
  - reflexivity.
Defined.

Lemma next_null_is_resumable_witness :
  next false resume_state = Returned None resume_state'
  /\ queue resume_state' = [] /\ pending resume_state' = []
  /\ next false resume_state' = Returned None resume_state'
  /\ forall script, run script resume_state' = run script resume_state.
Proof.
  assert (next false resume_state = Returned None resume_state') as Hn
    by (vm_compute; reflexivity).
  split; [exact Hn|].
  exact (next_null_is_resumable resume_state [str "ab"] [] resume_state'
           resume_session Hn).
Defined.

(** C7 (once enough input is appended, the token that [next(false)] could
    not complete is completed as if the input had been available all
    along), at an input where the code departs from it.  After the chunk
    "0", [next(false)] returns null, again and again, and keeps the Decimal
    number "0" in progress, its text copied into the token; when "x1" is
    appended, [next] raises a ReferenceError on the "x", with and without
    the end of the source signalled, and the token is never completed.
    Had "0x1" been available all along, the token would be the HexNumber
    "0x1". *)
Theorem resumed_hex_prefix_raises :
  (exists st1 st2 st3,
     appendSource (str "0") State_new = inr st1
     /\ next false st1 = Returned None st2
     /\ token (this st2)
        = Some (mkToken DECIMAL_NUMBER (VStr (str "0")) 0 0 0)
     /\ queue st2 = [] /\ pending st2 = []
     /\ next false st2 = Returned None st2
     /\ appendSource (str "x1") st2 = inr st3
     /\ pending st3 = str "x1"
     /\ forall se, next se st3 = Thrown (ReferenceError "DIGIT_ZERO") st3)
  /\ lex [str "0x1"]
     = ([mkToken HEX_NUMBER (VStr (str "0x1")) 0 0 0], Complete).
Proof.
  split; [|vm_compute; reflexivity].
  eexists _, _, _.
  split; [vm_compute; reflexivity|].
  split; [vm_compute; reflexivity|].
  repeat (split; [vm_compute; reflexivity|]).
  intros [|]; vm_compute; reflexivity.
Qed.

(** * The representation of a codepoint *)

Lemma hex_digit_value_digit d :
  0 <= d < 16 -> hex_digit_value (UC.hex_digit d) = Some d.
Proof.
  intros Hd. unfold UC.hex_digit, hex_digit_value.
  destruct (Z.ltb_spec d 10).
  - replace ((48 <=? 48 + d) && (48 + d <=? 57)) with true
      by (symmetry; apply andb_true_iff; split; apply Z.leb_le; lia).
    f_equal. lia.
  - replace ((48 <=? 97 + (d - 10)) && (97 + (d - 10) <=? 57)) with false
      by (symmetry; apply andb_false_iff; right; apply Z.leb_gt; lia).
    replace ((97 <=? 97 + (d - 10)) && (97 + (d - 10) <=? 102)) with true
      by (symmetry; apply andb_true_iff; split; apply Z.leb_le; lia).
    f_equal. lia.
Qed.

Lemma parse_hex_app s1 s2 acc :
  parse_hex (s1 ++ s2) acc = parse_hex s1 acc ≫= parse_hex s2.
Proof.
  revert acc. induction s1 as [|d s1 IH]; intros acc; cbn; [reflexivity|].
  destruct (hex_digit_value d); [apply IH|reflexivity].
Qed.

(** The digits [hex_digits] puts before [acc]: as many as the number has in
    base 16, and they write the number. *)
Lemma hex_digits_spec fuel n acc :
  (0 < fuel)%nat -> 0 <= n < 16 ^ Z.of_nat fuel ->
  exists ds,
    UC.hex_digits fuel n acc = ds ++ acc
    /\ (0 < length ds)%nat
    /\ n < 16 ^ Z.of_nat (length ds)
    /\ (length ds = 1%nat \/ 16 ^ (Z.of_nat (length ds) - 1) <= n)
    /\ forall a, parse_hex ds a = Some (a * 16 ^ Z.of_nat (length ds) + n).
Proof.
  revert n acc. induction fuel as [|fuel IH]; intros n acc Hf Hn; [lia|].
  cbn [UC.hex_digits]. destruct (Z.ltb_spec n 16) as [Hlt|Hge].
  - exists [UC.hex_digit (n mod 16)]. cbn [length app].
    split; [reflexivity|]. split; [lia|]. split; [cbn; lia|].
    split; [auto|]. intros a. cbn [parse_hex].
    rewrite hex_digit_value_digit by (apply Z.mod_pos_bound; lia).
    rewrite Z.mod_small by lia. f_equal. cbn. lia.
  - assert (0 <= n / 16 < 16 ^ Z.of_nat fuel) as Hn'.
    { split; [apply Z.div_pos; lia|].
      apply Z.div_lt_upper_bound; [lia|].
      rewrite Nat2Z.inj_succ, Z.pow_succ_r in Hn by lia. lia. }
    assert (0 < fuel)%nat as Hf'.
    { destruct fuel; [|lia]. cbn in Hn'.
      pose proof (Z.div_le_lower_bound n 16 1 ltac:(lia) ltac:(lia)). lia. }
    destruct (IH _ (UC.hex_digit (n mod 16) :: acc) Hf' Hn')
      as (ds & E & Hpos & Hub & Hlb & Hp).
    exists (ds ++ [UC.hex_digit (n mod 16)]).
    rewrite <- (assoc_L (++)). split; [exact E|].
    rewrite length_app. cbn [length].
    replace (Z.of_nat (length ds + 1)) with (Z.succ (Z.of_nat (length ds)))
      by lia.
    rewrite Z.pow_succ_r by lia.
    pose proof (Z.div_mod n 16 ltac:(lia)) as Hdm.
    pose proof (Z.mod_pos_bound n 16 ltac:(lia)) as Hmod.
    split; [lia|]. split; [lia|]. split.
    + right. replace (Z.succ (Z.of_nat (length ds)) - 1)
        with (Z.succ (Z.of_nat (length ds) - 1)) by lia.
      rewrite Z.pow_succ_r by lia.
      destruct Hlb as [E1|Hlb]; [rewrite E1; cbn; lia|lia].
    + intros a. rewrite parse_hex_app, Hp. cbn.
      rewrite hex_digit_value_digit by assumption. f_equal. lia.
Qed.

Lemma toString16_spec c :
  0 <= c ->
  exists ds,
    UC.toString16 c = ds
    /\ (0 < length ds)%nat
    /\ c < 16 ^ Z.of_nat (length ds)
    /\ (length ds = 1%nat \/ 16 ^ (Z.of_nat (length ds) - 1) <= c)
    /\ forall a, parse_hex ds a = Some (a * 16 ^ Z.of_nat (length ds) + c).
Proof.
  intros Hc. unfold UC.toString16.
  destruct (Z.ltb_spec c 0); [lia|].
  destruct (hex_digits_spec (S (Z.to_nat (Z.log2 c))) c []) as (ds & E & Hds).
  { lia. }
  { split; [assumption|].
    rewrite Nat2Z.inj_succ, Z2Nat.id by apply Z.log2_nonneg.
    destruct (decide (c = 0)) as [->|Hne]; [cbn; lia|].
    pose proof (Z.log2_spec c ltac:(lia)) as [_ Hlt].
    eapply Z.lt_le_trans; [exact Hlt|].
    apply Z.pow_le_mono_l. lia. }
  rewrite app_nil_r in E. exists ds. split; [exact E|exact Hds].
Qed.

(** X1.  [repr] and back: the text begins with "U+", and what follows is the
    codepoint in base 16, in lower case digits. *)
Theorem repr_round_trip c :
  0 <= c ->
  take 2 (UC.repr c) = str "U+"
  /\ parse_hex (drop 2 (UC.repr c)) 0 = Some c.
Proof.
  intros Hc. split; [reflexivity|].
  destruct (toString16_spec c Hc) as (ds & E & _ & _ & _ & Hp).
  unfold UC.repr. rewrite E. cbn [app drop].
  rewrite drop_0, parse_hex_app.
  assert (forall z, z = [] \/ z = [48] \/ z = [48; 48] \/ z = [48; 48; 48] ->
                    parse_hex z 0 = Some 0) as Hz.
  { intros z [->|[->|[->| ->]]]; reflexivity. }
  rewrite Hz by (repeat case_match; auto).
  cbn. rewrite Hp. f_equal; lia.
Qed.

Lemma repr_round_trip_witness :
  take 2 (UC.repr 0xAB) = str "U+"
  /\ parse_hex (drop 2 (UC.repr 0xAB)) 0 = Some 0xAB.
Proof. apply (repr_round_trip 0xAB). lia. Defined.

Lemma pow16_le (a b : Z) : 0 <= a <= b -> 16 ^ a <= 16 ^ b.
Proof. intros H. apply Z.pow_le_mono_r; lia. Qed.

(** X2.  The codepoints of one UTF-16 code unit are written with exactly four
    digits; larger numbers with as many digits as they have, never cut. *)
Theorem repr_width c :
  0 <= c ->
  (c <= 0xFFFF -> length (UC.repr c) = 6%nat)
  /\ (0xFFFF < c -> (6 < length (UC.repr c))%nat).
Proof.
  intros Hc.
  destruct (toString16_spec c Hc) as (ds & E & Hpos & Hub & Hlb & _).
  unfold UC.repr. rewrite E.
  assert (forall k : Z, 1 <= k < Z.of_nat (length ds) -> 16 ^ k <= c) as Hlow.
  { intros k Hk. destruct Hlb as [E1|Hlb]; [lia|].
    etransitivity; [|exact Hlb]. apply pow16_le. lia. }
  assert (forall k : Z, Z.of_nat (length ds) <= k -> c < 16 ^ k) as Hup.
  { intros k Hk. eapply Z.lt_le_trans; [exact Hub|]. apply pow16_le. lia. }
  split; intros Hr.
  - destruct (Z.ltb_spec 0xfff c); [|destruct (Z.ltb_spec 0xff c);
      [|destruct (Z.ltb_spec 0xf c)]]; cbn [app length]; f_equal.
    + assert (length ds = 4%nat); [|lia].
      destruct (decide (length ds <= 3)%nat);
        [pose proof (Hup 3 ltac:(lia)) as Hb; cbn in Hb; lia|].
      destruct (decide (5 <= length ds)%nat);
        [pose proof (Hlow 4 ltac:(lia)) as Hb; cbn in Hb; lia|]. lia.
    + assert (length ds = 3%nat); [|lia].
      destruct (decide (length ds <= 2)%nat);
        [pose proof (Hup 2 ltac:(lia)) as Hb; cbn in Hb; lia|].
      destruct (decide (4 <= length ds)%nat);
        [pose proof (Hlow 3 ltac:(lia)) as Hb; cbn in Hb; lia|]. lia.
    + assert (length ds = 2%nat); [|lia].
      destruct (decide (length ds <= 1)%nat);
        [pose proof (Hup 1 ltac:(lia)) as Hb; cbn in Hb; lia|].
      destruct (decide (3 <= length ds)%nat);
        [pose proof (Hlow 2 ltac:(lia)) as Hb; cbn in Hb; lia|]. lia.
    + assert (length ds = 1%nat); [|lia].
      destruct (decide (2 <= length ds)%nat);
        [pose proof (Hlow 1 ltac:(lia)) as Hb; cbn in Hb; lia|]. lia.
  - destruct (Z.ltb_spec 0xfff c); [|lia]. cbn [app length].
    destruct (decide (length ds <= 4)%nat);
      [pose proof (Hup 4 ltac:(lia)) as Hb; cbn in Hb; lia|]. lia.
Qed.

Lemma repr_width_witness :
  (0x263A <= 0xFFFF -> length (UC.repr 0x263A) = 6%nat)
  /\ (0xFFFF < 0x263A -> (6 < length (UC.repr 0x263A))%nat).
Proof. apply (repr_width 0x263A). lia. Defined.

(** * The classes of codepoints *)

(** Case analysis on every comparison of the goal, the impossible cases
    dropped. *)
Ltac compare_cases :=
  repeat match goal with
  | |- context [?a =? ?b] =>
      destruct (Z.eqb_spec a b); try (exfalso; lia)
  | |- context [?a <? ?b] =>
      destruct (Z.ltb_spec a b); try (exfalso; lia)
  end.

Lemma start_token_raises c L :
  (exists e, start_token c L = Raise e)
  <-> (c < 0x09 \/ 0x0E <= c < 0x20 \/ c = 0x5C \/ 0x7F <= c < 0x85
       \/ 0x85 < c < 0xA0).
Proof.
  unfold start_token, SINGLE_TOKENS, is_symbol_character, UC.is_whitespace,
    UC.is_space, UC.is_linebreak, UC.is_decdigit, SINGLE_TOKENS,
    UC.LINE_FEED, UC.APOSTROPHE, UC.REVERSE_SOLIDUS.
  split.
  - intros [e H]. revert H. compare_cases; cbn; try discriminate; intros _; lia.
  - intros H. compare_cases; cbn; eauto.
Qed.

(** X3.  Where no token is being read, the loop body raises nothing but the
    unexpected character, and raises it on exactly the codepoints that
    neither are whitespace, nor begin a token: the controls below
    CHARACTER TABULATION, from SHIFT OUT to below SPACE, and from DELETE to
    below NO-BREAK SPACE except NEXT LINE, and the reverse solidus. *)
Theorem unexpected_characters v c L :
  token L = None ->
  (forall e, iteration v c L = IThrow e -> e = UnexpectedCharacter c)
  /\ (iteration v c L = IThrow (UnexpectedCharacter c)
      <-> (c < 0x09 \/ 0x0E <= c < 0x20 \/ c = 0x5C \/ 0x7F <= c < 0x85
           \/ 0x85 < c < 0xA0)).
Proof.
  intros Htok.
  assert (forall e, iteration v c L = IThrow e <-> start_token c L = Raise e)
    as Hit.
  { intros e. unfold iteration, branch. rewrite Htok.
    destruct (start_token c L) as [[?|] ?|? ?|?]; split; congruence. }
  assert (forall e, start_token c L = Raise e -> e = UnexpectedCharacter c)
    as Hone.
  { intros e. unfold start_token. repeat case_match; congruence. }
  split.
  - intros e He. apply Hone, Hit, He.
  - rewrite Hit, <- start_token_raises. split; [eauto|].
    intros [e He]. rewrite He. f_equal. auto.
Qed.

Lemma unexpected_characters_witness :
  (forall e, iteration [] 0x5C Lexer_new = IThrow e
             -> e = UnexpectedCharacter 0x5C)
  /\ (iteration [] 0x5C Lexer_new = IThrow (UnexpectedCharacter 0x5C)
      <-> (0x5C < 0x09 \/ 0x0E <= 0x5C < 0x20 \/ 0x5C = 0x5C
           \/ 0x7F <= 0x5C < 0x85 \/ 0x85 < 0x5C < 0xA0)).
Proof. apply (unexpected_characters [] 0x5C Lexer_new). reflexivity. Defined.

(** * Symbol characters and the tables of tokens *)

Lemma hexdigit_symbol c :
  UC.is_hexdigit c = true -> is_symbol_character c = true.
Proof.
  intros H. unfold UC.is_hexdigit in H. classifier_cases H;
    unfold is_symbol_character, UC.is_whitespace, UC.is_space,
      UC.is_linebreak, SINGLE_TOKENS, UC.REVERSE_SOLIDUS;
    compare_cases; reflexivity.
Qed.

Lemma decdigit_hexdigit c :
  UC.is_decdigit c = true -> UC.is_hexdigit c = true.
Proof.
  unfold UC.is_decdigit, UC.is_hexdigit. intros ->. reflexivity.
Qed.

Lemma decdigit_start c :
  UC.is_decdigit c = true ->
  SINGLE_TOKENS c = None /\ (c =? UC.LINE_FEED) = false
  /\ (c =? UC.APOSTROPHE) = false.
Proof.
  intros H. unfold UC.is_decdigit in H. classifier_cases H.
  unfold SINGLE_TOKENS, UC.LINE_FEED, UC.APOSTROPHE.
  compare_cases. auto.
Qed.

(** X4.  The codepoints of number literals, the full stop apart, are symbol
    characters: a decimal digit begins a number where no token is read,
    and continues a symbol that is being read. *)
Theorem number_characters_in_symbols v c L :
  (is_fraction_character c = true \/ UC.is_hexdigit c = true
   \/ c = UC.SMALL_LETTER_X ->
   c = UC.FULL_STOP \/ is_symbol_character c = true)
  /\ is_symbol_character UC.FULL_STOP = false
  /\ (UC.is_decdigit c = true ->
      (token L = None ->
       branch v c L
       = Fall None (set_tokenValueOffset (sourceOffset L)
                      (set_token (Some (makeToken DECIMAL_NUMBER L)) L)))
      /\ (forall t, token L = Some t -> type t = SYMBOL ->
            branch v c L = keep_reading c t L)).
Proof.
  split; [|split; [reflexivity|]].
  - intros [H|[H|H]].
    + unfold is_fraction_character in H.
      apply orb_true_iff in H as [H|H];
        [|right; apply hexdigit_symbol, decdigit_hexdigit, H].
      classifier_cases H; subst; auto.
    + right. apply hexdigit_symbol, H.
    + subst. auto.
  - intros Hd.
    pose proof (hexdigit_symbol _ (decdigit_hexdigit _ Hd)) as Hs.
    destruct (decdigit_start _ Hd) as (E1 & E2 & E3).
    split.
    + intros Htok. unfold branch, start_token.
      rewrite Htok, E1, E2, E3, Hd. reflexivity.
    + intros t Htok Hty. unfold branch, continue_token.
      rewrite Htok, Hty, Hs. reflexivity.
Qed.

(** * The definition of the tokens *)

Lemma deftoks_snoc defs d R :
  Deftok.deftoks (defs ++ [d]) R
  = snd (Deftok.deftok (fst d) (snd d) (Deftok.deftoks defs R)).
Proof. unfold Deftok.deftoks. rewrite fold_left_app. reflexivity. Qed.

Lemma deftok_fields name sc R :
  let R' := snd (Deftok.deftok name sc R) in
  fst (Deftok.deftok name sc R) = Deftok.next_tok_id R
  /\ Deftok.next_tok_id R' = Deftok.next_tok_id R + 1
  /\ Deftok.Lexer_ids R' = <[name := Deftok.next_tok_id R]> (Deftok.Lexer_ids R)
  /\ Deftok.TOKEN_NAMES R'
     = <[Deftok.next_tok_id R := name]> (Deftok.TOKEN_NAMES R)
  /\ Deftok.SINGLE_TOKENS R'
     = match sc with
       | Some (c :: _) => <[c := Deftok.next_tok_id R]> (Deftok.SINGLE_TOKENS R)
       | _ => Deftok.SINGLE_TOKENS R
       end.
Proof. unfold Deftok.deftok. destruct sc as [[|c s]|]; cbn; auto. Qed.

(** The tables after any definitions, by induction on the definitions. *)
Lemma deftoks_invariant defs :
  Deftok.next_tok_id (Deftok.deftoks defs Deftok.Registry_new)
  = Z.of_nat (length defs)
  /\ (forall id name,
        Deftok.TOKEN_NAMES (Deftok.deftoks defs Deftok.Registry_new)
          !! id = Some name
        <-> 0 <= id /\ fst <$> defs !! Z.to_nat id = Some name)
  /\ (forall name id,
        Deftok.Lexer_ids (Deftok.deftoks defs Deftok.Registry_new)
          !! name = Some id ->
        Deftok.TOKEN_NAMES (Deftok.deftoks defs Deftok.Registry_new)
          !! id = Some name)
  /\ (forall c id,
        Deftok.SINGLE_TOKENS (Deftok.deftoks defs Deftok.Registry_new)
          !! c = Some id ->
        0 <= id
        /\ (exists name s,
              defs !! Z.to_nat id = Some (name, Some (c :: s)))
        /\ forall i name s,
             defs !! i = Some (name, Some (c :: s)) ->
             Z.of_nat i <= id).
Proof.
  induction defs as [|[name sc] defs (IH1 & IH2 & IH3 & IH4)] using rev_ind.
  - cbn. split; [reflexivity|]. split.
    + intros id name. rewrite lookup_empty, lookup_nil. cbn.
      split; [discriminate|intros [_ ?]; discriminate].
    + split; intros ? ?; rewrite lookup_empty; discriminate.
  - rewrite deftoks_snoc. cbn [fst snd].
    destruct (deftok_fields name sc
                (Deftok.deftoks defs Deftok.Registry_new))
      as (_ & E1 & E2 & E3 & E4).
    set (R := Deftok.deftoks defs Deftok.Registry_new) in *.
    set (R' := snd (Deftok.deftok name sc R)) in *.
    rewrite E1, E2, E3, E4, IH1, length_app. cbn [length].
    assert (forall id name',
              <[Z.of_nat (length defs) := name]> (Deftok.TOKEN_NAMES R)
                !! id = Some name'
              <-> 0 <= id
                  /\ fst <$> (defs ++ [(name, sc)]) !! Z.to_nat id
                     = Some name') as Hnames.
    { intros id name'. rewrite lookup_insert.
      destruct (decide (Z.of_nat (length defs) = id)) as [<-|Hne].
      - rewrite Nat2Z.id, lookup_app_r, Nat.sub_diag by lia. cbn.
        split; [intros ?; split; [lia|assumption]|tauto].
      - rewrite IH2. split; intros [Hid Hl]; (split; [assumption|]).
        + destruct (defs !! Z.to_nat id) as [d|] eqn:Hd; [|discriminate].
          rewrite (lookup_app_l_Some _ _ _ _ Hd). exact Hl.
        + destruct (decide (Z.to_nat id < length defs)%nat).
          * rewrite lookup_app_l in Hl by assumption. exact Hl.
          * rewrite lookup_app_r in Hl by lia.
            destruct (Z.to_nat id - length defs)%nat eqn:E; [lia|].
            discriminate. }
    split; [lia|]. split; [exact Hnames|]. split.
    + intros name' id. rewrite lookup_insert.
      destruct (decide (name = name')) as [<-|Hne].
      * intros [= <-]. rewrite lookup_insert.
        rewrite decide_True by reflexivity. reflexivity.
      * intros Hl. pose proof (IH3 _ _ Hl) as Hn.
        rewrite lookup_insert.
        destruct (decide (Z.of_nat (length defs) = id)) as [<-|Hne'];
          [|assumption].
        apply IH2 in Hn as [_ Hn]. rewrite Nat2Z.id in Hn.
        rewrite lookup_ge_None_2 in Hn by lia. discriminate.
    + assert (forall c id,
                Deftok.SINGLE_TOKENS R !! c = Some id ->
                0 <= id
                /\ (exists name0 s,
                      (defs ++ [(name, sc)]) !! Z.to_nat id
                      = Some (name0, Some (c :: s)))
                /\ id < Z.of_nat (length defs)) as Hold.
      { intros c id Hl. destruct (IH4 _ _ Hl) as (Hid & (n0 & s & Hd) & _).
        split; [assumption|]. split.
        - exists n0, s. apply lookup_app_l_Some. assumption.
        - apply lookup_lt_Some in Hd. lia. }
      assert (forall c id,
                Deftok.SINGLE_TOKENS R !! c = Some id ->
                (forall s, sc <> Some (c :: s)) ->
                forall i name0 s,
                  (defs ++ [(name, sc)]) !! i = Some (name0, Some (c :: s)) ->
                  Z.of_nat i <= id) as Hlast.
      { intros c id Hl Hsc i n0 s Hi.
        destruct (decide (i < length defs)%nat).
        - rewrite lookup_app_l in Hi by assumption.
          destruct (IH4 _ _ Hl) as (_ & _ & Hmax). eauto.
        - rewrite lookup_app_r in Hi by lia.
          destruct (i - length defs)%nat; [|discriminate].
          cbn in Hi. exfalso. apply (Hsc s). congruence. }
      intros c id.
      destruct sc as [[|c0 s0]|].
      * intros Hl. destruct (Hold _ _ Hl) as (? & ? & ?).
        split; [assumption|]. split; [assumption|].
        apply Hlast; [assumption|congruence].
      * rewrite lookup_insert.
        destruct (decide (c0 = c)) as [->|Hne].
        -- intros [= <-]. split; [lia|]. split.
           ++ exists name, s0.
              rewrite Nat2Z.id, lookup_app_r, Nat.sub_diag by lia.
              reflexivity.
           ++ intros i n0 s Hi. apply lookup_lt_Some in Hi.
              rewrite length_app in Hi. cbn in Hi. lia.
        -- intros Hl. destruct (Hold _ _ Hl) as (? & ? & ?).
           split; [assumption|]. split; [assumption|].
           apply Hlast; [assumption|congruence].
      * intros Hl. destruct (Hold _ _ Hl) as (? & ? & ?).
        split; [assumption|]. split; [assumption|].
        apply Hlast; [assumption|congruence].
Qed.

(** X5.  Whatever tokens are defined, under names that are not the name of a
    property that [Lexer] has already: the identifiers are handed out in
    order from 0; [TOKEN_NAMES] maps the identifier of each definition to
    its name, and nothing else; the identifier that [deftok] has stored
    under [Lexer[name]] is one that [TOKEN_NAMES] maps back to [name]; an
    entry of [SINGLE_TOKENS] under [c] holds the identifier of a definition
    whose character is [c], the last such definition; and it holds 0,
    which the test [if ((token = SINGLE_TOKENS[c]))] of [next] takes for a
    missing entry, only when the first definition has a character. *)
Theorem deftok_tables defs :
  Forall (fun d => Deftok.fresh_name (fst d)) defs ->
  let R := Deftok.deftoks defs Deftok.Registry_new in
  Deftok.next_tok_id R = Z.of_nat (length defs)
  /\ (forall id name,
        Deftok.TOKEN_NAMES R !! id = Some name
        <-> 0 <= id /\ fst <$> defs !! Z.to_nat id = Some name)
  /\ (forall name id,
        Deftok.Lexer_ids R !! name = Some id ->
        Deftok.TOKEN_NAMES R !! id = Some name)
  /\ (forall c id,
        Deftok.SINGLE_TOKENS R !! c = Some id ->
        0 <= id
        /\ (exists name s, defs !! Z.to_nat id = Some (name, Some (c :: s)))
        /\ forall i name s,
             defs !! i = Some (name, Some (c :: s)) -> Z.of_nat i <= id)
  /\ (forall c, Deftok.SINGLE_TOKENS R !! c = Some 0 ->
        exists name s, head defs = Some (name, Some (c :: s))).
Proof.
  intros _. cbn zeta.
  destruct (deftoks_invariant defs) as (H1 & H2 & H3 & H4).
  split; [assumption|]. split; [assumption|]. split; [assumption|].
  split; [assumption|].
  intros c Hl. destruct (H4 _ _ Hl) as (_ & (name & s & Hd) & _).
  exists name, s. rewrite head_lookup. exact Hd.
Qed.

(** The names of the module are not names of properties of [Lexer]. *)
Lemma definitions_fresh :
  Forall (fun d => Deftok.fresh_name (fst d)) Deftok.definitions.
Proof.
  unfold Deftok.fresh_name. apply (bool_decide_unpack _). vm_compute.
  exact I.
Qed.

Lemma deftok_tables_witness :
  let R := Deftok.deftoks Deftok.definitions Deftok.Registry_new in
  Deftok.next_tok_id R = Z.of_nat (length Deftok.definitions)
  /\ (forall id name,
        Deftok.TOKEN_NAMES R !! id = Some name
        <-> 0 <= id /\ fst <$> Deftok.definitions !! Z.to_nat id = Some name)
  /\ (forall name id,
        Deftok.Lexer_ids R !! name = Some id ->
        Deftok.TOKEN_NAMES R !! id = Some name)
  /\ (forall c id,
        Deftok.SINGLE_TOKENS R !! c = Some id ->
        0 <= id
        /\ (exists name s,
              Deftok.definitions !! Z.to_nat id = Some (name, Some (c :: s)))
        /\ forall i name s,
             Deftok.definitions !! i = Some (name, Some (c :: s)) ->
             Z.of_nat i <= id)
  /\ (forall c, Deftok.SINGLE_TOKENS R !! c = Some 0 ->
        exists name s, head Deftok.definitions = Some (name, Some (c :: s))).
Proof. exact (deftok_tables Deftok.definitions definitions_fresh). Defined.

Lemma registry_eq :
  Deftok.registry
  = {| Deftok.next_tok_id := 14;
       Deftok.Lexer_ids := Deftok.Lexer_ids Deftok.registry;
       Deftok.TOKEN_NAMES := Deftok.TOKEN_NAMES Deftok.registry;
       Deftok.SINGLE_TOKENS :=
         <[0x3A := 8]> (<[0x2E := 7]> (<[0x7D := 6]> (<[0x7B := 5]>
         (<[0x5D := 4]> (<[0x5B := 3]> (<[0x29 := 2]> (<[0x28 := 1]>
            empty))))))) |}.
Proof. reflexivity. Qed.

(** X6.  The tables the module builds when it is loaded are the ones the lexer
    is read with: [SINGLE_TOKENS] holds the eight punctuation characters,
    each under the identifier of its kind, none of them 0, so that the
    test [if ((token = SINGLE_TOKENS[c]))] succeeds on every entry; and
    [TOKEN_NAMES] and the properties of [Lexer] map the identifier of each
    kind to its name and back. *)
Theorem module_tables :
  Deftok.next_tok_id Deftok.registry = 14
  /\ (forall c,
        Deftok.SINGLE_TOKENS Deftok.registry !! c = tok_id <$> SINGLE_TOKENS c)
  /\ (forall c id, Deftok.SINGLE_TOKENS Deftok.registry !! c = Some id ->
                   id <> 0)
  /\ (forall k,
        Deftok.TOKEN_NAMES Deftok.registry !! tok_id k = Some (token_name k)
        /\ Deftok.Lexer_ids Deftok.registry !! token_name k = Some (tok_id k))
  /\ (forall id name, Deftok.TOKEN_NAMES Deftok.registry !! id = Some name ->
                      exists k, id = tok_id k /\ name = token_name k).
Proof.
  assert (forall c,
            Deftok.SINGLE_TOKENS Deftok.registry !! c
            = tok_id <$> SINGLE_TOKENS c) as Hs.
  { intros c. rewrite registry_eq. cbn [Deftok.SINGLE_TOKENS].
    unfold SINGLE_TOKENS.
    repeat (rewrite lookup_insert; case_decide; [subst; reflexivity|]).
    rewrite lookup_empty. compare_cases. reflexivity. }
  split; [reflexivity|]. split; [exact Hs|]. split; [|split].
  - intros c id. rewrite Hs.
    destruct (SINGLE_TOKENS c) as [k|] eqn:E; [|discriminate].
    intros [= <-]. eapply SINGLE_TOKENS_truthy, E.
  - intros k. destruct k; split; vm_compute; reflexivity.
  - intros id name Hl.
    destruct (deftoks_invariant Deftok.definitions) as (_ & Hn & _).
    apply Hn in Hl as [Hid Hl].
    assert (id = Z.of_nat (Z.to_nat id)) as Eid by lia.
    rewrite Eid. generalize dependent (Z.to_nat id). clear. intros n Hl.
    do 14 (destruct n as [|n];
           [cbn in Hl; injection Hl as <-;
            first [ exists LINE; split; reflexivity
                  | exists LEFT_PAREN; split; reflexivity
                  | exists RIGHT_PAREN; split; reflexivity
                  | exists LEFT_SQUARE_BRACKET; split; reflexivity
                  | exists RIGHT_SQUARE_BRACKET; split; reflexivity
                  | exists LEFT_CURLY_BRACKET; split; reflexivity
                  | exists RIGHT_CURLY_BRACKET; split; reflexivity
                  | exists FULL_STOP; split; reflexivity
                  | exists COLON; split; reflexivity
                  | exists DECIMAL_NUMBER; split; reflexivity
                  | exists HEX_NUMBER; split; reflexivity
                  | exists FRACTIONAL_NUMBER; split; reflexivity
                  | exists SYMBOL; split; reflexivity
                  | exists TEXT; split; reflexivity ]|]).
    discriminate Hl.
Qed.

(** * Exceptions *)

Lemma substring_one v a x :
  0 <= a -> v !! Z.to_nat a = Some x -> substring v a (a + 1) = [x].
Proof.
  intros Ha Hx. pose proof (lookup_lt_Some _ _ _ Hx) as Hlt.
  unfold substring.
  replace (Z.to_nat (Z.max (Z.max 0 (Z.min a (Z.of_nat (length v))))
                       (Z.max 0 (Z.min (a + 1) (Z.of_nat (length v))))
                     - Z.min (Z.max 0 (Z.min a (Z.of_nat (length v))))
                         (Z.max 0 (Z.min (a + 1) (Z.of_nat (length v))))))
    with 1%nat by lia.
  replace (Z.to_nat (Z.min (Z.max 0 (Z.min a (Z.of_nat (length v))))
                       (Z.max 0 (Z.min (a + 1) (Z.of_nat (length v))))))
    with (Z.to_nat a) by lia.
  rewrite (drop_S _ _ _ Hx). reflexivity.
Qed.

Lemma flushToken_succeeds v L t :
  token L = Some t -> exists r, flushToken (Some v) L = inr r.
Proof.
  intros Htok. unfold flushToken. rewrite Htok.
  repeat case_match; eauto.
Qed.

(** The exceptions of a pass through the loop body, from a state that
    satisfies the invariant. *)
Lemma iteration_throw_cases h L v q c e :
  Inv h L (v :: q) -> charCodeAt v (sourceOffset L) = Some c ->
  iteration v c L = IThrow e ->
  (token L = None /\ e = UnexpectedCharacter c)
  \/ (exists t, token L = Some t /\ type t = TEXT /\ e = TextNotImplemented)
  \/ (exists t,
        token L = Some t /\ type t = DECIMAL_NUMBER /\ c = UC.SMALL_LETTER_X
        /\ ((e = UnexpectedX /\ text_of v L t <> [UC.DIGIT_ZERO])
            \/ (e = ReferenceError "DIGIT_ZERO" /\ tokenValueOffset L = -1
                /\ length (text_of v L t) = 1%nat))).
Proof.
  intros (_ & Ho & Ht) Hc Hit. cbn in Ho.
  apply charCodeAt_Some in Hc as [Hr Hc].
  unfold iteration, branch in Hit. unfold token_ok in Ht.
  destruct (token L) as [t|] eqn:Htok.
  - right. destruct Ht as (Hk & Hpos & Ht).
    pose proof (flushToken_succeeds v L t Htok) as [[t1 L1] Hf].
    unfold continue_token, return_flush, keep_reading in Hit.
    rewrite Hf in Hit.
    destruct (type t) eqn:Hty; try discriminate Hk; cbn in Ht.
    + destruct (negb (UC.is_space c)); discriminate.
    + right. exists t. split; [reflexivity|]. split; [exact Hty|].
      destruct (Z.eqb_spec c UC.SMALL_LETTER_X) as [->|Hx].
      2:{ repeat case_match; discriminate. }
      split; [reflexivity|].
      unfold hex_prefix_check, text_of in *.
      destruct Ht as [(Hv & s & Hs & Hlen)|(Hrng & _ & Hlen)].
      * rewrite Hv, Hs in *. cbn in Hit |- *.
        change (to_js_string (VStr s)) with s.
        destruct (Z.eqb_spec (Z.of_nat (length s)) 1) as [E|E]; cbn in Hit;
          simplify_eq.
        -- right. split; [reflexivity|]. split; [reflexivity|lia].
        -- left. split; [reflexivity|]. intros ->. cbn in E. lia.
      * destruct (Z.eqb_spec (tokenValueOffset L) (-1)) as [|_]; [lia|].
        cbn in Hit. left.
        destruct (Z.eqb_spec (tokenValueOffset L) (sourceOffset L - 1))
          as [E|E]; cbn in Hit.
        -- destruct (bool_decide_reflect
                       (charCodeAt v (tokenValueOffset L) = Some UC.DIGIT_ZERO))
             as [E0|E0]; cbn in Hit; [discriminate|].
           simplify_eq. split; [reflexivity|]. intros Etx. apply E0.
           unfold charCodeAt. destruct (Z.leb_spec 0 (tokenValueOffset L));
             [|lia].
           destruct (lookup_lt_is_Some_2 v (Z.to_nat (tokenValueOffset L))
                       ltac:(lia)) as [x Hx].
           rewrite Hx. f_equal.
           replace (sourceOffset L) with (tokenValueOffset L + 1) in Etx by lia.
           rewrite (substring_one v (tokenValueOffset L) x ltac:(lia) Hx) in Etx. congruence.
        -- simplify_eq. split; [reflexivity|]. intros Etx.
           apply (f_equal length) in Etx. cbn in Etx.
           pose proof (substring_length v (tokenValueOffset L) (sourceOffset L)
                         ltac:(lia) ltac:(lia)). lia.
    + destruct (UC.is_hexdigit c); discriminate.
    + repeat case_match; discriminate.
    + destruct (is_symbol_character c); discriminate.
    + left. exists t. simplify_eq. auto.
  - left. split; [reflexivity|]. unfold start_token in Hit.
    repeat case_match; simplify_eq; reflexivity.
Qed.

(** How a call of [next] that raises leaves the loop. *)
Lemma next_throws se st q e st' :
  Inv (heap st) (this st) q -> next se st = Thrown e st' ->
  heap st' = heap st
  /\ rtc (round (heap st)) (this st) (this st')
  /\ exists v q0 c,
       Inv (heap st) (this st') (v :: q0)
       /\ charCodeAt v (sourceOffset (this st')) = Some c
       /\ iteration v c (this st') = IThrow e.
Proof.
  intros HI Hn.
  destruct (next_run se st q (fun _ _ => True))
    as (L1 & q1 & HI1 & _ & Hr & [(r & L' & _ & Hn')|(e' & Ho & Hn')]);
    [trivial|assumption|trivial|congruence|].
  rewrite Hn' in Hn. injection Hn as -> <-. cbn [heap this].
  split; [reflexivity|]. split; [assumption|].
  destruct (exit_cases _ _ _ _ _ HI1 Ho ltac:(discriminate))
    as [(-> & Hs & [(_ & t0 & t & L2 & _ & _ & ?)|(_ & ?)])
       |(v & q0 & c & -> & Hc & [(t & L2 & _ & ?)|(e' & Hit & ?)])];
    try discriminate.
  simplify_eq. eauto 10.
Qed.

(** X7.  In a session [next] raises nothing but the four exceptions of the
    loop body, each on the first pending codepoint, which stays pending:
    an unexpected character where no token is read; the syntax error on
    an "x" that follows a decimal number whose text is not "0"; the
    ReferenceError of the unbound [DIGIT_ZERO] on an "x" that follows a
    decimal number of one digit whose text was copied into the token; the
    missing implementation of text literals on the codepoint after an
    apostrophe.  No property of null or undefined is used, and no token
    of a kind without a case is ever read. *)
Theorem exceptions_of_next st chunks toks se e st' :
  session st chunks toks -> next se st = Thrown e st' ->
  exists c rest,
    pending st' = c :: rest
    /\ match e with
       | UnexpectedCharacter c' => c' = c /\ token (this st') = None
       | UnexpectedX =>
           c = UC.SMALL_LETTER_X
           /\ exists t, token (this st') = Some t /\ type t = DECIMAL_NUMBER
                        /\ token_text st' t <> [UC.DIGIT_ZERO]
       | ReferenceError name =>
           name = "DIGIT_ZERO"%string /\ c = UC.SMALL_LETTER_X
           /\ exists t, token (this st') = Some t /\ type t = DECIMAL_NUMBER
                        /\ tokenValueOffset (this st') = -1
                        /\ length (token_text st' t) = 1%nat
       | TextNotImplemented =>
           exists t, token (this st') = Some t /\ type t = TEXT
       | UnexpectedTokenType _ | TypeError => False
       end.
Proof.
  intros Hs Hn. destruct (session_Inv _ _ _ Hs) as [q HI].
  destruct (next_throws _ _ _ _ _ HI Hn) as (Hh & _ & v & q0 & c & HI' & Hc & Hit).
  destruct st' as [h' L']. cbn [heap this] in *. subst h'.
  exists c, (pend (advance L') (v :: q0)).
  rewrite (Inv_pending _ _ _ HI'). unfold token_text.
  rewrite (Inv_queue _ _ _ HI'). cbn [this hd].
  split; [apply (pend_char L' (advance L') v q0 c Hc eq_refl)|].
  destruct (iteration_throw_cases _ _ _ _ _ _ HI' Hc Hit)
    as [(Htok & ->)
       |[(t & Htok & Hty & ->)
        |(t & Htok & Hty & -> & [(-> & Htx)|(-> & Hv & Htx)])]]; eauto 10.
Qed.

Lemma example_session_1 : session example_state_1 [example_chunk] [].
Proof.
  apply (session_append State_new [] [] example_chunk).
  - apply session_new.
  - reflexivity.
Defined.

Lemma raising_session : session raising_state [str "1x"] [].
Proof.
  apply (session_append State_new [] [] (str "1x")).
  - apply session_new.
  - reflexivity.
Defined.

Lemma raising_next : next false raising_state = Thrown UnexpectedX raised_state.
Proof. vm_compute. reflexivity. Defined.

Lemma exceptions_of_next_witness :
  exists c rest,
    pending raised_state = c :: rest
    /\ c = UC.SMALL_LETTER_X
    /\ exists t, token (this raised_state) = Some t
                 /\ type t = DECIMAL_NUMBER
                 /\ token_text raised_state t <> [UC.DIGIT_ZERO].
Proof.
  exact (exceptions_of_next raising_state [str "1x"] [] false UnexpectedX
           raised_state raising_session raising_next).
Defined.

(** ** An exception is final *)

(** A state in which the first pending codepoint makes the loop body
    raise [e] stays such a state, whatever is appended. *)
Lemma stuck_append e c st q s nd x :
  Inv (heap st) (this st) q ->
  source (this st) = Some s -> heap st !! s = Some nd ->
  charCodeAt (Node.value nd) (sourceOffset (this st)) = Some x ->
  iteration (Node.value nd) x (this st) = IThrow e ->
  exists st' q' nd',
    appendSource c st = inr st'
    /\ Inv (heap st') (this st') q'
    /\ source (this st') = Some s /\ heap st' !! s = Some nd'
    /\ charCodeAt (Node.value nd') (sourceOffset (this st')) = Some x
    /\ iteration (Node.value nd') x (this st') = IThrow e.
Proof.
  intros HI Hs Hnd Hx Hit. destruct st as [h L]. cbn [heap this] in *.
  destruct (Inv_tail _ _ _ _ HI Hs) as (t & ndt & Ht & Hle & Hndt).
  destruct (appendSource_Inv _ _ _ c HI) as (h' & s' & tl' & Ha & HI' & _).
  rewrite (appendSource_linked c h L s t ndt Hs Ht Hndt) in Ha.
  injection Ha as <- <- <-.
  exists {| heap := <[t := Node.mk (Node.value ndt) (Some (length h))]>
                      (h ++ [Node.mk c None]);
            this := set_queue (Some s) (Some (length h)) L |}, (q ++ [c]).
  assert (exists nd',
            <[t := Node.mk (Node.value ndt) (Some (length h))]>
              (h ++ [Node.mk c None]) !! s = Some nd'
            /\ Node.value nd' = Node.value nd) as (nd' & Hnd' & Hv).
  { pose proof (lookup_lt_Some _ _ _ Hnd) as Hlt.
    destruct (decide (t = s)) as [->|Hne].
    - eexists. split.
      + apply list_lookup_insert_eq. rewrite length_app. cbn. lia.
      + cbn. congruence.
    - exists nd. split; [|reflexivity].
      rewrite list_lookup_insert_ne by assumption.
      rewrite lookup_app_l by assumption. assumption. }
  exists nd'. cbn [heap this].
  split; [apply (appendSource_linked c h L s t ndt Hs Ht Hndt)|].
  split; [assumption|]. split; [reflexivity|]. split; [assumption|].
  rewrite Hv. split; [assumption|].
  rewrite iteration_set_queue, Hit. reflexivity.
Qed.

Lemma stuck_next e se st s nd x :
  source (this st) = Some s -> heap st !! s = Some nd ->
  charCodeAt (Node.value nd) (sourceOffset (this st)) = Some x ->
  iteration (Node.value nd) x (this st) = IThrow e ->
  next se st = Thrown e st.
Proof.
  intros Hs Hnd Hx Hit. unfold next, fuel_of. cbn [next_loop].
  rewrite Hs, Hnd, Hx, Hit. destruct st; reflexivity.
Qed.

Lemma stuck_run e script :
  forall st q s nd x,
    Inv (heap st) (this st) q ->
    source (this st) = Some s -> heap st !! s = Some nd ->
    charCodeAt (Node.value nd) (sourceOffset (this st)) = Some x ->
    iteration (Node.value nd) x (this st) = IThrow e ->
    Forall (fun ev => ev = Raised e) (run script st).
Proof.
  induction script as [|[c|se] script IH]; intros st q s nd x HI Hs Hnd Hx Hit;
    cbn [run].
  - constructor.
  - destruct (stuck_append e c st q s nd x HI Hs Hnd Hx Hit)
      as (st' & q' & nd' & -> & HI' & Hs' & Hnd' & Hx' & Hit').
    eapply IH; eassumption.
  - rewrite (stuck_next e se st s nd x Hs Hnd Hx Hit).
    constructor; [reflexivity|]. eapply IH; eassumption.
Qed.

(** X8.  Once [next] has raised an exception, it raises the same exception at
    every later call, whatever the caller appends and whether or not the
    end of the source is signalled: the codepoint that raised it stays the
    first pending one, and no call gets past it. *)
Theorem exception_is_final st chunks toks se e st' :
  session st chunks toks -> next se st = Thrown e st' ->
  (forall se', next se' st' = Thrown e st')
  /\ forall script, Forall (fun ev => ev = Raised e) (run script st').
Proof.
  intros Hs Hn. destruct (session_Inv _ _ _ Hs) as [q HI].
  destruct (next_throws _ _ _ _ _ HI Hn) as (Hh & _ & v & q0 & c & HI' & Hc & Hit).
  rewrite <- Hh in HI'.
  destruct (Inv_head _ _ _ _ HI') as (l & nx & Hl & Hnd & _).
  split.
  - intros se'. apply (stuck_next e se' st' l (Node.mk v nx) c); assumption.
  - intros script.
    apply (stuck_run e script st' (v :: q0) l (Node.mk v nx) c); assumption.
Qed.

Lemma exception_is_final_witness :
  (forall se', next se' raised_state = Thrown UnexpectedX raised_state)
  /\ forall script,
       Forall (fun ev => ev = Raised UnexpectedX) (run script raised_state).
Proof.
  exact (exception_is_final raising_state [str "1x"] [] false UnexpectedX
           raised_state raising_session raising_next).
Defined.

(** * Termination *)

(** X9.  The loop of [next] ends within one round for each pending codepoint
    and each queued chunk, and one more: the outcome is the same for every
    bound on the rounds above that. *)
Theorem next_terminates st chunks toks se fuel :
  session st chunks toks ->
  (length (pending st) + length (queue st) < fuel)%nat ->
  next_loop fuel (heap st) se (this st) <> OutOfFuel
  /\ next_loop fuel (heap st) se (this st)
     = next_loop (fuel_of (heap st)) (heap st) se (this st)
  /\ next se st <> Diverged.
Proof.
  intros Hs Hf. destruct (session_Inv _ _ _ Hs) as [q HI].
  destruct st as [h L]. cbn [heap this] in *.
  rewrite (Inv_pending _ _ _ HI), (Inv_queue _ _ _ HI) in Hf.
  assert (next_loop fuel h se L = next_loop (fuel_of h) h se L) as E.
  { apply (next_loop_fuel _ _ _ q); [assumption|exact Hf|].
    apply work_fuel. assumption. }
  pose proof (next_total se {| heap := h; this := L |} q HI) as Hn.
  split; [|split; [exact E|exact Hn]].
  rewrite E. intros Ho. apply Hn. unfold next. cbn [heap this].
  rewrite Ho. reflexivity.
Qed.

Lemma next_terminates_witness :
  next_loop 4 (heap raising_state) false (this raising_state) <> OutOfFuel
  /\ next_loop 4 (heap raising_state) false (this raising_state)
     = next_loop (fuel_of (heap raising_state)) (heap raising_state) false
         (this raising_state)
  /\ next false raising_state <> Diverged.
Proof.
  apply (next_terminates raising_state [str "1x"] [] false 4 raising_session).
  vm_compute. lia.
Defined.

(** * Reading all tokens *)

Lemma round_left_to_read h L L' q q' :
  Inv h L q -> round h L L' -> Inv h L' q' ->
  (left_to_read L' q' <= left_to_read L q)%nat.
Proof.
  intros HI Hr HI'. unfold left_to_read.
  destruct (round_cases _ _ _ _ HI Hr)
    as (v & q0 & nx & l & -> & _ & _
        & [(c & Hc & Hit & HI1 & Hp)|(Hc & Hce & HI1 & Hp & _)]);
    pose proof (Inv_unique _ _ _ _ HI' HI1); subst q'; rewrite Hp.
  - pose proof (iteration_continue_token _ _ _ _ Hit) as Htk.
    destruct (token L'), (token L); cbn in *; try contradiction; lia.
  - pose proof (chunk_end_frame _ _ _ Hce) as (_ & _ & _ & _ & Htk).
    destruct (token L'), (token L); cbn in *; try contradiction; lia.
Qed.

(** A call of [next] that returns a token leaves less to come; one that
    returns null leaves the queue empty and, when the end of the source
    was signalled, no token in progress. *)
Lemma next_left_to_read se st q r st' :
  Inv (heap st) (this st) q -> next se st = Returned r st' ->
  heap st' = heap st
  /\ exists q',
       Inv (heap st') (this st') q'
       /\ match r with
          | Some _ => (left_to_read (this st') q' < left_to_read (this st) q)%nat
          | None => q' = [] /\ (se = true -> token (this st') = None)
          end.
Proof.
  intros HI Hn.
  destruct (next_run se st q
              (fun L1 q1 => (left_to_read L1 q1 <= left_to_read (this st) q)%nat))
    as (L1 & q1 & HI1 & HP1 & _ & [(r' & L' & Ho & Hn')|(e & _ & Hn')]);
    [|assumption|reflexivity| |congruence].
  { intros La qa Lb qb HIa HPa Hr HIb.
    pose proof (round_left_to_read _ _ _ _ _ HIa Hr HIb). lia. }
  rewrite Hn' in Hn. injection Hn as <- <-. cbn [heap this].
  split; [reflexivity|]. exists q1.
  split; [eapply exit_Inv; eassumption|].
  destruct (exit_cases _ _ _ _ _ HI1 Ho ltac:(discriminate))
    as [(-> & Hs & [(_ & t0 & t & L2 & Htok & Hf & ?)|(Hse & ?)])
       |(v & q0 & c & -> & Hc & [(t & L2 & Hit & ?)|(e & _ & ?)])];
    simplify_eq.
  - apply flushToken_frame in Hf as (_ & _ & _ & _ & _ & _ & Etk).
    unfold left_to_read in *. rewrite Etk, Htok, !pend_nil in *. cbn in *. lia.
  - split; [reflexivity|]. intros ->. destruct Hse; [discriminate|assumption].
  - destruct (iteration_return_cases _ _ _ _ _ Hit)
      as [(Htok & _ & _ & _ & ->)|([t0 Htok] & Hf)].
    + unfold left_to_read in *.
      rewrite (pend_char L1 (advance L1) v q0 c Hc eq_refl) in HP1.
      cbn [token advance set_position set_sourceOffset] in *.
      rewrite Htok in *. cbn in *. lia.
    + apply flushToken_frame in Hf as (_ & _ & Eso & _ & _ & _ & Etk).
      unfold left_to_read, pend in *. rewrite Etk, Eso, Htok in *. cbn in *. lia.
Qed.

(** The bound on the calls that [read_tokens] runs with is never reached:
    the result is the same for every bound above what is left to come. *)
Lemma read_tokens_fuel se fuel :
  forall fuel' st q,
    Inv (heap st) (this st) q ->
    (left_to_read (this st) q < fuel)%nat -> (left_to_read (this st) q < fuel')%nat ->
    read_tokens fuel se st = read_tokens fuel' se st.
Proof.
  induction fuel as [|fuel IH]; intros fuel' st q HI Hf Hf'; [lia|].
  destruct fuel' as [|fuel']; [lia|]. cbn [read_tokens].
  destruct (next se st) as [[t|] st'| |] eqn:Hn; try reflexivity.
  destruct (next_left_to_read _ _ _ _ _ HI Hn) as (_ & q' & HI' & Hlt).
  rewrite (IH fuel' st' q' HI'); [reflexivity|lia|lia].
Qed.

Lemma read_tokens_run se fuel :
  forall st q chunks toks,
    session st chunks toks -> Inv (heap st) (this st) q ->
    (left_to_read (this st) q < fuel)%nat ->
    exists ts r,
      read_tokens fuel se st = (ts, r)
      /\ (length ts <= left_to_read (this st) q)%nat
      /\ match r with
         | Drained st' =>
             session st' chunks (toks ++ ts)
             /\ queue st' = [] /\ pending st' = []
             /\ (se = true -> token (this st') = None)
         | Threw e =>
             exists st1 st2,
               session st1 chunks (toks ++ ts) /\ next se st1 = Thrown e st2
         | Unfinished => False
         end.
Proof.
  induction fuel as [|fuel IH]; intros st q chunks toks Hs HI Hf; [lia|].
  cbn [read_tokens].
  destruct (next se st) as [[t|] st'|e st'|] eqn:Hn.
  - destruct (next_left_to_read _ _ _ _ _ HI Hn) as (_ & q' & HI' & Hlt).
    pose proof (session_next _ _ _ _ _ _ Hs Hn) as Hs'. cbn in Hs'.
    destruct (IH st' q' chunks (toks ++ [t]) Hs' HI' ltac:(lia))
      as (ts & r & -> & Hlen & Hr).
    exists (t :: ts), r. split; [reflexivity|]. split; [cbn; lia|].
    rewrite <- (assoc_L (++)) in Hr. exact Hr.
  - destruct (next_left_to_read _ _ _ _ _ HI Hn) as (_ & q' & HI' & -> & Htok).
    pose proof (session_next _ _ _ _ _ _ Hs Hn) as Hs'. cbn in Hs'.
    exists [], (Drained st'). split; [reflexivity|]. split; [cbn; lia|].
    split; [exact Hs'|]. destruct st' as [h' L']. cbn [heap this] in *.
    rewrite (Inv_pending _ _ _ HI'), (Inv_queue _ _ _ HI'), pend_nil. auto.
  - exists [], (Threw e). split; [reflexivity|]. split; [cbn; lia|].
    exists st, st'. rewrite app_nil_r. auto.
  - exfalso. eapply next_total; eassumption.
Qed.

Lemma tokens_fuel_enough st q :
  Inv (heap st) (this st) q -> (left_to_read (this st) q < tokens_fuel st)%nat.
Proof.
  intros HI. pose proof (work_fuel _ _ _ HI) as Hw.
  unfold left_to_read, tokens_fuel, work in *.
  destruct (token (this st)); cbn [option_list option_rect length]; lia.
Qed.

(** X10.  [read_tokens] ends: after at most one token for each pending
    codepoint, and one for a token in progress, [next] returns null or
    raises.  When it has returned null the queue is empty and, if the end
    of the source was signalled, no token is left in progress. *)
Theorem read_tokens_drains st chunks toks se :
  session st chunks toks ->
  exists ts r,
    read_tokens (tokens_fuel st) se st = (ts, r)
    /\ (length ts <= length (pending st) + 1)%nat
    /\ (forall fuel, (tokens_fuel st <= fuel)%nat ->
                     read_tokens fuel se st = (ts, r))
    /\ match r with
       | Drained st' =>
           session st' chunks (toks ++ ts)
           /\ queue st' = [] /\ pending st' = []
           /\ (se = true -> token (this st') = None)
       | Threw e =>
           exists st1 st2,
             session st1 chunks (toks ++ ts) /\ next se st1 = Thrown e st2
       | Unfinished => False
       end.
Proof.
  intros Hs. destruct (session_Inv _ _ _ Hs) as [q HI].
  pose proof (tokens_fuel_enough _ _ HI) as Hf.
  destruct (read_tokens_run se (tokens_fuel st) st q chunks toks Hs HI Hf)
    as (ts & r & E & Hlen & Hr).
  exists ts, r. split; [exact E|]. split.
  - destruct st as [h L]. cbn [heap this] in *.
    rewrite (Inv_pending _ _ _ HI). unfold left_to_read in Hlen.
    destruct (token L); cbn in Hlen; lia.
  - split; [|exact Hr]. intros fuel Hfuel. rewrite <- E.
    apply (read_tokens_fuel se _ _ _ q); [assumption|lia|assumption].
Qed.

Lemma read_tokens_drains_witness :
  exists ts r,
    read_tokens (tokens_fuel example_state_1) false example_state_1 = (ts, r)
    /\ (length ts <= length (pending example_state_1) + 1)%nat
    /\ (forall fuel, (tokens_fuel example_state_1 <= fuel)%nat ->
                     read_tokens fuel false example_state_1 = (ts, r))
    /\ match r with
       | Drained st' =>
           session st' [example_chunk] ([] ++ ts)
           /\ queue st' = [] /\ pending st' = []
           /\ (false = true -> token (this st') = None)
       | Threw e =>
           exists st1 st2,
             session st1 [example_chunk] ([] ++ ts)
             /\ next false st1 = Thrown e st2
       | Unfinished => False
       end.
Proof.
  exact (read_tokens_drains example_state_1 [example_chunk] [] false
           example_session_1).
Defined.

(** * The tokens and the input *)

Lemma substring_range v a b :
  0 <= a <= b -> b <= Z.of_nat (length v) ->
  substring v a b = take (Z.to_nat (b - a)) (drop (Z.to_nat a) v).
Proof.
  intros Ha Hb. unfold substring. f_equal; [|f_equal]; lia.
Qed.

Lemma substring_snoc v a b c :
  0 <= a <= b -> v !! Z.to_nat b = Some c ->
  substring v a (b + 1) = substring v a b ++ [c].
Proof.
  intros Ha Hc. pose proof (lookup_lt_Some _ _ _ Hc) as Hlt.
  rewrite !substring_range by lia.
  replace (Z.to_nat (b + 1 - a)) with (S (Z.to_nat (b - a))) by lia.
  apply take_S_r. rewrite lookup_drop.
  replace (Z.to_nat a + Z.to_nat (b - a))%nat with (Z.to_nat b) by lia.
  assumption.
Qed.

Lemma substring_empty v a : substring v a a = [].
Proof.
  unfold substring. rewrite Z.max_id, Z.min_id, Z.sub_diag. reflexivity.
Qed.

(** The text read so far, after the codepoint [c] has been added to the
    token. *)
Lemma keep_reading_text v c t t' L :
  tokenValueOffset L = -1 \/ 0 <= tokenValueOffset L <= sourceOffset L ->
  v !! Z.to_nat (sourceOffset L) = Some c ->
  value t' = value t ->
  let t'' := if tokenValueOffset L =? -1 then append_char c t' else t' in
  text_of v (advance (set_token (Some t'') L)) t'' = text_of v L t ++ [c].
Proof.
  intros Hv Hc Hval. cbn zeta. unfold text_of.
  cbn [tokenValueOffset sourceOffset advance set_position set_sourceOffset
         set_token].
  destruct (Z.eqb_spec (tokenValueOffset L) (-1)) as [E|E].
  - unfold append_char. cbn [value set_value]. rewrite Hval. reflexivity.
  - apply substring_snoc; [lia|assumption].
Qed.

Lemma single_not_reading c k :
  SINGLE_TOKENS c = Some k -> reading_kind k = false.
Proof.
  unfold SINGLE_TOKENS. intros H.
  repeat case_match; simplify_eq; reflexivity.
Qed.

Lemma lexeme_single c k : SINGLE_TOKENS c = Some k -> lexeme k [c].
Proof.
  intros H. pose proof (single_not_reading _ _ H) as Hk.
  destruct k; try discriminate Hk; exists c; auto.
Qed.

Lemma token_ok_capture L q t :
  token_ok L q -> offset_ok L q -> token L = Some t ->
  tokenValueOffset L = -1 \/ 0 <= tokenValueOffset L <= sourceOffset L.
Proof.
  unfold token_ok. intros Ht _ Htok. rewrite Htok in Ht.
  destruct Ht as (_ & _ & Ht).
  destruct (TokenKind_eqb (type t) LINE); [tauto|].
  destruct Ht as [[? _]|[? _]]; [auto|right; lia].
Qed.

(** A pass through the loop body that goes on with a token in progress:
    the codepoint has been added to the token. *)
Lemma continue_shape h L v q c t L' s :
  Inv h L (v :: q) -> charCodeAt v (sourceOffset L) = Some c ->
  token L = Some t -> iteration v c L = IContinue L' ->
  lexeme (type t) s -> (type t <> LINE -> text_of v L t = s) ->
  exists t',
    token L' = Some t' /\ same_start t t'
    /\ lexeme (type t') (s ++ [c])
    /\ (type t' = LINE -> type t = LINE)
    /\ (type t' <> LINE -> text_of v L' t' = s ++ [c]).
Proof.
  intros HI Hc Htok Hit Hlex Htx.
  pose proof HI as (_ & Ho & Ht).
  pose proof (token_ok_capture _ _ _ Ht Ho Htok) as Hcap.
  apply charCodeAt_Some in Hc as [Hr Hc].
  assert (forall t0,
            value t0 = value t -> offset t0 = offset t -> line t0 = line t ->
            column t0 = column t ->
            lexeme (type t0) (s ++ [c]) -> type t <> LINE -> type t0 <> LINE ->
            branch v c L = keep_reading c t0 L ->
            exists t',
              token L' = Some t' /\ same_start t t'
              /\ lexeme (type t') (s ++ [c])
              /\ (type t' = LINE -> type t = LINE)
              /\ (type t' <> LINE -> text_of v L' t' = s ++ [c])) as Hkeep.
  { intros t0 Hv E1 E2 E3 Hl Hn Hn0 Hb. unfold iteration in Hit.
    rewrite Hb in Hit. unfold keep_reading in Hit. injection Hit as <-.
    eexists. split; [reflexivity|].
    split; [destruct (tokenValueOffset L =? -1); repeat split; assumption|].
    assert (type (if tokenValueOffset L =? -1 then append_char c t0 else t0)
            = type t0) as Ety by (destruct (_ =? _); reflexivity).
    rewrite Ety. split; [assumption|]. split; [contradiction|]. intros _.
    rewrite (keep_reading_text v c t t0 L Hcap Hc Hv), Htx by assumption.
    reflexivity. }
  unfold branch in Hkeep. rewrite Htok in Hkeep.
  unfold iteration, branch in Hit. rewrite Htok in Hit.
  unfold continue_token in Hit, Hkeep.
  unfold token_ok in Ht. rewrite Htok in Ht. destruct Ht as (Hk & _ & Ht).
  destruct (type t) eqn:Hty; try discriminate Hk; cbn [lexeme] in Hlex.
  - (* Line *)
    destruct (UC.is_space c) eqn:Hsp; cbn in Hit.
    2:{ unfold return_flush in Hit. repeat case_match; discriminate. }
    injection Hit as <-. exists t. cbn. rewrite Htok.
    split; [reflexivity|]. split; [repeat split|]. rewrite Hty.
    split; [|split; [auto|contradiction]].
    destruct Hlex as (c0 & sp & -> & Hw & Hsp'). exists c0, (sp ++ [c]).
    split; [reflexivity|]. split; [assumption|].
    apply Forall_app. split; [assumption|]. repeat constructor. assumption.
  - (* DecimalNumber *)
    destruct Hlex as (Hne & Hds).
    destruct (Z.eqb_spec c UC.SMALL_LETTER_X) as [->|Hx].
    { destruct (hex_prefix_check v L t) as [e|[|]] eqn:Hchk;
        try discriminate Hit.
      apply (Hkeep (set_type HEX_NUMBER t)); try reflexivity;
        try discriminate.
      assert (s = [UC.DIGIT_ZERO]) as ->; [|exists []; split; [reflexivity|constructor]].
      rewrite <- Htx by discriminate.
      unfold hex_prefix_check in Hchk. unfold text_of.
      destruct (Z.eqb_spec (tokenValueOffset L) (-1)) as [E|E]; cbn in Hchk.
      - repeat case_match; discriminate.
      - destruct (Z.eqb_spec (tokenValueOffset L) (sourceOffset L - 1))
          as [E1|E1]; cbn in Hchk; [|discriminate].
        destruct (bool_decide_reflect
                    (charCodeAt v (tokenValueOffset L) = Some UC.DIGIT_ZERO))
          as [E0|E0]; cbn in Hchk; [|discriminate].
        apply charCodeAt_Some in E0 as [? E0].
        replace (sourceOffset L) with (tokenValueOffset L + 1) by lia.
        rewrite (substring_snoc v (tokenValueOffset L) (tokenValueOffset L) UC.DIGIT_ZERO ltac:(lia) E0), substring_empty.
        reflexivity. }
    destruct (Z.eqb_spec c UC.FULL_STOP) as [->|Hf].
    { apply (Hkeep (set_type FRACTIONAL_NUMBER t)); try reflexivity;
        try discriminate.
      exists s, []. auto. }
    destruct (UC.is_decdigit c) eqn:Hd; cbn in Hit.
    2:{ unfold return_flush in Hit. repeat case_match; discriminate. }
    apply (Hkeep t); try reflexivity; try congruence.
    rewrite Hty. split; [destruct s; discriminate|].
    apply Forall_app. split; [assumption|]. repeat constructor. assumption.
  - (* HexNumber *)
    destruct (UC.is_hexdigit c) eqn:Hd.
    2:{ unfold return_flush in Hit. repeat case_match; discriminate. }
    apply (Hkeep t); try reflexivity; try congruence.
    rewrite Hty. destruct Hlex as (ds & -> & Hds). exists (ds ++ [c]).
    split; [reflexivity|].
    apply Forall_app. split; [assumption|]. repeat constructor. assumption.
  - (* FractionalNumber *)
    match type of Hit with
    | context [if ?b then _ else _] =>
        change b with (is_fraction_character c) in Hit, Hkeep;
        destruct (is_fraction_character c) eqn:Hd
    end.
    2:{ unfold return_flush in Hit. repeat case_match; discriminate. }
    apply (Hkeep t); try reflexivity; try congruence.
    rewrite Hty. destruct Hlex as (ds & fs & -> & Hne & Hds & Hfs).
    exists ds, (fs ++ [c]). rewrite <- (assoc_L (++)). cbn.
    split; [reflexivity|]. split; [assumption|]. split; [assumption|].
    apply Forall_app. split; [assumption|]. repeat constructor. assumption.
  - (* Symbol *)
    destruct (is_symbol_character c) eqn:Hd.
    2:{ unfold return_flush in Hit. repeat case_match; discriminate. }
    apply (Hkeep t); try reflexivity; try congruence.
    rewrite Hty. destruct Hlex as (c0 & s' & -> & H1 & H2 & H3 & H4).
    exists c0, (s' ++ [c]). do 4 (split; [auto|]).
    apply Forall_app. split; [assumption|]. repeat constructor. assumption.
  - (* Text *)
    discriminate.
Qed.

(** A pass through the loop body that goes on from a state with no token
    in progress: the codepoint is whitespace that is skipped, or begins a
    token. *)
Lemma start_shape v c L L' :
  0 <= sourceOffset L -> v !! Z.to_nat (sourceOffset L) = Some c ->
  token L = None -> iteration v c L = IContinue L' ->
  (token L' = None /\ UC.is_whitespace c = true)
  \/ exists t',
       token L' = Some t' /\ made_at L t' /\ lexeme (type t') [c]
       /\ (type t' = LINE -> c = UC.LINE_FEED \/ sourceOffset L = 0)
       /\ (type t' <> LINE -> text_of v L' t' = [c]).
Proof.
  intros Ho Hc Htok Hit. unfold iteration, branch in Hit. rewrite Htok in Hit.
  unfold start_token in Hit.
  assert (forall k,
            text_of v
              (advance (set_tokenValueOffset (sourceOffset L)
                          (set_token (Some (makeToken k L)) L)))
              (makeToken k L) = [c]) as Htx.
  { intros k. unfold text_of. cbn.
    destruct (Z.eqb_spec (sourceOffset L) (-1)); [lia|].
    rewrite (substring_snoc v (sourceOffset L) (sourceOffset L) c ltac:(lia) Hc), substring_empty.
    reflexivity. }
  destruct (SINGLE_TOKENS c); [discriminate|].
  destruct (Z.eqb_spec c UC.LINE_FEED) as [->|Hlf].
  { injection Hit as <-. right. eexists. split; [reflexivity|].
    split; [repeat split|]. cbn.
    split; [exists UC.LINE_FEED, []; repeat split; constructor|].
    split; [auto|contradiction]. }
  destruct (Z.eqb_spec c UC.APOSTROPHE) as [->|Hap].
  { injection Hit as <-. right. eexists. split; [reflexivity|].
    split; [repeat split|]. cbn [type makeToken lexeme].
    split; [reflexivity|]. split; [discriminate|]. intros _. apply Htx. }
  destruct (UC.is_decdigit c) eqn:Hd.
  { injection Hit as <-. right. eexists. split; [reflexivity|].
    split; [repeat split|]. cbn [type makeToken lexeme].
    split; [split; [discriminate|repeat constructor; assumption]|].
    split; [discriminate|]. intros _. apply Htx. }
  destruct (is_symbol_character c) eqn:Hsy.
  { injection Hit as <-. right. eexists. split; [reflexivity|].
    split; [repeat split|]. cbn [type makeToken lexeme].
    split; [exists c, []; repeat split; auto|].
    split; [discriminate|]. intros _. apply Htx. }
  destruct (UC.is_whitespace c) eqn:Hw; [|discriminate].
  destruct (Z.eqb_spec (sourceOffset L) 0) as [E|E].
  - injection Hit as <-. right. eexists. split; [reflexivity|].
    split; [repeat split|]. cbn [type makeToken lexeme].
    split; [exists c, []; repeat split; auto|].
    split; [auto|contradiction].
  - injection Hit as <-. left. split; [exact Htok|reflexivity].
Qed.

(** The token that [flushToken] returns extends over the codepoints of
    the token in progress. *)
Lemma flush_covers src L q t t' L' s :
  token_ok L q -> (tokenValueOffset L <> -1 -> src = Some (hd [] q)) ->
  token L = Some t -> flushToken src L = inr (t', L') ->
  lexeme (type t) s -> (type t <> LINE -> text_of (hd [] q) L t = s) ->
  tokenOffset L - offset t = Z.of_nat (length s) ->
  covers t' s /\ offset t' = offset t /\ type t' = type t.
Proof.
  intros Ht Hsrc Htok Hf Hlex Htx Hlen.
  unfold token_ok in Ht. rewrite Htok in Ht. destruct Ht as (Hk & _ & Ht).
  unfold flushToken in Hf. rewrite Htok in Hf. unfold covers, text_of in *.
  destruct (type t) eqn:Hty; try discriminate Hk; cbn in Ht.
  1:{ injection Hf as <- <-. cbn. rewrite Hty. cbn.
      split; [|auto]. split; [assumption|]. f_equal. lia. }
  all: specialize (Htx ltac:(discriminate));
    destruct (Z.eqb_spec (tokenValueOffset L) (-1)) as [E|E]; cbn in Hf;
    [ injection Hf as <- <-; rewrite Hty; cbn; split; [|auto];
      split; [assumption|];
      destruct Ht as [(_ & s0 & Hs0 & _)|(? & _)]; [|lia];
      rewrite Hs0 in Htx |- *;
      change (to_js_string (VStr s0)) with s0 in Htx; congruence
    | rewrite (Hsrc E) in Hf; injection Hf as <- <-; cbn; rewrite Hty; cbn;
      split; [|auto]; split; [assumption|]; congruence ].
Qed.

Lemma line_start_app chunks c o :
  line_start chunks o -> line_start (chunks ++ [c]) o.
Proof.
  intros [Hl|[k ->]].
  - left. rewrite concat_app. apply lookup_app_l_Some. assumption.
  - right. destruct (decide (k <= length chunks)%nat).
    + exists k. rewrite take_app_le by assumption. reflexivity.
    + exists (length chunks). rewrite take_app_length.
      rewrite take_ge by lia. reflexivity.
Qed.

Lemma line_start_here chunks consumed c rest k so (o : Z) :
  concat chunks = consumed ++ c :: rest ->
  Z.of_nat (length consumed) = Z.of_nat (length (concat (take k chunks))) + so ->
  o = Z.of_nat (length consumed) ->
  c = UC.LINE_FEED \/ so = 0 ->
  line_start chunks o.
Proof.
  intros E Hk -> [ -> | -> ].
  - left. rewrite E, Nat2Z.id. apply list_lookup_middle. reflexivity.
  - right. exists k. lia.
Qed.

Lemma tiling_snoc consumed pre s toks t t0 :
  tiling pre toks -> consumed = pre ++ s -> offset t0 = Z.of_nat (length pre) ->
  covers t s /\ offset t = offset t0 /\ type t = type t0 ->
  tiling consumed (toks ++ [t]).
Proof.
  intros Hti -> Hoff (Hcov & Eoff & _).
  apply tiling_token; [assumption|congruence|assumption].
Qed.

Lemma Shape_round h chunks toks L q L' q' :
  Inv h L q -> Shape chunks toks L q -> round h L L' -> Inv h L' q' ->
  Shape chunks toks L' q'.
Proof.
  intros HI (consumed & k & S1 & S2 & S3 & S4 & S5 & S6 & S7) Hr HI'.
  destruct (round_cases _ _ _ _ HI Hr)
    as (v & q0 & nx & l & -> & _ & _
        & [(c & Hc & Hit & HI1 & Hp)|(Hc & Hce & HI1 & Hp & Hso)]);
    pose proof (Inv_unique _ _ _ _ HI' HI1); subst q'.
  - (* a codepoint is consumed *)
    pose proof (iteration_continue_frame _ _ _ _ Hit) as (_ & _ & Eso & Eto).
    pose proof HI as (_ & Ho & _). cbn in Ho.
    pose proof Hc as Hc'. apply charCodeAt_Some in Hc' as [_ Hc'].
    rewrite Hp in S1.
    exists (consumed ++ [c]), k.
    split; [rewrite <- (assoc_L (++)); exact S1|].
    split; [assumption|]. split; [assumption|].
    split; [rewrite length_app; cbn; lia|].
    split; [rewrite length_app; cbn; lia|].
    split; [assumption|].
    destruct (token L) as [t|] eqn:Htok.
    + destruct S7 as (pre & s & -> & Hti & Hoff & Hlex & Hls & Htx).
      destruct (continue_shape _ _ _ _ _ _ _ _ HI Hc Htok Hit Hlex Htx)
        as (t' & -> & (E1 & _) & Hlex' & Hline & Htx').
      exists pre, (s ++ [c]). rewrite (assoc_L (++)).
      split; [reflexivity|]. split; [assumption|]. split; [congruence|].
      split; [assumption|]. split; [|exact Htx'].
      intros Hty. rewrite E1. auto.
    + destruct (start_shape v c L L' ltac:(lia) Hc' Htok Hit)
        as [(-> & Hw)|(t' & -> & (E1 & _) & Hlex & Hline & Htx)].
      * apply tiling_skip; assumption.
      * exists consumed, [c]. split; [reflexivity|]. split; [assumption|].
        split; [congruence|]. split; [assumption|]. split; [|exact Htx].
        intros Hty.
        eapply line_start_here; [exact S1|exact S4|congruence|auto].
  - (* the head chunk is dropped *)
    pose proof (chunk_end_frame _ _ _ Hce) as (Eto & _ & _ & Etv & Htk).
    pose proof HI as (_ & Ho & _). cbn in Ho.
    apply charCodeAt_None in Hc; [|lia].
    assert (chunks !! k = Some v) as Hk.
    { rewrite <- (Nat.add_0_r k), <- lookup_drop, <- S2. reflexivity. }
    exists consumed, (S k).
    split; [congruence|].
    split; [rewrite <- (Nat.add_1_r k), <- drop_drop, <- S2; reflexivity|].
    split; [apply lookup_lt_Some in Hk; lia|].
    split.
    { rewrite (take_S_r _ _ _ Hk), concat_app, length_app. cbn.
      rewrite app_nil_r. lia. }
    split; [congruence|]. split; [assumption|].
    destruct (token L) as [t|] eqn:Htok; destruct (token L') as [t'|] eqn:Htok';
      try contradiction; [|assumption].
    destruct Htk as [(E1 & _) Ety].
    destruct S7 as (pre & s & -> & Hti & Hoff & Hlex & Hls & Htx).
    exists pre, s. split; [reflexivity|]. split; [assumption|].
    split; [congruence|]. rewrite Ety, E1.
    split; [assumption|]. split; [assumption|].
    intros Hty. rewrite <- (Htx Hty). cbn [hd].
    unfold text_of at 1. rewrite Etv. cbn.
    symmetry. eapply chunk_end_text; try eassumption. lia.
Qed.

Lemma Shape_flush chunks toks src L q t L' :
  token_ok L q -> (tokenValueOffset L <> -1 -> src = Some (hd [] q)) ->
  Shape chunks toks L q ->
  flushToken src L = inr (t, L') ->
  Shape chunks (toks ++ [t]) L' q.
Proof.
  intros Ht Hsrc (consumed & k & S1 & S2 & S3 & S4 & S5 & S6 & S7) Hf.
  pose proof (flushToken_frame _ _ _ _ Hf) as (_ & _ & Eso & Eto & _ & _ & Etk).
  pose proof (flushToken_token _ _ _ _ Hf) as (t0 & Htok & _).
  rewrite Htok in S7.
  destruct S7 as (pre & s & -> & Hti & Hoff & Hlex & Hls & Htx).
  destruct (flush_covers src L q t0 t L' s Ht Hsrc Htok Hf Hlex Htx)
    as (Hcov & Eoff & Ety).
  { rewrite S5, length_app. lia. }
  exists (pre ++ s), k.
  split; [unfold pend in *; congruence|]. split; [assumption|].
  split; [assumption|]. split; [congruence|]. split; [congruence|].
  split.
  - apply Forall_app. split; [assumption|]. constructor; [|constructor].
    rewrite Ety, Eoff. assumption.
  - rewrite Etk. apply tiling_token; [assumption|congruence|assumption].
Qed.

Lemma Shape_exit h se chunks toks L q r L' :
  Inv h L q -> Shape chunks toks L q ->
  next_loop 1 h se L = Ret r L' ->
  Shape chunks (toks ++ option_list r) L' q.
Proof.
  intros HI HS Ho.
  destruct (exit_cases _ _ _ _ _ HI Ho ltac:(discriminate))
    as [(-> & Hs & [(_ & t0 & t & L1 & Htok & Hf & ?)|(_ & ?)])
       |(v & q0 & c & -> & Hc & [(t & L1 & Hit & ?)|(e & _ & ?)])];
    simplify_eq; cbn [option_list option_rect].
  - eapply Shape_flush; [apply HI| |eassumption|eassumption].
    intros Hv. exfalso. destruct HI as (_ & _ & Ht). unfold token_ok in Ht.
    rewrite Htok in Ht. destruct Ht as (_ & _ & Ht).
    destruct (TokenKind_eqb _ _); [tauto|].
    destruct Ht as [[? _]|(_ & ? & _)]; congruence.
  - rewrite app_nil_r. assumption.
  - destruct (iteration_return_cases _ _ _ _ _ Hit)
      as [(Htok & (E1 & _) & Hval & Hsingle & ->)|(_ & Hf)].
    2:{ eapply Shape_flush; [apply HI| |eassumption|eassumption]. auto. }
    destruct HS as (consumed & k & S1 & S2 & S3 & S4 & S5 & S6 & S7).
    rewrite Htok in S7.
    rewrite (pend_char L (advance L) v q0 c Hc eq_refl) in S1.
    pose proof (single_not_reading _ _ Hsingle) as Hk.
    exists (consumed ++ [c]), k.
    split; [rewrite <- (assoc_L (++)); exact S1|].
    split; [assumption|]. split; [assumption|].
    split; [rewrite length_app; cbn; lia|].
    split; [rewrite length_app; cbn; lia|].
    split.
    + apply Forall_app. split; [assumption|]. constructor; [|constructor].
      intros Hty. rewrite Hty in Hk. discriminate.
    + cbn [token advance set_position set_sourceOffset]. rewrite Htok.
      apply tiling_token; [assumption|congruence|].
      split; [apply lexeme_single; assumption|].
      rewrite Hval, Hk. destruct (type t); try discriminate Hk; reflexivity.
Qed.

Lemma Shape_append chunks toks L q c s tl :
  offset_ok L q -> token_ok L q -> Shape chunks toks L q ->
  Shape (chunks ++ [c]) toks (set_queue s tl L) (q ++ [c]).
Proof.
  intros Ho Ht (consumed & k & S1 & S2 & S3 & S4 & S5 & S6 & S7).
  exists consumed, k.
  split.
  { rewrite concat_app, S1. cbn [concat]. rewrite app_nil_r.
    rewrite <- (assoc_L (++)). f_equal.
    unfold pend. cbn [sourceOffset set_queue]. rewrite concat_app. cbn [concat].
    rewrite app_nil_r. symmetry. apply drop_app_le.
    destruct q as [|v q0]; cbn in *; [lia|]. rewrite length_app. lia. }
  split; [rewrite drop_app_le by assumption; congruence|].
  split; [rewrite length_app; lia|].
  split; [rewrite take_app_le by assumption; exact S4|].
  split; [exact S5|].
  split; [eapply Forall_impl; [exact S6|]; cbn; auto using line_start_app|].
  cbn [token set_queue]. destruct (token L) as [t|] eqn:Htok; [|assumption].
  destruct S7 as (pre & s0 & -> & Hti & Hoff & Hlex & Hls & Htx).
  exists pre, s0. split; [reflexivity|]. split; [assumption|].
  split; [assumption|]. split; [assumption|].
  split; [auto using line_start_app|].
  intros Hty. rewrite <- (Htx Hty). unfold text_of.
  cbn [tokenValueOffset sourceOffset set_queue].
  destruct (Z.eqb_spec (tokenValueOffset L) (-1)) as [E|E]; [reflexivity|].
  destruct q as [|v q0]; [|reflexivity].
  exfalso. unfold token_ok in Ht. rewrite Htok in Ht.
  destruct Ht as (_ & _ & Ht).
  destruct (TokenKind_eqb _ _); [tauto|].
  destruct Ht as [[? _]|(_ & ? & _)]; congruence.
Qed.

Lemma Shape_new : Shape [] [] Lexer_new [].
Proof.
  exists [], 0%nat. repeat split; try reflexivity; constructor.
Qed.

(** The invariant and the shape, for every session. *)
Lemma session_Shape st chunks toks :
  session st chunks toks ->
  exists q, Inv (heap st) (this st) q /\ Shape chunks toks (this st) q.
Proof.
  induction 1 as [|st chunks toks c st' _ (q & HI & HS) Ha
                  |st chunks toks se r st' _ (q & HI & HS) Hn
                  |st chunks toks se e st' _ (q & HI & HS) Hn].
  - exists []. split; [apply Inv_new|apply Shape_new].
  - destruct st as [h L].
    destruct (appendSource_Inv _ _ _ c HI) as (h' & s & tl & Ha' & HI' & _).
    cbn in *. rewrite Ha' in Ha. simplify_eq. cbn.
    exists (q ++ [c]). split; [assumption|].
    apply Shape_append; [apply HI|apply HI|exact HS].
  - destruct (next_run se st q (Shape chunks toks))
      as (L1 & q1 & HI1 & HS1 & _ & [(r' & L' & Ho & Hn')|(e & _ & Hn')]);
      [intros La qa Lb qb Ha Hb Hc Hd; exact (Shape_round _ _ _ _ _ _ _ Ha Hb Hc Hd)
      |assumption|assumption| |congruence].
    rewrite Hn' in Hn. simplify_eq. cbn.
    exists q1. split; [eapply exit_Inv; eassumption|].
    eapply Shape_exit; eassumption.
  - destruct (next_run se st q (Shape chunks toks))
      as (L1 & q1 & HI1 & HS1 & _ & [(r' & L' & Ho & Hn')|(e' & _ & Hn')]);
      [intros La qa Lb qb Ha Hb Hc Hd; exact (Shape_round _ _ _ _ _ _ _ Ha Hb Hc Hd)
      |assumption|assumption|congruence|].
    rewrite Hn' in Hn. simplify_eq. cbn. eauto.
Qed.

Lemma lexeme_nonempty k s : lexeme k s -> s <> [].
Proof.
  destruct k; cbn;
    try (intros (c & -> & _); discriminate);
    try (intros (c & s' & -> & _); discriminate).
  - tauto.
  - intros (ds & fs & -> & _). destruct ds; discriminate.
  - intros ->. discriminate.
Qed.

(** Where a tiling puts each token. *)
Lemma tiling_extent cs toks :
  tiling cs toks ->
  Forall (fun t => exists pre s post,
            cs = pre ++ s ++ post /\ offset t = Z.of_nat (length pre)
            /\ covers t s) toks.
Proof.
  induction 1 as [|cs toks c _ IH Hw|cs toks t s _ IH Hoff Hcov].
  - constructor.
  - eapply Forall_impl; [exact IH|]. cbn.
    intros t (pre & s & post & -> & ? & ?).
    exists pre, s, (post ++ [c]). rewrite <- !(assoc_L (++)). auto.
  - apply Forall_app. split.
    + eapply Forall_impl; [exact IH|]. cbn.
      intros t0 (pre & s0 & post & -> & ? & ?).
      exists pre, s0, (post ++ s). rewrite <- !(assoc_L (++)). auto.
    + constructor; [|constructor]. exists cs, s, [].
      rewrite app_nil_r. auto.
Qed.

Lemma substring_middle (pre s post : list Z) :
  substring (pre ++ s ++ post) (Z.of_nat (length pre))
    (Z.of_nat (length pre) + Z.of_nat (length s)) = s.
Proof.
  rewrite substring_range by (rewrite ?length_app; lia).
  rewrite Nat2Z.id, drop_app_length.
  replace (Z.to_nat (Z.of_nat (length pre) + Z.of_nat (length s)
                     - Z.of_nat (length pre))) with (length s) by lia.
  apply take_app_length.
Qed.

(** The extents of the tokens of a session, in the whole input. *)
Lemma session_extents st chunks toks :
  session st chunks toks ->
  Forall (fun t => exists pre s post,
            concat chunks = pre ++ s ++ post
            /\ offset t = Z.of_nat (length pre) /\ covers t s) toks.
Proof.
  intros Hs. destruct (session_Shape _ _ _ Hs) as (q & HI & HS).
  destruct HS as (consumed & k & S1 & _ & _ & _ & _ & _ & S7).
  assert (exists pre rest, concat chunks = pre ++ rest /\ tiling pre toks)
    as (pre & rest & E & Hti).
  { destruct (token (this st)) as [t|].
    - destruct S7 as (pre & s & -> & Hti & _).
      exists pre, (s ++ pend (this st) q).
      rewrite (assoc_L (++)). auto.
    - eauto. }
  eapply Forall_impl; [apply (tiling_extent _ _ Hti)|]. cbn.
  intros t (p & s & post & -> & ? & ?).
  exists p, s, (post ++ rest). rewrite E, <- !(assoc_L (++)). auto.
Qed.

(** X11.  In every session the input is, from left to right: the extents of the
    tokens returned, in the order they were returned and at the offsets
    they carry, with nothing but whitespace between them; then the
    codepoints of the token in progress, which have the shape of its kind;
    then the pending codepoints.  No codepoint other than whitespace is
    passed over. *)
Theorem tokens_tile_the_input st chunks toks :
  session st chunks toks ->
  exists pre s,
    concat chunks = pre ++ s ++ pending st
    /\ tokenOffset (this st) = Z.of_nat (length (pre ++ s))
    /\ tiling pre toks
    /\ match token (this st) with
       | None => s = []
       | Some t => offset t = Z.of_nat (length pre) /\ lexeme (type t) s
       end.
Proof.
  intros Hs. destruct (session_Shape _ _ _ Hs) as (q & HI & HS).
  destruct HS as (consumed & k & S1 & _ & _ & _ & S5 & _ & S7).
  destruct st as [h L]. cbn [heap this] in *.
  rewrite (Inv_pending _ _ _ HI).
  destruct (token L) as [t|].
  - destruct S7 as (pre & s & -> & Hti & Hoff & Hlex & _).
    exists pre, s. rewrite (assoc_L (++)). auto.
  - exists consumed, []. rewrite app_nil_r. auto.
Qed.

Lemma tokens_tile_the_input_witness :
  exists pre s,
    concat [example_chunk] = pre ++ s ++ pending example_state_2
    /\ tokenOffset (this example_state_2) = Z.of_nat (length (pre ++ s))
    /\ tiling pre [example_token_1]
    /\ s = [].
Proof.
  exact (tokens_tile_the_input example_state_2 [example_chunk]
           [example_token_1] example_session_2).
Defined.

(** X12.  When a reading that signals the end of the source ends on null, the
    tokens returned tile the whole input. *)
Theorem complete_reading_tiles_the_input st chunks toks ts st' :
  session st chunks toks ->
  read_tokens (tokens_fuel st) true st = (ts, Drained st') ->
  tiling (concat chunks) (toks ++ ts)
  /\ token (this st') = None /\ pending st' = [].
Proof.
  intros Hs Hr. destruct (session_Inv _ _ _ Hs) as [q HI].
  destruct (read_tokens_run true (tokens_fuel st) st q chunks toks Hs HI
              (tokens_fuel_enough _ _ HI)) as (ts' & r & E & _ & H).
  rewrite Hr in E. injection E as <- <-.
  destruct H as (Hs' & _ & Hp & Htok). specialize (Htok eq_refl).
  destruct (session_Shape _ _ _ Hs') as (q' & HI' & HS).
  destruct HS as (consumed & k & S1 & _ & _ & _ & _ & _ & S7).
  destruct st' as [h L]. cbn [heap this] in *.
  rewrite (Inv_pending _ _ _ HI') in *.
  rewrite Htok in S7. rewrite Hp, app_nil_r in S1.
  rewrite S1. auto.
Qed.

(** X13.  The text that a returned token has for value is not empty, and is the
    substring of the input that begins at the offset of the token. *)
Theorem token_value_is_input_slice st chunks toks :
  session st chunks toks ->
  Forall (fun t =>
            forall s, value t = VStr s ->
              s <> []
              /\ substring (concat chunks) (offset t)
                   (offset t + Z.of_nat (length s)) = s) toks.
Proof.
  intros Hs. eapply Forall_impl; [apply (session_extents _ _ _ Hs)|]. cbn.
  intros t (pre & s0 & post & E & Hoff & Hlex & Hval) s Hs0.
  rewrite Hs0 in Hval.
  destruct (TokenKind_eqb (type t) LINE); [discriminate|].
  destruct (reading_kind (type t)); [|discriminate].
  injection Hval as ->.
  split; [eapply lexeme_nonempty; eassumption|].
  rewrite E, Hoff. apply substring_middle.
Qed.

Lemma token_value_is_input_slice_witness :
  Forall (fun t =>
            forall s, value t = VStr s ->
              s <> []
              /\ substring (concat [example_chunk]) (offset t)
                   (offset t + Z.of_nat (length s)) = s) [example_token_1].
Proof.
  exact (token_value_is_input_slice example_state_2 [example_chunk]
           [example_token_1] example_session_2).
Defined.

(** X14.  Every returned token has the shape of its kind: it extends over
    codepoints of the input, from its offset on, that are a whitespace
    codepoint and spaces (Line), a character of the table of
    single-character tokens, symbol characters not begun by a digit or an
    apostrophe, decimal digits, "0x" and hexadecimal digits, decimal
    digits with a full stop and fraction characters, or an apostrophe; and
    its value is the number of the spaces, absent, or these codepoints. *)
Theorem returned_tokens_have_shape st chunks toks :
  session st chunks toks ->
  Forall (fun t => exists s,
            covers t s
            /\ substring (concat chunks) (offset t)
                 (offset t + Z.of_nat (length s)) = s) toks.
Proof.
  intros Hs. eapply Forall_impl; [apply (session_extents _ _ _ Hs)|]. cbn.
  intros t (pre & s & post & E & Hoff & Hcov).
  exists s. split; [assumption|].
  rewrite E, Hoff. apply substring_middle.
Qed.

Lemma returned_tokens_have_shape_witness :
  Forall (fun t => exists s,
            covers t s
            /\ substring (concat [example_chunk]) (offset t)
                 (offset t + Z.of_nat (length s)) = s) [example_token_1].
Proof.
  exact (returned_tokens_have_shape example_state_2 [example_chunk]
           [example_token_1] example_session_2).
Defined.

(** X15.  A Line token begins at a LINE FEED or at the first codepoint of a
    chunk, nowhere else; its value is the number of the space codepoints
    that follow its first codepoint in the input. *)
Theorem line_token_origin st chunks toks :
  session st chunks toks ->
  Forall (fun t =>
            type t = LINE ->
            line_start chunks (offset t)
            /\ exists n,
                 value t = VNum n /\ 0 <= n
                 /\ Z.of_nat (length (substring (concat chunks) (offset t + 1)
                                        (offset t + 1 + n))) = n
                 /\ Forall (fun x => UC.is_space x = true)
                      (substring (concat chunks) (offset t + 1)
                         (offset t + 1 + n))) toks.
Proof.
  intros Hs. destruct (session_Shape _ _ _ Hs) as (q & HI & HS).
  destruct HS as (_ & _ & _ & _ & _ & _ & _ & S6 & _).
  pose proof (session_extents _ _ _ Hs) as Hx.
  apply Forall_forall. intros t Hin Hty.
  rewrite Forall_forall in S6, Hx.
  split; [auto|].
  destruct (Hx _ Hin) as (pre & s & post & E & Hoff & Hlex & Hval).
  rewrite Hty in Hlex, Hval. cbn in Hlex, Hval.
  destruct Hlex as (c & sp & -> & _ & Hsp).
  exists (Z.of_nat (length sp)).
  assert (substring (concat chunks) (offset t + 1)
            (offset t + 1 + Z.of_nat (length sp)) = sp) as Esub.
  { rewrite E, Hoff.
    replace (pre ++ (c :: sp) ++ post) with ((pre ++ [c]) ++ sp ++ post)
      by (rewrite <- (assoc_L (++)); reflexivity).
    replace (Z.of_nat (length pre) + 1) with (Z.of_nat (length (pre ++ [c])))
      by (rewrite length_app; cbn; lia).
    apply substring_middle. }
  rewrite Esub.
  split; [rewrite Hval; f_equal; cbn; lia|]. split; [lia|]. auto.
Qed.

Lemma line_session : session line_state_1 [LF ++ str "   abc"] [line_token].
Proof.
  apply (session_next line_state [LF ++ str "   abc"] [] true
           (Some line_token)).
  - apply (session_append State_new [] [] (LF ++ str "   abc")).
    + apply session_new.
    + reflexivity.
  - vm_compute. reflexivity.
Defined.

Lemma line_token_origin_witness :
  Forall (fun t =>
            type t = LINE ->
            line_start [LF ++ str "   abc"] (offset t)
            /\ exists n,
                 value t = VNum n /\ 0 <= n
                 /\ Z.of_nat (length (substring (concat [LF ++ str "   abc"])
                                        (offset t + 1) (offset t + 1 + n))) = n
                 /\ Forall (fun x => UC.is_space x = true)
                      (substring (concat [LF ++ str "   abc"]) (offset t + 1)
                         (offset t + 1 + n))) [line_token].
Proof.
  exact (line_token_origin line_state_1 [LF ++ str "   abc"] [line_token]
           line_session).
Defined.

Lemma example_reading :
  read_tokens (tokens_fuel example_state_1) true example_state_1
  = ([example_token_1; example_token_2], Drained drained_state).
Proof. vm_compute. reflexivity. Defined.

Lemma complete_reading_tiles_the_input_witness :
  tiling (concat [example_chunk]) ([] ++ [example_token_1; example_token_2])
  /\ token (this drained_state) = None /\ pending drained_state = [].
Proof.
  exact (complete_reading_tiles_the_input example_state_1 [example_chunk] []
           [example_token_1; example_token_2] drained_state
           example_session_1 example_reading).
Defined.

(** * Appending and reading in either order *)

Lemma iteration_return_queue v c L t L' :
  iteration v c L = IReturn t L' ->
  source L' = source L /\ sourceTail L' = sourceTail L.
Proof.
  unfold iteration. pose proof (branch_frame v c L) as Hb.
  destruct (branch v c L) as [[?|] ?|? ?|?]; intros H; simplify_eq; cbn;
    split; apply Hb.
Qed.

(** How a call of [next] that returns from within the character loop, or
    raises, leaves the loop: after rounds, on a codepoint of the head
    chunk. *)
Lemma next_within_loop se st q :
  Inv (heap st) (this st) q ->
  forall o,
    (exists t st1, next se st = Returned (Some t) st1
                   /\ is_Some (source (this st1))
                   /\ o = IReturn t (this st1))
    \/ (exists e st1, next se st = Thrown e st1 /\ o = IThrow e) ->
    exists Le s nd x,
      rtc (round (heap st)) (this st) Le
      /\ source Le = Some s /\ heap st !! s = Some nd
      /\ charCodeAt (Node.value nd) (sourceOffset Le) = Some x
      /\ iteration (Node.value nd) x Le = o
      /\ match o with
         | IReturn t L1 => next se st = Returned (Some t) {| heap := heap st; this := L1 |}
         | IThrow e => next se st = Thrown e {| heap := heap st; this := Le |}
         | IContinue _ => False
         end.
Proof.
  intros HI o Ho.
  destruct (next_run se st q (fun _ _ => True))
    as (L1 & q1 & HI1 & _ & Hr & Hex); [trivial|assumption|trivial|].
  assert (exists r, next_loop 1 (heap st) se L1 = r /\ r <> OutOfFuel
                    /\ next se st
                       = match r with
                         | Ret r' L' => Returned r' {| heap := heap st; this := L' |}
                         | Throw e L' => Thrown e {| heap := heap st; this := L' |}
                         | OutOfFuel => Diverged
                         end) as (r & Hr1 & Hne & Hn).
  { destruct Hex as [(r & L' & E & Hn)|(e & E & Hn)]; rewrite E;
      eexists; (split; [reflexivity|]); split; try discriminate; exact Hn. }
  destruct (exit_cases _ _ _ _ _ HI1 Hr1 Hne)
    as [(-> & Hs & [(_ & t0 & t & L2 & Htok & Hf & ->)|(_ & ->)])
       |(v & q0 & c & -> & Hc & [(t & L2 & Hit & ->)|(e & Hit & ->)])].
  - exfalso. destruct Ho as [(t' & st1 & Hn' & [s Hs'] & _)|(e & st1 & Hn' & _)];
      rewrite Hn in Hn'; [|discriminate].
    injection Hn' as <- <-. cbn in Hs'.
    apply flushToken_frame in Hf as (E & _). congruence.
  - exfalso. destruct Ho as [(t' & st1 & Hn' & _)|(e & st1 & Hn' & _)];
      rewrite Hn in Hn'; discriminate.
  - destruct (Inv_head _ _ _ _ HI1) as (l & nx & Hl & Hnd & _).
    exists L1, l, (Node.mk v nx), c. cbn [Node.value].
    destruct Ho as [(t' & st1 & Hn' & _ & ->)|(e & st1 & Hn' & _)];
      rewrite Hn in Hn'; [|discriminate].
    injection Hn' as <- <-. cbn [this]. auto 10.
  - destruct (Inv_head _ _ _ _ HI1) as (l & nx & Hl & Hnd & _).
    exists L1, l, (Node.mk v nx), c. cbn [Node.value].
    destruct Ho as [(t' & st1 & Hn' & _)|(e' & st1 & Hn' & ->)];
      rewrite Hn in Hn'; [discriminate|].
    injection Hn' as <- <-. auto 10.
Qed.

Lemma relinked_lookup (h : list Node.t) t ndt c s nd :
  h !! t = Some ndt -> h !! s = Some nd ->
  exists nd',
    <[t := Node.mk (Node.value ndt) (Some (length h))]> (h ++ [Node.mk c None])
      !! s = Some nd'
    /\ Node.value nd' = Node.value nd.
Proof.
  intros Ht Hs. pose proof (lookup_lt_Some _ _ _ Hs) as Hlt.
  destruct (decide (t = s)) as [->|Hne].
  - eexists. split.
    + apply list_lookup_insert_eq. rewrite length_app. cbn. lia.
    + cbn. congruence.
  - exists nd. split; [|reflexivity].
    rewrite list_lookup_insert_ne by assumption.
    rewrite lookup_app_l by assumption. assumption.
Qed.

(** A call of [next] that ends within the character loop does the same
    when a chunk is appended first, whether or not the end of the source
    is then signalled, and the two orders lead to the same state. *)
Lemma commute_append se st q c res :
  Inv (heap st) (this st) q -> next se st = res -> within_loop res ->
  exists st2 q2 st3,
    appendSource c st = inr st2 /\ Inv (heap st2) (this st2) q2
    /\ appendSource c (result_state res st) = inr st3
    /\ within_loop (result_with res st3)
    /\ forall se', next se' st2 = result_with res st3.
Proof.
  intros HI Hn Hres.
  set (o := match res with
            | Returned (Some t) st1 => IReturn t (this st1)
            | Thrown e _ => IThrow e
            | _ => IContinue (this st)
            end).
  destruct (next_within_loop se st q HI o)
    as (Le & s & nd & x & Hr & Hs & Hnd & Hx & Hit & Hn').
  { subst o. destruct res as [[t|] st1|e st1|]; try contradiction;
      [left|right]; eauto 10. }
  destruct st as [h L]. cbn [heap this] in *.
  assert (exists s0, source L = Some s0) as [s0 Hs0].
  { destruct (source L) as [s0|] eqn:E; [eauto|].
    apply rounds_from_empty in Hr; [|assumption]. congruence. }
  destruct (Inv_tail _ _ _ _ HI Hs0) as (t0 & ndt & Htl & _ & Hndt).
  destruct (rounds_source _ _ _ _ HI Hr _ _ Hs0 Hs) as [_ Htl'].
  pose proof (appendSource_linked c h L s0 t0 ndt Hs0 Htl Hndt) as Ha.
  destruct (appendSource_Inv _ _ _ c HI) as (h2 & s2 & tl2 & Ha2 & HI2 & _).
  rewrite Ha in Ha2. injection Ha2 as <- <- <-.
  set (h2 := <[t0 := Node.mk (Node.value ndt) (Some (length h))]>
               (h ++ [Node.mk c None])) in *.
  pose proof (rounds_relink h t0 ndt c Hndt _ _ _ HI Htl ltac:(eauto) Hr) as Hr2.
  rewrite Hs0, Hs in Hr2. fold h2 in Hr2.
  destruct (relinked_lookup h t0 ndt c s nd Hndt Hnd) as (nd' & Hnd' & Hv).
  fold h2 in Hnd'.
  assert (forall se',
            next_loop (fuel_of h2) h2 se'
              (set_queue (Some s0) (Some (length h)) L)
            = match Iter_set_queue (Some s) (Some (length h)) o with
              | IContinue _ => OutOfFuel
              | IReturn t L' => Ret (Some t) L'
              | IThrow e => Throw e (set_queue (Some s) (Some (length h)) Le)
              end) as Hloop.
  { intros se'. rewrite (next_loop_rounds _ se' _ _ _ HI2 Hr2).
    unfold fuel_of. cbn [next_loop source set_queue sourceOffset].
    rewrite Hnd', Hv, Hx, iteration_set_queue, Hit.
    destruct o; [contradiction|reflexivity..]. }
  exists {| heap := h2; this := set_queue (Some s0) (Some (length h)) L |},
    (q ++ [c]).
  subst o. destruct res as [[t|] st1|e st1|]; try contradiction;
    cbn [result_state result_with within_loop] in *;
    rewrite Hn in Hn'; injection Hn' as ->.
  - destruct (iteration_return_queue _ _ _ _ _ Hit) as [E1 E2].
    exists {| heap := h2;
              this := set_queue (Some s) (Some (length h)) (this st1) |}.
    split; [exact Ha|]. split; [exact HI2|].
    split; [apply (appendSource_linked c h (this st1) s t0 ndt); congruence|].
    split; [cbn; eauto|].
    intros se'. unfold next. cbn [heap this]. rewrite Hloop. reflexivity.
  - exists {| heap := h2; this := set_queue (Some s) (Some (length h)) Le |}.
    split; [exact Ha|]. split; [exact HI2|].
    split; [apply (appendSource_linked c h Le s t0 ndt); congruence|].
    split; [exact I|].
    intros se'. unfold next. cbn [heap this]. rewrite Hloop. reflexivity.
Qed.

Lemma next_false_within_loop st q t st1 :
  Inv (heap st) (this st) q -> next false st = Returned (Some t) st1 ->
  is_Some (source (this st1)).
Proof.
  intros HI Hn.
  destruct (next_run false st q (fun _ _ => True))
    as (L1 & q1 & HI1 & _ & _ & [(r & L' & Ho & Hn')|(e & _ & Hn')]);
    [trivial|assumption|trivial| |congruence].
  rewrite Hn' in Hn. injection Hn as -> <-. cbn [this].
  destruct (exit_cases _ _ _ _ _ HI1 Ho ltac:(discriminate))
    as [(-> & Hs & [(? & _)|(_ & ?)])
       |(v & q0 & c & -> & Hc & [(t' & L2 & Hit & ?)|(e & _ & ?)])];
    try discriminate.
  simplify_eq. destruct (iteration_return_queue _ _ _ _ _ Hit) as [E _].
  destruct (Inv_head _ _ _ _ HI1) as (l & nx & Hl & _). rewrite E. eauto.
Qed.

Lemma append_all_Inv rest :
  forall st q,
    Inv (heap st) (this st) q ->
    exists st' q', append_all rest st = inr st' /\ Inv (heap st') (this st') q'.
Proof.
  induction rest as [|c rest IH]; intros st q HI; cbn [append_all]; [eauto|].
  destruct st as [h L]. cbn [heap this] in HI.
  destruct (appendSource_Inv _ _ _ c HI) as (h' & s & tl & -> & HI' & _).
  apply (IH {| heap := h'; this := set_queue s tl L |} _ HI').
Qed.

Lemma commute_append_all rest :
  forall st q res,
    Inv (heap st) (this st) q -> (forall se, next se st = res) ->
    within_loop res ->
    exists st2 q2 st3,
      append_all rest st = inr st2 /\ Inv (heap st2) (this st2) q2
      /\ append_all rest (result_state res st) = inr st3
      /\ forall se', next se' st2 = result_with res st3.
Proof.
  induction rest as [|c rest IH]; intros st q res HI Hn Hres;
    cbn [append_all].
  - exists st, q, (result_state res st). do 3 (split; [auto|]).
    intros se'. rewrite Hn.
    destruct res as [[?|] ?|? ?|]; try contradiction; reflexivity.
  - destruct (commute_append false st q c res HI (Hn false) Hres)
      as (st2 & q2 & st3 & -> & HI2 & -> & Hres3 & Hn2).
    destruct (IH st2 q2 (result_with res st3) HI2 Hn2 Hres3)
      as (st4 & q4 & st5 & E4 & HI4 & E5 & Hn4).
    exists st4, q4, st5. split; [exact E4|]. split; [exact HI4|].
    split.
    + destruct res as [[?|] ?|? ?|]; try contradiction; exact E5.
    + intros se'. rewrite Hn4.
      destruct res as [[?|] ?|? ?|]; try contradiction; reflexivity.
Qed.

Lemma ahead_append_all rest :
  forall a b,
    ahead a b ->
    exists a' b',
      append_all rest a = inr a' /\ append_all rest b = inr b' /\ ahead a' b'.
Proof.
  induction rest as [|c rest IH]; intros a b Hab; cbn [append_all]; [eauto|].
  destruct (ahead_append a b c Hab) as (a' & b' & -> & -> & Hab'). auto.
Qed.

(** Two states of which one is ahead of the other give the same
    readings. *)
Lemma read_tokens_ahead se fuel :
  forall a b qa qb,
    ahead a b ->
    Inv (heap a) (this a) qa -> Inv (heap b) (this b) qb ->
    (left_to_read (this a) qa < fuel)%nat ->
    (left_to_read (this b) qb < fuel)%nat ->
    outcome (read_tokens fuel se a) = outcome (read_tokens fuel se b).
Proof.
  induction fuel as [|fuel IH]; intros a b qa qb Hab HIa HIb Hfa Hfb; [lia|].
  cbn [read_tokens].
  destruct (ahead_next a b se Hab)
    as (a' & b' & [(r & Ea & Eb)|(e & Ea & Eb)] & Hab'); rewrite Ea, Eb;
    [|reflexivity].
  destruct r as [t|]; [|reflexivity].
  destruct (next_left_to_read _ _ _ _ _ HIa Ea) as (_ & qa' & HIa' & Hlta).
  destruct (next_left_to_read _ _ _ _ _ HIb Eb) as (_ & qb' & HIb' & Hltb).
  pose proof (IH a' b' qa' qb' Hab' HIa' HIb' ltac:(lia) ltac:(lia)) as E.
  destruct (read_tokens fuel se a') as [tsa ra],
    (read_tokens fuel se b') as [tsb rb].
  destruct ra, rb; cbn in E |- *; congruence.
Qed.

Lemma next_null_ahead st q st' :
  Inv (heap st) (this st) q -> next false st = Returned None st' -> ahead st' st.
Proof.
  intros HI Hn.
  destruct (next_run false st q (fun _ _ => True))
    as (L1 & q1 & HI1 & _ & Hr & [(r & L' & Ho & Hn')|(e & _ & Hn')]);
    [trivial|assumption|trivial| |congruence].
  rewrite Hn' in Hn. injection Hn as -> <-.
  destruct (exit_cases _ _ _ _ _ HI1 Ho ltac:(discriminate))
    as [(-> & Hsrc & [(? & _)|(_ & E)])
       |(v & q0 & c & -> & Hc & [(t & L2 & Hit & ?)|(e & _ & ?)])];
    try discriminate.
  injection E as ->.
  split; [eauto|]. split; [eauto|]. split; [reflexivity|].
  split; [exact Hr|]. exists 0%nat. split; [reflexivity|]. intros; lia.
Qed.

Lemma read_tokens_S fuel se st :
  read_tokens (S fuel) se st
  = match next se st with
    | Returned (Some t) st' =>
        let '(ts, r) := read_tokens fuel se st' in (t :: ts, r)
    | Returned None st' => ([], Drained st')
    | Thrown e _ => ([], Threw e)
    | Diverged => ([], Unfinished)
    end.
Proof. reflexivity. Qed.

Lemma outcome_cons t x :
  outcome (let '(ts, r) := x in (t :: ts, r))
  = let '(ts, v) := outcome x in (t :: ts, v).
Proof. destruct x as [ts [?|?|]]; reflexivity. Qed.

(** Reading all tokens before further chunks are appended, and reading
    them after: the tokens that the early reading returns are the first
    that the late reading returns, and the late reading goes on as a
    reading does from the state the early one left. *)
Lemma reading_commutes c rest fuel :
  forall a qa ts ending,
    Inv (heap a) (this a) qa ->
    read_tokens fuel false a = (ts, ending) ->
    (left_to_read (this a) qa < fuel)%nat ->
    exists b qb,
      append_all (c :: rest) a = inr b /\ Inv (heap b) (this b) qb
      /\ match ending with
         | Drained a2 =>
             exists q2 a2r q2r,
               Inv (heap a2) (this a2) q2
               /\ append_all (c :: rest) a2 = inr a2r
               /\ Inv (heap a2r) (this a2r) q2r
               /\ forall N,
                    (left_to_read (this b) qb < N)%nat ->
                    (left_to_read (this a2r) q2r < N)%nat ->
                    outcome (read_tokens N true b)
                    = let '(ts', v) := outcome (read_tokens N true a2r) in
                      (ts ++ ts', v)
         | Threw e =>
             forall N, (left_to_read (this b) qb < N)%nat ->
                       outcome (read_tokens N true b) = (ts, Failed e)
         | Unfinished => False
         end.
Proof.
  induction fuel as [|fuel IH]; intros a qa ts ending HI Hrd Hf; [lia|].
  cbn [read_tokens] in Hrd.
  destruct (next false a) as [[t|] a'|e a'|] eqn:Hn.
  - (* a token: the late reading returns it too *)
    pose proof (next_false_within_loop _ _ _ _ HI Hn) as Hsrc.
    destruct (next_left_to_read _ _ _ _ _ HI Hn) as (_ & qa' & HI' & Hlt).
    destruct (commute_append false a qa c _ HI Hn Hsrc)
      as (st2 & q2 & st3 & E2 & HI2 & E3 & Hres3 & Hn2).
    destruct (commute_append_all rest st2 q2 _ HI2 Hn2 Hres3)
      as (b & qb & st5 & Eb & HIb & E5 & Hnb).
    cbn [result_state result_with] in *.
    destruct (read_tokens fuel false a') as [ts' ending'] eqn:Hrd'.
    injection Hrd as <- <-.
    destruct (IH a' qa' ts' ending' HI' Hrd' ltac:(lia))
      as (b' & qb' & Eb' & HIb' & Hend).
    assert (b' = st5) as ->.
    { cbn [append_all] in Eb'. rewrite E3 in Eb'. congruence. }
    exists b, qb. split; [cbn [append_all]; rewrite E2; exact Eb|].
    split; [exact HIb|].
    destruct (next_left_to_read _ _ _ _ _ HIb (Hnb true)) as (_ & q5 & HI5 & Hlt5).
    pose proof (Inv_unique _ _ _ _ HI5 HIb'). subst q5.
    destruct ending' as [a2|e|]; [| |contradiction].
    + destruct Hend as (q2' & a2r & q2r & HI2' & Ea2 & HI2r & Hout).
      exists q2', a2r, q2r. do 3 (split; [assumption|]).
      intros [|N] HN HN2; [lia|].
      rewrite (read_tokens_S N true b), (Hnb true), outcome_cons.
      rewrite (read_tokens_fuel true N (S N) st5 qb') by (assumption || lia).
      rewrite (Hout (S N) ltac:(lia) HN2).
      destruct (outcome (read_tokens (S N) true a2r)). reflexivity.
    + intros [|N] HN; [lia|].
      rewrite (read_tokens_S N true b), (Hnb true), outcome_cons.
      rewrite (Hend N ltac:(lia)). reflexivity.
  - (* null: the early reading is over *)
    injection Hrd as <- <-.
    pose proof (next_null_ahead _ _ _ HI Hn) as Hah.
    destruct (ahead_append_all (c :: rest) a' a Hah)
      as (a2r & b & Ea2 & Eb & Hah').
    pose proof Hah' as ([q2r HI2r] & [qb HIb] & _).
    pose proof Hah as ([q2 HI2] & _).
    exists b, qb. split; [exact Eb|]. split; [exact HIb|].
    exists q2, a2r, q2r. do 3 (split; [assumption|]).
    intros N HN HN2.
    rewrite <- (read_tokens_ahead true N a2r b q2r qb Hah' HI2r HIb HN2 HN).
    destruct (outcome (read_tokens N true a2r)). reflexivity.
  - (* an exception: the late reading raises it too *)
    injection Hrd as <- <-.
    destruct (commute_append false a qa c _ HI Hn I)
      as (st2 & q2 & st3 & E2 & HI2 & E3 & Hres3 & Hn2).
    destruct (commute_append_all rest st2 q2 _ HI2 Hn2 Hres3)
      as (b & qb & st5 & Eb & HIb & E5 & Hnb).
    exists b, qb. split; [cbn [append_all]; rewrite E2; exact Eb|].
    split; [exact HIb|].
    intros [|N] HN; [lia|].
    rewrite (read_tokens_S N true b), (Hnb true). reflexivity.
  - exfalso. eapply next_total; eassumption.
Qed.

Lemma feed_queued_outcome chunks st st1 :
  append_all chunks st = inr st1 ->
  feed_queued chunks st = outcome (read_tokens (tokens_fuel st1) true st1).
Proof.
  intros E. unfold feed_queued. rewrite E.
  destruct (read_tokens (tokens_fuel st1) true st1) as [ts [?|?|]];
    reflexivity.
Qed.

Lemma feed_is_feed_queued rest :
  forall c st q,
    Inv (heap st) (this st) q -> feed (c :: rest) st = feed_queued (c :: rest) st.
Proof.
  induction rest as [|c' rest IH]; intros c st q HI.
  - unfold feed_queued. cbn [feed append_all].
    destruct (appendSource c st) as [e|st1]; [reflexivity|].
    rewrite bool_decide_eq_true_2 by reflexivity.
    destruct (read_tokens (tokens_fuel st1) true st1) as [ts [st2|e|]];
      try reflexivity.
    rewrite app_nil_r. reflexivity.
  - destruct st as [h L]. cbn [heap this] in HI.
    destruct (appendSource_Inv _ _ _ c HI) as (h1 & s1 & tl1 & Ha & HI1 & _).
    set (st1 := {| heap := h1; this := set_queue s1 tl1 L |}) in *.
    change (feed (c :: c' :: rest) {| heap := h; this := L |})
      with (match appendSource c {| heap := h; this := L |} with
            | inl e => ([], Failed e)
            | inr st1 =>
                match read_tokens (tokens_fuel st1)
                        (bool_decide (c' :: rest = [])) st1 with
                | (ts, Threw e) => (ts, Failed e)
                | (ts, Unfinished) => (ts, Incomplete)
                | (ts, Drained st2) =>
                    let '(ts', r) := feed (c' :: rest) st2 in (ts ++ ts', r)
                end
            end).
    rewrite Ha. rewrite bool_decide_eq_false_2 by discriminate.
    destruct (read_tokens (tokens_fuel st1) false st1) as [ts ending] eqn:Hrd.
    destruct (reading_commutes c' rest (tokens_fuel st1) st1 _ ts ending
                HI1 Hrd (tokens_fuel_enough st1 _ HI1))
      as (b & qb & Eb & HIb & Hend).
    rewrite (feed_queued_outcome (c :: c' :: rest) _ b)
      by (cbn [append_all]; rewrite Ha; exact Eb).
    destruct ending as [a2|e|]; [| |contradiction].
    + destruct Hend as (q2 & a2r & q2r & HI2 & Ea2 & HI2r & Hout).
      rewrite (IH c' a2 q2 HI2), (feed_queued_outcome _ _ _ Ea2).
      set (N := S (tokens_fuel b + tokens_fuel a2r)).
      pose proof (tokens_fuel_enough b _ HIb) as Hb.
      pose proof (tokens_fuel_enough a2r _ HI2r) as H2.
      rewrite (read_tokens_fuel true (tokens_fuel b) N b qb)
        by (assumption || lia).
      rewrite (read_tokens_fuel true (tokens_fuel a2r) N a2r q2r)
        by (assumption || lia).
      rewrite (Hout N ltac:(lia) ltac:(lia)). reflexivity.
    + rewrite (Hend _ (tokens_fuel_enough b _ HIb)). reflexivity.
Qed.

(** X16.  Reading the tokens after each chunk and reading them once every
    chunk is queued give the same tokens and end the same way: when the
    caller reads does not matter, only what it appends. *)
Theorem reading_early_or_late chunks : lex chunks = lex_queued chunks.
Proof.
  destruct chunks as [|c rest].
  - vm_compute. reflexivity.
  - apply (feed_is_feed_queued rest c State_new []). apply Inv_new.
Qed.

(** X17.  A call of [next] that raises, or that returns a token while a chunk
    is still queued (as every call that returns a token does when the end
    of the source is not signalled), does the same when a chunk is
    appended before the call instead of after it, with or without the
    signal, and the two orders leave the same state. *)
Theorem append_commutes_with_next st chunks toks se c res :
  session st chunks toks -> next se st = res -> within_loop res ->
  exists st2 st3,
    appendSource c st = inr st2
    /\ appendSource c (result_state res st) = inr st3
    /\ forall se', next se' st2 = result_with res st3.
Proof.
  intros Hs Hn Hres. destruct (session_Inv _ _ _ Hs) as [q HI].
  destruct (commute_append se st q c res HI Hn Hres)
    as (st2 & q2 & st3 & ? & _ & ? & _ & ?).
  eauto.
Qed.

Lemma append_commutes_with_next_witness :
  exists st2 st3,
    appendSource (str "c") example_state_1 = inr st2
    /\ appendSource (str "c") example_state_2 = inr st3
    /\ forall se', next se' st2 = Returned (Some example_token_1) st3.
Proof.
  apply (append_commutes_with_next example_state_1 [example_chunk] [] false
           (str "c") (Returned (Some example_token_1) example_state_2)
           example_session_1).
  - vm_compute. reflexivity.
  - vm_compute. eauto.
Defined.

(** * Chunk boundaries that do not show *)

(** The test of the hexadecimal prefix, on a text held as a slice. *)
Lemma hex_check_slice v L t :
  0 <= tokenValueOffset L < sourceOffset L ->
  sourceOffset L <= Z.of_nat (length v) ->
  hex_prefix_check v L t
  = inr (negb (bool_decide (text_of v L t = [UC.DIGIT_ZERO]))).
Proof.
  intros Hr Hlen. unfold hex_prefix_check, text_of.
  destruct (Z.eqb_spec (tokenValueOffset L) (-1)) as [E|_]; [lia|]. cbn.
  destruct (lookup_lt_is_Some_2 v (Z.to_nat (tokenValueOffset L)) ltac:(lia))
    as [x Hx].
  assert (charCodeAt v (tokenValueOffset L) = Some x) as Hc.
  { unfold charCodeAt. destruct (Z.leb_spec 0 (tokenValueOffset L)); [|lia].
    exact Hx. }
  rewrite Hc.
  destruct (Z.eqb_spec (tokenValueOffset L) (sourceOffset L - 1)) as [E|E]; cbn.
  - replace (sourceOffset L) with (tokenValueOffset L + 1) by lia.
    rewrite (substring_one v (tokenValueOffset L) x ltac:(lia) Hx).
    destruct (decide (x = UC.DIGIT_ZERO)) as [->|Hne].
    + rewrite !bool_decide_eq_true_2 by reflexivity. reflexivity.
    + rewrite !bool_decide_eq_false_2 by congruence. reflexivity.
  - rewrite bool_decide_eq_false_2; [reflexivity|].
    intros Etx. apply (f_equal length) in Etx. cbn in Etx.
    pose proof (substring_length v (tokenValueOffset L) (sourceOffset L)
                  ltac:(lia) ltac:(lia)). lia.
Qed.

(** What the invariant says of the text of a token in progress. *)
Lemma text_facts h L v q t :
  Inv h L (v :: q) -> token L = Some t -> type t <> LINE ->
  Z.of_nat (length (text_of v L t)) = tokenOffset L - offset t
  /\ offset t < tokenOffset L
  /\ sourceOffset L <= Z.of_nat (length v)
  /\ ((tokenValueOffset L = -1 /\ value t = VStr (text_of v L t))
      \/ 0 <= tokenValueOffset L < sourceOffset L).
Proof.
  intros (_ & Ho & Ht) Htok Hty. cbn in Ho.
  unfold token_ok in Ht. rewrite Htok in Ht. destruct Ht as (_ & Hpos & Ht).
  assert (TokenKind_eqb (type t) LINE = false) as E
    by (destruct (type t); try reflexivity; congruence).
  rewrite E in Ht. unfold text_of.
  destruct Ht as [(Hv & s & Hs & Hlen)|(Hr & _ & Hlen)].
  - rewrite Hv, Hs. cbn. change (to_js_string (VStr s)) with s.
    split; [lia|]. split; [lia|]. split; [lia|]. left. auto.
  - destruct (Z.eqb_spec (tokenValueOffset L) (-1)); [lia|].
    rewrite substring_length by lia. split; [lia|]. split; [lia|].
    split; [lia|]. right. lia.
Qed.

Lemma text_facts_nil h L t :
  Inv h L [] -> token L = Some t -> type t <> LINE ->
  tokenValueOffset L = -1 /\ value t = VStr (text_of [] L t).
Proof.
  intros (_ & _ & Ht) Htok Hty.
  unfold token_ok in Ht. rewrite Htok in Ht. destruct Ht as (_ & _ & Ht).
  assert (TokenKind_eqb (type t) LINE = false) as E
    by (destruct (type t); try reflexivity; congruence).
  rewrite E in Ht. unfold text_of.
  destruct Ht as [(Hv & s & Hs & _)|(_ & ? & _)]; [|congruence].
  rewrite Hv, Hs. auto.
Qed.

(** Two lexers that keep reading the same token with the same codepoint. *)
Lemma sim_keep c vA qA LA tA tA' vB qB LB tB tB' :
  (tokenValueOffset LA = -1 \/ 0 <= tokenValueOffset LA <= sourceOffset LA) ->
  (tokenValueOffset LB = -1 \/ 0 <= tokenValueOffset LB <= sourceOffset LB) ->
  vA !! Z.to_nat (sourceOffset LA) = Some c ->
  vB !! Z.to_nat (sourceOffset LB) = Some c ->
  value tA' = value tA -> value tB' = value tB ->
  type tA' = type tB' -> same_start tA' tB' ->
  text_of vA LA tA = text_of vB LB tB ->
  same_token
    (advance (set_token (Some (if tokenValueOffset LA =? -1
                               then append_char c tA' else tA')) LA))
    (vA :: qA)
    (advance (set_token (Some (if tokenValueOffset LB =? -1
                               then append_char c tB' else tB')) LB))
    (vB :: qB).
Proof.
  intros HcA HcB HA HB HvA HvB Hty Hst Htx.
  unfold same_token.
  cbn [token advance set_position set_sourceOffset set_token hd].
  split; [destruct (_ =? _), (_ =? _); exact Hty|].
  split; [destruct (_ =? _), (_ =? _); exact Hst|].
  intros _.
  rewrite (keep_reading_text vA c tA tA' LA HcA HA HvA).
  rewrite (keep_reading_text vB c tB tB' LB HcB HB HvB).
  congruence.
Qed.

(** Two lexers that flush the same token return the same token. *)
Lemma sim_flush hA LA vA qA tA hB LB vB qB tB :
  Inv hA LA (vA :: qA) -> Inv hB LB (vB :: qB) ->
  token LA = Some tA -> token LB = Some tB ->
  tokenOffset LA = tokenOffset LB ->
  type tA = type tB -> same_start tA tB ->
  (type tA <> LINE -> text_of vA LA tA = text_of vB LB tB) ->
  type tA <> TEXT ->
  exists t LA' LB',
    flushToken (Some vA) LA = inr (t, LA')
    /\ flushToken (Some vB) LB = inr (t, LB').
Proof.
  intros HIA HIB HtA HtB Hto Hty Hst Htx Hnt.
  destruct (decide (type tA = LINE)) as [Hl|Hl].
  - rewrite (line_flush _ _ _ HtA Hl), (line_flush _ _ _ HtB ltac:(congruence)).
    destruct Hst as (E1 & E2 & E3).
    do 3 eexists. split; [reflexivity|]. do 2 f_equal.
    rewrite Hto, E1. apply set_value_same_start; [congruence|].
    repeat split; assumption.
  - assert (symbol_or_number (type tA) = true) as Hk.
    { destruct HIA as (_ & _ & Ht). unfold token_ok in Ht. rewrite HtA in Ht.
      destruct Ht as (Hk & _). destruct (type tA); try discriminate Hk;
        try reflexivity; congruence. }
    destruct (flush_value _ _ _ _ _ HIA HtA Hk) as (LA' & -> & _).
    destruct (flush_value _ _ _ _ _ HIB HtB ltac:(congruence)) as (LB' & -> & _).
    do 3 eexists. split; [reflexivity|]. do 2 f_equal.
    rewrite <- (Htx Hl). apply set_value_same_start; [congruence|assumption].
Qed.

Lemma start_text v c k L :
  0 <= sourceOffset L -> v !! Z.to_nat (sourceOffset L) = Some c ->
  text_of v
    (advance (set_tokenValueOffset (sourceOffset L)
                (set_token (Some (makeToken k L)) L)))
    (makeToken k L) = [c].
Proof.
  intros Ho Hc. unfold text_of. cbn.
  destruct (Z.eqb_spec (sourceOffset L) (-1)); [lia|].
  rewrite (substring_snoc v (sourceOffset L) (sourceOffset L) c ltac:(lia) Hc),
    substring_empty.
  reflexivity.
Qed.

Lemma makeToken_eq k LA LB :
  tokenOffset LA = tokenOffset LB -> tokenLine LA = tokenLine LB ->
  tokenColumn LA = tokenColumn LB -> makeToken k LA = makeToken k LB.
Proof. unfold makeToken. congruence. Qed.

Lemma sim_branch chunks hA LA vA qA hB LB vB c :
  Forall clean_start (tail chunks) ->
  Inv hA LA (vA :: qA) -> Inv hB LB [vB] ->
  Whole chunks LA (vA :: qA) LB [vB] ->
  charCodeAt vA (sourceOffset LA) = Some c ->
  charCodeAt vB (sourceOffset LB) = Some c ->
  same_branch (tokenOffset LA - sourceOffset LA) vA qA vB
    (branch vA c LA) (branch vB c LB).
Proof.
  intros Hclean HIA HIB (W1 & Eto & Etl & Etc & W3 & W4 & k & Hk & Hcs & Hbuf)
    HcA HcB.
  destruct W4 as [?|(vB' & [= <-] & HsoB & Hslice)]; [discriminate|].
  pose proof HIA as (_ & HoA & HtA). pose proof HIB as (_ & HoB & HtB).
  cbn in HoA, HoB.
  apply charCodeAt_Some in HcA as [HrA HcA], HcB as [HrB HcB].
  unfold branch. unfold same_token in W3. cbn [hd] in W3.
  destruct (token LA) as [tA|] eqn:HtokA, (token LB) as [tB|] eqn:HtokB;
    try contradiction.
  - (* a token is in progress *)
    destruct W3 as (Hty & Hst & Htx).
    pose proof (token_ok_capture _ _ _ HtA HoA HtokA) as HcapA.
    pose proof (token_ok_capture _ _ _ HtB HoB HtokB) as HcapB.
    assert (forall tA' tB',
              value tA' = value tA -> value tB' = value tB ->
              type tA' = type tB' -> same_start tA' tB' ->
              offset tA' = offset tA -> type tA <> LINE -> type tA' <> LINE ->
              same_branch (tokenOffset LA - sourceOffset LA) vA qA vB
                (keep_reading c tA' LA) (keep_reading c tB' LB))
      as Hkeep.
    { intros tA' tB' HvA HvB Hty' Hst' Hoff Hn Hn'. split; [reflexivity|].
      split; [apply (sim_keep c vA qA LA tA tA' vB [] LB tB tB'); auto|]. split.
      - cbn. intros t [= <-] _. apply (Hslice tB); congruence.
      - cbn. intros t [= <-]. destruct (Hbuf tA eq_refl) as [Hnn Hb].
        split; [destruct (_ =? _); cbn; lia|].
        intros _ Hv. rewrite Hv. cbn. rewrite Hoff. auto. }
    assert (type tA <> TEXT ->
            same_branch (tokenOffset LA - sourceOffset LA) vA qA vB
              (return_flush vA LA) (return_flush vB LB)) as Hflush.
    { intros Hnt.
      destruct (sim_flush _ _ _ _ _ _ _ _ _ _ HIA HIB HtokA HtokB Eto Hty Hst
                  Htx Hnt) as (t & LA' & LB' & EA & EB).
      unfold return_flush. rewrite EA, EB. split; [reflexivity|].
      apply flushToken_frame in EA as (_ & _ & _ & _ & _ & _ & EA).
      apply flushToken_frame in EB as (_ & _ & _ & _ & _ & _ & EB).
      unfold same_progress, same_token. rewrite EA, EB.
      split; [exact I|]. split; intros; discriminate. }
    unfold continue_token. rewrite <- Hty.
    destruct (type tA) eqn:HtyA;
      try reflexivity;
      try specialize (Hflush ltac:(discriminate)).
    + (* Line *)
      destruct (UC.is_space c); cbn [negb]; [|exact Hflush].
      split; [reflexivity|]. unfold same_progress, same_token. cbn.
      rewrite HtokA, HtokB, HtyA.
      split; [split; [congruence|split; [assumption|contradiction]]|].
      split; intros t [= <-]; [congruence|].
      split; [apply (Hbuf tA eq_refl)|congruence].
    + (* DecimalNumber *)
      destruct (Z.eqb_spec c UC.SMALL_LETTER_X) as [->|Hx].
      { specialize (Htx ltac:(discriminate)).
        destruct (text_facts _ _ _ _ _ HIA HtokA ltac:(congruence))
          as (HlenA & HposA & HsoA & HmodeA).
        destruct (text_facts _ _ _ _ _ HIB HtokB ltac:(congruence))
          as (HlenB & _ & HsoB' & HmodeB).
        destruct HmodeB as [[HvB _]|HrB'];
          [exfalso; apply (Hslice tB); congruence|].
        rewrite (hex_check_slice vB LB tB HrB' HsoB').
        destruct HmodeA as [[HvA HsA]|HrA'].
        - (* the text is a copy: it began before this chunk *)
          unfold hex_prefix_check. rewrite HvA, HsA. cbn.
          destruct (Hbuf tA eq_refl) as [Hnn Hbefore].
          specialize (Hbefore ltac:(congruence) HvA).
          destruct (Z.eqb_spec (Z.of_nat (length (text_of vA LA tA))) 1)
            as [E1|E1]; cbn.
          + (* one codepoint long: "x" would begin the chunk *)
            exfalso.
            assert (sourceOffset LA = 0) as Hso0 by lia.
            assert (0 < k)%nat as Hkpos.
            { destruct k; [|lia]. rewrite take_0 in Hcs. cbn in Hcs. lia. }
            assert (chunks !! k = Some vA) as Hck.
            { rewrite <- (Nat.add_0_r k), <- lookup_drop, <- Hk. reflexivity. }
            assert (clean_start vA) as Hcl.
            { rewrite Forall_forall in Hclean. apply Hclean.
              apply list_elem_of_lookup. exists (k - 1)%nat.
              destruct chunks as [|c0 chunks']; [discriminate Hck|]. cbn.
              destruct k; [lia|]. cbn in Hck |- *.
              rewrite Nat.sub_0_r. exact Hck. }
            rewrite Hso0 in HcA. destruct vA as [|x vA']; [discriminate|].
            cbn in HcA. injection HcA as ->. destruct Hcl as [Hcl _].
            apply Hcl. reflexivity.
          + rewrite bool_decide_eq_false_2; [reflexivity|].
            rewrite <- Htx. intros E. rewrite E in E1. cbn in E1. lia.
        - rewrite (hex_check_slice vA LA tA HrA' HsoA), Htx.
          destruct (bool_decide _); cbn; [|reflexivity].
          apply (Hkeep (set_type HEX_NUMBER tA) (set_type HEX_NUMBER tB));
            try reflexivity; try discriminate; apply Hst. }
      destruct (c =? UC.FULL_STOP).
      { apply (Hkeep (set_type FRACTIONAL_NUMBER tA)
                 (set_type FRACTIONAL_NUMBER tB));
          try reflexivity; try discriminate; apply Hst. }
      destruct (UC.is_decdigit c); cbn [negb]; [|exact Hflush].
      apply (Hkeep tA tB); try reflexivity; try congruence; apply Hst.
    + (* HexNumber *)
      destruct (UC.is_hexdigit c); [|exact Hflush].
      apply (Hkeep tA tB); try reflexivity; try congruence; apply Hst.
    + (* FractionalNumber *)
      match goal with
      | |- context [if ?b then _ else _] => destruct b
      end; [|exact Hflush].
      apply (Hkeep tA tB); try reflexivity; try congruence; apply Hst.
    + (* Symbol *)
      destruct (is_symbol_character c); [|exact Hflush].
      apply (Hkeep tA tB); try reflexivity; try congruence; apply Hst.
  - (* no token is in progress *)
    assert (makeToken_same : forall k0, makeToken k0 LA = makeToken k0 LB)
      by (intros; apply makeToken_eq; assumption).
    assert (forall k0, k0 <> LINE ->
              same_branch (tokenOffset LA - sourceOffset LA) vA qA vB
                (Fall None (set_tokenValueOffset (sourceOffset LA)
                              (set_token (Some (makeToken k0 LA)) LA)))
                (Fall None (set_tokenValueOffset (sourceOffset LB)
                              (set_token (Some (makeToken k0 LB)) LB))))
      as Hstart.
    { intros k0 Hk0. split; [reflexivity|].
      unfold same_progress, same_token.
      cbn [token advance set_position set_sourceOffset set_token
             set_tokenValueOffset hd tokenValueOffset].
      split; [|split].
      - split; [reflexivity|]. split; [repeat split; cbn; congruence|]. intros _.
        rewrite (start_text vA c k0 LA ltac:(lia) HcA).
        rewrite (start_text vB c k0 LB ltac:(lia) HcB). reflexivity.
      - intros t _ _. lia.
      - intros t [= <-]. cbn. split; [lia|]. intros _ E. lia. }
    assert (forall LA1 LB1,
              token LA1 = None -> token LB1 = None ->
              same_progress (tokenOffset LA - sourceOffset LA) vA qA vB
                (advance LA1) (advance LB1)) as Hnone.
    { intros LA1 LB1 EA EB. unfold same_progress, same_token. cbn.
      rewrite EA, EB. split; [exact I|]. split; intros; discriminate. }
    assert (forall LA1 LB1 tA tB,
              token LA1 = Some tA -> token LB1 = Some tB ->
              type tA = LINE -> type tB = LINE -> same_start tA tB ->
              0 <= offset tA ->
              same_progress (tokenOffset LA - sourceOffset LA) vA qA vB
                (advance LA1) (advance LB1)) as Hline.
    { intros LA1 LB1 tA tB EA EB HA HB Hst Hnn.
      unfold same_progress, same_token. cbn. rewrite EA, EB.
      split; [split; [congruence|split; [assumption|contradiction]]|].
      split; intros t [= <-]; [congruence|]. split; [assumption|congruence]. }
    unfold start_token.
    destruct (SINGLE_TOKENS c) as [k0|].
    { split; [rewrite makeToken_same; reflexivity|]. apply Hnone; assumption. }
    destruct (Z.eqb_spec c UC.LINE_FEED) as [->|Hlf].
    { split; [reflexivity|].
      eapply Hline; try reflexivity; [repeat split; cbn; congruence|cbn; lia]. }
    destruct (c =? UC.APOSTROPHE); [apply Hstart; discriminate|].
    destruct (UC.is_decdigit c); [apply Hstart; discriminate|].
    destruct (is_symbol_character c); [apply Hstart; discriminate|].
    destruct (UC.is_whitespace c) eqn:Hw; [|reflexivity].
    assert ((sourceOffset LA =? 0) = (sourceOffset LB =? 0)) as ->.
    { destruct (Z.eqb_spec (sourceOffset LA) 0) as [E|E];
        destruct (Z.eqb_spec (sourceOffset LB) 0) as [E'|E'];
        try reflexivity; [|lia].
      exfalso.
      assert (0 < k)%nat as Hkpos.
      { destruct k; [|lia]. rewrite take_0 in Hcs. cbn in Hcs. lia. }
      assert (chunks !! k = Some vA) as Hck.
      { rewrite <- (Nat.add_0_r k), <- lookup_drop, <- Hk. reflexivity. }
      assert (clean_start vA) as Hcl.
      { rewrite Forall_forall in Hclean. apply Hclean.
        apply list_elem_of_lookup. exists (k - 1)%nat.
        destruct chunks as [|c0 chunks']; [discriminate Hck|]. cbn.
        destruct k; [lia|]. cbn in Hck |- *.
        rewrite Nat.sub_0_r. exact Hck. }
      rewrite E in HcA. destruct vA as [|x vA']; [discriminate|].
      cbn in HcA. injection HcA as ->. destruct Hcl as [_ Hcl]. auto. }
    destruct (sourceOffset LB =? 0).
    + split; [reflexivity|].
      eapply Hline; try reflexivity; [repeat split; cbn; congruence|cbn; lia].
    + split; [reflexivity|]. apply Hnone; assumption.
Qed.

(** The relation after a pass through the loop body, from what the pass
    does to the token in progress: the codepoint is consumed by both
    lexers, or by neither. *)
Lemma Whole_step chunks LA vA qA LB vB c LA' LB' :
  Whole chunks LA (vA :: qA) LB [vB] ->
  charCodeAt vA (sourceOffset LA) = Some c ->
  charCodeAt vB (sourceOffset LB) = Some c ->
  same_progress (tokenOffset LA - sourceOffset LA) vA qA vB LA' LB' ->
  (sourceOffset LA' = sourceOffset LA + 1
   /\ tokenOffset LA' = tokenOffset LA + 1
   /\ (tokenLine LA', tokenColumn LA')
      = position_step is_line_feed (tokenLine LA, tokenColumn LA) c
   /\ sourceOffset LB' = sourceOffset LB + 1
   /\ tokenOffset LB' = tokenOffset LB + 1
   /\ (tokenLine LB', tokenColumn LB')
      = position_step is_line_feed (tokenLine LB, tokenColumn LB) c)
  \/ (sourceOffset LA' = sourceOffset LA /\ tokenOffset LA' = tokenOffset LA
      /\ tokenLine LA' = tokenLine LA /\ tokenColumn LA' = tokenColumn LA
      /\ sourceOffset LB' = sourceOffset LB /\ tokenOffset LB' = tokenOffset LB
      /\ tokenLine LB' = tokenLine LB /\ tokenColumn LB' = tokenColumn LB) ->
  Whole chunks LA' (vA :: qA) LB' [vB].
Proof.
  intros (W1 & Eto & Etl & Etc & W3 & W4 & k & Hk & Hcs & Hbuf) HcA HcB
    (P1 & P2 & P3) Hframe.
  destruct W4 as [?|(vB' & [= <-] & HsoB & Hslice)]; [discriminate|].
  destruct Hframe as [(A1 & A2 & A3 & B1 & B2 & B3)
                     |(A1 & A2 & A3 & A4 & B1 & B2 & B3 & B4)].
  - rewrite (pend_char LA LA' vA qA c HcA A1) in W1.
    rewrite (pend_char LB LB' vB [] c HcB B1) in W1.
    rewrite Etl, Etc in A3. rewrite <- B3 in A3. injection A3 as E1 E2.
    split; [congruence|]. split; [lia|]. split; [assumption|].
    split; [assumption|]. split; [assumption|].
    split; [right; exists vB; split; [reflexivity|]; split; [lia|assumption]|].
    exists k. split; [assumption|]. split; [lia|].
    replace (tokenOffset LA' - sourceOffset LA')
      with (tokenOffset LA - sourceOffset LA) by lia.
    assumption.
  - split; [unfold pend in *; congruence|]. split; [lia|].
    split; [congruence|]. split; [congruence|]. split; [assumption|].
    split; [right; exists vB; split; [reflexivity|]; split; [lia|assumption]|].
    exists k. split; [assumption|]. split; [lia|].
    replace (tokenOffset LA' - sourceOffset LA')
      with (tokenOffset LA - sourceOffset LA) by lia.
    assumption.
Qed.

Lemma sim_iteration chunks hA LA vA qA hB LB vB c :
  Forall clean_start (tail chunks) ->
  Inv hA LA (vA :: qA) -> Inv hB LB [vB] ->
  Whole chunks LA (vA :: qA) LB [vB] ->
  charCodeAt vA (sourceOffset LA) = Some c ->
  charCodeAt vB (sourceOffset LB) = Some c ->
  same_iteration chunks (vA :: qA) [vB] (iteration vA c LA) (iteration vB c LB).
Proof.
  intros Hclean HIA HIB HW HcA HcB.
  pose proof (sim_branch _ _ _ _ _ _ _ _ _ Hclean HIA HIB HW HcA HcB) as Hb.
  pose proof (branch_position vA c LA) as HpA.
  pose proof (branch_position vB c LB) as HpB.
  unfold iteration, same_branch in *.
  destruct (branch vA c LA) as [tokA LA1|tA LA1|eA],
    (branch vB c LB) as [tokB LB1|tB LB1|eB]; try contradiction; cbn.
  - destruct Hb as [<- Hb].
    assert (Whole chunks (advance LA1) (vA :: qA) (advance LB1) [vB]) as HW'.
    { eapply Whole_step; try eassumption. left. tauto. }
    destruct tokA; cbn; auto.
  - destruct Hb as [<- Hb]. split; [reflexivity|].
    eapply Whole_step; try eassumption. right. tauto.
  - assumption.
Qed.

Lemma Whole_single chunks LA qA LB qB :
  Whole chunks LA qA LB qB -> qB = [] \/ exists vB, qB = [vB].
Proof.
  intros (_ & _ & _ & _ & _ & [?|(vB & ? & _)] & _); eauto.
Qed.

Lemma pend_single_head L v c rest :
  0 <= sourceOffset L -> pend L [v] = c :: rest ->
  charCodeAt v (sourceOffset L) = Some c.
Proof.
  intros Ho Hp. unfold pend in Hp. cbn in Hp. rewrite app_nil_r in Hp.
  unfold charCodeAt. destruct (Z.leb_spec 0 (sourceOffset L)); [|lia].
  rewrite <- (Nat.add_0_r (Z.to_nat _)), <- lookup_drop, Hp. reflexivity.
Qed.

(** The one lexer drops an exhausted chunk; the other is where it was. *)
Lemma sim_chunk_end_A chunks hA LA vA qA nx LA' LB qB :
  Inv hA LA (vA :: qA) ->
  Whole chunks LA (vA :: qA) LB qB ->
  charCodeAt vA (sourceOffset LA) = None ->
  chunk_end (Node.mk vA nx) LA = inr LA' ->
  pend LA (vA :: qA) = pend LA' qA -> sourceOffset LA' = 0 ->
  Whole chunks LA' qA LB qB.
Proof.
  intros HIA (W1 & Eto & Etl & Etc & W3 & W4 & k & Hk & Hcs & Hbuf) Hc Hce Hp
    Hso'.
  pose proof (chunk_end_frame _ _ _ Hce) as (Fto & Ftl & Ftc & Ftv & Htk).
  pose proof HIA as (_ & Ho & Ht). cbn in Ho.
  apply charCodeAt_None in Hc; [|lia].
  assert (chunks !! k = Some vA) as Hck.
  { rewrite <- (Nat.add_0_r k), <- lookup_drop, <- Hk. reflexivity. }
  split; [congruence|]. split; [congruence|]. split; [congruence|].
  split; [congruence|]. split.
  { unfold same_token in *. cbn [hd] in W3.
    destruct (token LA) as [tA|] eqn:HtokA, (token LA') as [tA'|] eqn:HtokA';
      try contradiction; [|assumption].
    destruct (token LB) as [tB|]; [|contradiction].
    destruct Htk as [(E1 & E2 & E3) Ety]. destruct W3 as (Hty & (S1 & S2 & S3) & Htx).
    split; [congruence|]. split; [repeat split; congruence|].
    rewrite Ety. intros Hn. rewrite <- (Htx Hn).
    unfold text_of at 1. rewrite Ftv. cbn.
    symmetry. eapply chunk_end_text; try eassumption. lia. }
  split; [assumption|].
  exists (S k).
  split; [rewrite <- (Nat.add_1_r k), <- drop_drop, <- Hk; reflexivity|].
  split.
  { rewrite (take_S_r _ _ _ Hck), concat_app, length_app. cbn.
    rewrite app_nil_r. lia. }
  intros t' Ht'. rewrite Ht' in Htk.
  destruct (token LA) as [tA|] eqn:HtokA; [|contradiction].
  destruct Htk as [(E1 & _) _]. destruct (Hbuf tA eq_refl) as [Hnn _].
  split; [lia|]. intros _ _.
  unfold token_ok in Ht. rewrite HtokA in Ht. destruct Ht as (_ & Hpos & _).
  lia.
Qed.

Lemma sim_chunk_end_B chunks LA qA hB LB vB nx LB' :
  Inv hB LB [vB] ->
  Whole chunks LA qA LB [vB] ->
  charCodeAt vB (sourceOffset LB) = None ->
  chunk_end (Node.mk vB nx) LB = inr LB' ->
  pend LB [vB] = pend LB' [] ->
  Whole chunks LA qA LB' [].
Proof.
  intros HIB (W1 & Eto & Etl & Etc & W3 & W4 & W5) Hc Hce Hp.
  pose proof (chunk_end_frame _ _ _ Hce) as (Fto & Ftl & Ftc & Ftv & Htk).
  pose proof HIB as (_ & Ho & Ht). cbn in Ho.
  apply charCodeAt_None in Hc; [|lia].
  split; [congruence|]. split; [congruence|]. split; [congruence|].
  split; [congruence|]. split; [|split; [left; reflexivity|assumption]].
  unfold same_token in *. cbn [hd] in W3 |- *.
  destruct (token LA) as [tA|].
  - destruct (token LB) as [tB|] eqn:HtokB; [|contradiction].
    destruct (token LB') as [tB'|] eqn:HtokB'; [|contradiction].
    destruct Htk as [(E1 & E2 & E3) Ety]. destruct W3 as (Hty & (S1 & S2 & S3) & Htx).
    split; [congruence|]. split; [repeat split; congruence|].
    intros Hn. rewrite (Htx Hn).
    unfold text_of at 2. rewrite Ftv. cbn.
    eapply chunk_end_text; try eassumption. lia.
  - destruct (token LB) as [tB|]; [contradiction|].
    destruct (token LB'); [contradiction|exact I].
Qed.

(** Flushing keeps the two lexers at the same place. *)
Lemma Whole_flush chunks LA qA LB qB srcA srcB tA tB LA' LB' :
  Whole chunks LA qA LB qB ->
  flushToken srcA LA = inr (tA, LA') -> flushToken srcB LB = inr (tB, LB') ->
  Whole chunks LA' qA LB' qB.
Proof.
  intros (W1 & Eto & Etl & Etc & W3 & W4 & k & Hk & Hcs & Hbuf) HfA HfB.
  apply flushToken_frame in HfA as (_ & _ & A1 & A2 & A3 & A4 & A5).
  apply flushToken_frame in HfB as (_ & _ & B1 & B2 & B3 & B4 & B5).
  split; [unfold pend in *; congruence|]. split; [congruence|].
  split; [congruence|]. split; [congruence|].
  split; [unfold same_token; rewrite A5, B5; exact I|].
  split.
  - destruct W4 as [?|(vB & ? & ? & ?)]; [auto|right].
    exists vB. split; [assumption|]. split; [congruence|].
    intros t Ht. congruence.
  - exists k. split; [assumption|]. split; [congruence|].
    intros t Ht. congruence.
Qed.

(** At the end of the source the two lexers flush the same token. *)
Lemma sim_flush_eos chunks hA LA hB LB tA :
  Inv hA LA [] -> Inv hB LB [] -> Whole chunks LA [] LB [] ->
  token LA = Some tA ->
  exists t LA' LB',
    flushToken None LA = inr (t, LA') /\ flushToken None LB = inr (t, LB').
Proof.
  intros HIA HIB (_ & Eto & _ & _ & W3 & _) HtokA.
  unfold same_token in W3. rewrite HtokA in W3. cbn [hd] in W3.
  destruct (token LB) as [tB|] eqn:HtokB; [|contradiction].
  destruct W3 as (Hty & Hst & Htx).
  destruct (decide (type tA = LINE)) as [Hl|Hl].
  - rewrite (line_flush _ _ _ HtokA Hl), (line_flush _ _ _ HtokB ltac:(congruence)).
    destruct Hst as (E1 & E2 & E3).
    do 3 eexists. split; [reflexivity|]. do 2 f_equal.
    rewrite Eto, E1. apply set_value_same_start; [congruence|].
    repeat split; assumption.
  - destruct (text_facts_nil _ _ _ HIA HtokA Hl) as [HvA HsA].
    destruct (text_facts_nil _ _ _ HIB HtokB ltac:(congruence)) as [HvB HsB].
    assert (tA = tB) as <-.
    { destruct Hst as (E1 & E2 & E3). rewrite (Htx Hl) in HsA.
      destruct tA, tB; cbn in *; congruence. }
    unfold flushToken. rewrite HtokA, HtokB, HvA, HvB. cbn.
    destruct (type tA); try contradiction; eauto.
Qed.

Lemma pend_head L v q c :
  charCodeAt v (sourceOffset L) = Some c ->
  exists rest, pend L (v :: q) = c :: rest.
Proof.
  intros Hc. apply charCodeAt_Some in Hc as [_ Hc].
  unfold pend. cbn [concat]. eexists. apply drop_S.
  apply lookup_app_l_Some. exact Hc.
Qed.

(** Where the one lexer has a codepoint to read, the other has it too. *)
Lemma Whole_char chunks hA LA vA qA hB LB qB c :
  Inv hA LA (vA :: qA) -> Inv hB LB qB ->
  Whole chunks LA (vA :: qA) LB qB ->
  charCodeAt vA (sourceOffset LA) = Some c ->
  exists vB s nx,
    qB = [vB] /\ charCodeAt vB (sourceOffset LB) = Some c
    /\ source LB = Some s /\ hB !! s = Some (Node.mk vB nx).
Proof.
  intros HIA HIB HW Hc.
  destruct (pend_head LA vA qA c Hc) as [rest Hp].
  pose proof HW as (W1 & _). rewrite Hp in W1.
  destruct (Whole_single _ _ _ _ _ HW) as [->|[vB ->]].
  - rewrite pend_nil in W1. discriminate.
  - pose proof HIB as (_ & Ho & _). cbn in Ho.
    destruct (Inv_head _ _ _ _ HIB) as (s & nx & Hs & Hh & _).
    exists vB, s, nx. split; [reflexivity|].
    split; [|split; assumption].
    eapply pend_single_head; [lia|]. symmetry. exact W1.
Qed.

(** Two lexers at the same place leave the loop of [next] the same way:
    with the same token, with the same exception, or both with [null]. *)
Lemma sim_loop chunks hA hB se :
  Forall clean_start (tail chunks) ->
  forall n LA qA LB qB,
    Inv hA LA qA -> Inv hB LB qB -> Whole chunks LA qA LB qB ->
    (work LA qA + work LB qB < n)%nat ->
    match next_loop n hA se LA, next_loop n hB se LB with
    | Ret rA LA', Ret rB LB' =>
        rA = rB
        /\ exists qA' qB',
             Inv hA LA' qA' /\ Inv hB LB' qB' /\ Whole chunks LA' qA' LB' qB'
    | Throw eA _, Throw eB _ => eA = eB
    | _, _ => False
    end.
Proof.
  intros Hclean. induction n as [|n IH]; intros LA qA LB qB HIA HIB HW Hn;
    [lia|].
  destruct (round_or_exit hA se LA) as [[LA1 HrA]|HexA].
  - destruct (round_cases _ _ _ _ HIA HrA)
      as (vA & qA0 & nxA & lA & -> & HsA & HhA
          & [(c & HcA & HitA & HIA1 & HpA)|(HcA & HceA & HIA1 & HpA & HsoA)]).
    + destruct (Whole_char _ _ _ _ _ _ _ _ _ HIA HIB HW HcA)
        as (vB & s & nxB & -> & HcB & HsB & HhB).
      pose proof (sim_iteration _ _ _ _ _ _ _ _ _ Hclean HIA HIB HW HcA HcB)
        as Hsim.
      rewrite HitA in Hsim. unfold same_iteration in Hsim.
      destruct (iteration vB c LB) as [LB1| |] eqn:HitB; try contradiction.
      assert (round hB LB LB1) as HrB.
      { eapply round_char; [exact HsB|exact HhB|exact HcB|exact HitB]. }
      destruct (round_cases _ _ _ _ HIB HrB)
        as (vB' & qB0 & nxB' & lB & Hq & _ & _
            & [(c' & HcB' & _ & HIB1 & HpB)|(HcB' & _)]);
        injection Hq as <- <-; [|congruence].
      rewrite (next_loop_round _ _ _ _ _ HrA), (next_loop_round _ _ _ _ _ HrB).
      apply (IH LA1 (vA :: qA0) LB1 [vB]); try assumption.
      unfold work in *. rewrite HpA, HpB in Hn. cbn [length] in *. lia.
    + rewrite (next_loop_round _ _ _ _ _ HrA).
      assert (work LB qB < n)%nat as HnB
        by (unfold work in *; cbn [length] in *; lia).
      rewrite (next_loop_fuel hB se LB qB (S n) n HIB ltac:(lia) HnB).
      apply (IH LA1 qA0 LB qB); try assumption.
      * eapply sim_chunk_end_A; eassumption.
      * unfold work in *. rewrite HpA in Hn. cbn [length] in *. lia.
  - destruct (exit_cases hA se LA qA _ HIA eq_refl HexA)
      as [(-> & HsA & Hcase)|(vA & qA0 & c & -> & HcA & Hcase)].
    + destruct (Whole_single _ _ _ _ _ HW) as [->|[vB ->]].
      * destruct (Inv_nil _ _ HIB) as [HsB _].
        rewrite (next_loop_exit _ _ _ _ HexA).
        pose proof HW as (_ & _ & _ & _ & W3 & _). unfold same_token in W3.
        destruct Hcase as [(-> & t0 & t & LA' & Htok & Hfl & Ho)
                          |[Hno Ho]].
        -- rewrite Ho.
           destruct (sim_flush_eos _ _ _ _ _ _ HIA HIB HW Htok)
             as (t' & LA2 & LB2 & HfA & HfB).
           rewrite Hfl in HfA. injection HfA as <- <-.
           rewrite Htok in W3.
           destruct (token LB) as [tB|] eqn:HtokB; [|contradiction].
           assert (next_loop (S n) hB true LB = Ret (Some t) LB2) as HoB.
           { cbn [next_loop]. rewrite HsB, HtokB, HfB.
             rewrite bool_decide_eq_true_2 by eauto. reflexivity. }
           rewrite HoB. split; [reflexivity|]. exists [], [].
           split; [exact (exit_Inv _ _ _ _ _ _ HIA Ho)|].
           split.
           { apply (exit_Inv hB true LB [] (Some t) LB2 HIB).
             cbn [next_loop]. rewrite HsB, HtokB, HfB.
             rewrite bool_decide_eq_true_2 by eauto. reflexivity. }
           exact (Whole_flush _ _ _ _ _ _ _ _ _ _ _ HW Hfl HfB).
        -- rewrite Ho.
           assert (next_loop (S n) hB se LB = Ret None LB) as HoB.
           { cbn [next_loop]. rewrite HsB.
             destruct Hno as [->|Hno]; [reflexivity|].
             rewrite Hno in W3.
             destruct (token LB) eqn:HtokB; [contradiction|].
             rewrite bool_decide_eq_false_2, andb_false_r; [reflexivity|].
             intros [? ?]; discriminate. }
           rewrite HoB. split; [reflexivity|]. exists [], []. auto.
      * (* the single chunk is exhausted, and dropped *)
        pose proof HW as (W1 & _). rewrite pend_nil in W1.
        destruct (round_or_exit hB se LB) as [[LB1 HrB]|HexB].
        -- destruct (round_cases _ _ _ _ HIB HrB)
             as (vB' & qB0 & nxB & lB & Hq & _ & _
                 & [(c & _ & _ & _ & HpB)|(HcB & HceB & HIB1 & HpB & _)]);
             injection Hq as <- <-; [congruence|].
           rewrite (next_loop_round _ _ _ _ _ HrB).
           assert (work LA [] < n)%nat as HnA
             by (unfold work in *; cbn [length] in *; lia).
           rewrite (next_loop_fuel hA se LA [] (S n) n HIA ltac:(lia) HnA).
           apply (IH LA [] LB1 []); try assumption.
           ++ eapply sim_chunk_end_B; eassumption.
           ++ unfold work in *. rewrite <- HpB. cbn [length] in *. lia.
        -- destruct (exit_cases hB se LB [vB] _ HIB eq_refl HexB)
             as [(Hq & _)|(vB' & qB0 & c & Hq & HcB & _)];
             [discriminate|]. injection Hq as <- <-.
           destruct (pend_head LB vB [] c HcB) as [rest Hp]. congruence.
    + destruct (Whole_char _ _ _ _ _ _ _ _ _ HIA HIB HW HcA)
        as (vB & s & nxB & -> & HcB & HsB & HhB).
      pose proof (sim_iteration _ _ _ _ _ _ _ _ _ Hclean HIA HIB HW HcA HcB)
        as Hsim.
      rewrite (next_loop_exit _ _ _ _ HexA).
      unfold same_iteration in Hsim.
      destruct Hcase as [(t & LA' & HitA & Ho)|(e & HitA & Ho)];
        rewrite Ho; rewrite HitA in Hsim.
      * destruct (iteration vB c LB) as [|tB LB'|] eqn:HitB;
          try contradiction. destruct Hsim as [<- HW'].
        assert (forall k, next_loop (S k) hB se LB = Ret (Some t) LB') as HoB.
        { intros k. cbn [next_loop]. rewrite HsB, HhB. cbn [Node.value].
          rewrite HcB, HitB. reflexivity. }
        rewrite HoB. split; [reflexivity|].
        exists (vA :: qA0), [vB].
        split; [exact (exit_Inv _ _ _ _ _ _ HIA Ho)|].
        split; [exact (exit_Inv _ _ _ _ _ _ HIB (HoB O))|assumption].
      * destruct (iteration vB c LB) as [| |eB] eqn:HitB;
          try contradiction.
        cbn [next_loop]. rewrite HsB, HhB. cbn [Node.value].
        rewrite HcB, HitB. exact Hsim.
Qed.

(** Two lexers at the same place answer a call of [next] the same way. *)
Lemma sim_next chunks se a b qA qB :
  Forall clean_start (tail chunks) ->
  Inv (heap a) (this a) qA -> Inv (heap b) (this b) qB ->
  Whole chunks (this a) qA (this b) qB ->
  match next se a, next se b with
  | Returned rA a', Returned rB b' =>
      rA = rB
      /\ exists qA' qB',
           Inv (heap a') (this a') qA' /\ Inv (heap b') (this b') qB'
           /\ Whole chunks (this a') qA' (this b') qB'
  | Thrown eA _, Thrown eB _ => eA = eB
  | _, _ => False
  end.
Proof.
  intros Hclean HIA HIB HW. unfold next.
  pose proof (work_fuel _ _ _ HIA) as HfA.
  pose proof (work_fuel _ _ _ HIB) as HfB.
  set (n := (fuel_of (heap a) + fuel_of (heap b))%nat).
  rewrite (next_loop_fuel (heap a) se (this a) qA (fuel_of (heap a)) n HIA HfA
             ltac:(unfold n; lia)).
  rewrite (next_loop_fuel (heap b) se (this b) qB (fuel_of (heap b)) n HIB HfB
             ltac:(unfold n; lia)).
  pose proof (sim_loop chunks (heap a) (heap b) se Hclean n _ _ _ _ HIA HIB HW
                ltac:(unfold n; lia)) as Hsim.
  destruct (next_loop n (heap a) se (this a)) as [rA LA'|eA LA'|],
    (next_loop n (heap b) se (this b)) as [rB LB'|eB LB'|];
    try contradiction; cbn [heap this]; exact Hsim.
Qed.

(** Two lexers at the same place give the same tokens, and end the
    reading the same way. *)
Lemma sim_read chunks se :
  Forall clean_start (tail chunks) ->
  forall fuel a b qA qB,
    Inv (heap a) (this a) qA -> Inv (heap b) (this b) qB ->
    Whole chunks (this a) qA (this b) qB ->
    (left_to_read (this a) qA < fuel)%nat ->
    (left_to_read (this b) qB < fuel)%nat ->
    outcome (read_tokens fuel se a) = outcome (read_tokens fuel se b).
Proof.
  intros Hclean. induction fuel as [|fuel IH];
    intros a b qA qB HIA HIB HW HlA HlB; [lia|].
  rewrite !read_tokens_S.
  pose proof (sim_next chunks se a b qA qB Hclean HIA HIB HW) as Hsim.
  destruct (next se a) as [rA a'|eA a'|] eqn:HnA,
    (next se b) as [rB b'|eB b'|] eqn:HnB; try contradiction.
  - destruct Hsim as (<- & qA' & qB' & HIA' & HIB' & HW').
    destruct rA as [t|]; [|reflexivity].
    destruct (next_left_to_read _ _ _ _ _ HIA HnA) as (EhA & qA2 & HIA2 & HdA).
    destruct (next_left_to_read _ _ _ _ _ HIB HnB) as (EhB & qB2 & HIB2 & HdB).
    rewrite (Inv_unique _ _ _ _ HIA2 HIA') in HdA.
    rewrite (Inv_unique _ _ _ _ HIB2 HIB') in HdB.
    rewrite !outcome_cons.
    rewrite (IH a' b' qA' qB' HIA' HIB' HW' ltac:(lia) ltac:(lia)).
    reflexivity.
  - subst eB. reflexivity.
Qed.

(** The chunks appended to a lexer are queued behind its queue; nothing
    else of the lexer changes. *)
Lemma append_all_queue chunks :
  forall st q,
    Inv (heap st) (this st) q ->
    exists st',
      append_all chunks st = inr st'
      /\ Inv (heap st') (this st') (q ++ chunks)
      /\ sourceOffset (this st') = sourceOffset (this st)
      /\ tokenOffset (this st') = tokenOffset (this st)
      /\ tokenLine (this st') = tokenLine (this st)
      /\ tokenColumn (this st') = tokenColumn (this st)
      /\ token (this st') = token (this st)
      /\ tokenValueOffset (this st') = tokenValueOffset (this st).
Proof.
  induction chunks as [|c rest IH]; intros st q HI.
  - exists st. rewrite app_nil_r. cbn. auto 10.
  - destruct st as [h L]. cbn [heap this] in *.
    destruct (appendSource_Inv h L q c HI) as (h' & s & tl & Ea & HI' & _).
    destruct (IH {| heap := h'; this := set_queue s tl L |} (q ++ [c]) HI')
      as (st' & E & HI2 & F).
    exists st'. cbn [append_all]. rewrite Ea.
    split; [exact E|]. rewrite <- app_assoc in HI2.
    split; [exact HI2|exact F].
Qed.

(** A new lexer with the chunks queued and a new lexer with the whole
    input queued are at the same place. *)
Lemma Whole_new chunks a b :
  Inv (heap a) (this a) chunks -> Inv (heap b) (this b) [concat chunks] ->
  sourceOffset (this a) = 0 -> tokenOffset (this a) = 0 ->
  tokenLine (this a) = 0 -> tokenColumn (this a) = 0 ->
  token (this a) = None ->
  sourceOffset (this b) = 0 -> tokenOffset (this b) = 0 ->
  tokenLine (this b) = 0 -> tokenColumn (this b) = 0 ->
  token (this b) = None ->
  Whole chunks (this a) chunks (this b) [concat chunks].
Proof.
  intros _ _ A1 A2 A3 A4 A5 B1 B2 B3 B4 B5.
  split; [unfold pend; rewrite A1, B1; cbn; rewrite app_nil_r; reflexivity|].
  split; [congruence|]. split; [congruence|]. split; [congruence|].
  split; [unfold same_token; rewrite A5, B5; exact I|].
  split.
  - right. exists (concat chunks). split; [reflexivity|].
    split; [congruence|]. intros t Ht. congruence.
  - exists O. split; [reflexivity|]. rewrite take_0. cbn.
    split; [lia|]. intros t Ht. congruence.
Qed.

Lemma lex_queued_whole chunks :
  splits_cleanly chunks -> lex_queued chunks = lex_queued [concat chunks].
Proof.
  intros Hclean. unfold lex_queued.
  destruct (append_all_queue chunks State_new [] Inv_new)
    as (a & Ea & HIA & A1 & A2 & A3 & A4 & A5 & _).
  destruct (append_all_queue [concat chunks] State_new [] Inv_new)
    as (b & Eb & HIB & B1 & B2 & B3 & B4 & B5 & _).
  cbn [app] in HIA, HIB.
  rewrite (feed_queued_outcome _ _ _ Ea), (feed_queued_outcome _ _ _ Eb).
  pose proof (tokens_fuel_enough _ _ HIA) as HfA.
  pose proof (tokens_fuel_enough _ _ HIB) as HfB.
  set (n := (tokens_fuel a + tokens_fuel b)%nat).
  rewrite (read_tokens_fuel true (tokens_fuel a) n a chunks HIA HfA
             ltac:(unfold n; lia)).
  rewrite (read_tokens_fuel true (tokens_fuel b) n b [concat chunks] HIB HfB
             ltac:(unfold n; lia)).
  apply (sim_read chunks true Hclean n a b chunks [concat chunks] HIA HIB);
    [|unfold n; lia|unfold n; lia].
  apply Whole_new; assumption.
Qed.

Lemma lex_is_lex_queued chunks : lex chunks = lex_queued chunks.
Proof.
  destruct chunks as [|c rest].
  - vm_compute. reflexivity.
  - apply (feed_is_feed_queued rest c State_new []). apply Inv_new.
Qed.

(** X18.  Chunk boundaries do not show in the tokens when every chunk after
    the first is empty or begins with a codepoint that is neither "x" nor
    a whitespace codepoint other than LINE FEED: reading the chunks, each
    as it arrives or all queued, gives the tokens and the ending of
    reading the whole input as one chunk. *)
Theorem clean_chunks_read_as_one chunks :
  splits_cleanly chunks ->
  lex chunks = lex [concat chunks]
  /\ lex_queued chunks = lex_queued [concat chunks].
Proof.
  intros Hclean. split.
  - rewrite !lex_is_lex_queued. apply lex_queued_whole. exact Hclean.
  - apply lex_queued_whole. exact Hclean.
Qed.

Lemma clean_chunks_read_as_one_witness :
  lex [str "ab"; str "c(1"; str ""; str "2)"]
  = lex [concat [str "ab"; str "c(1"; str ""; str "2)"]]
  /\ lex_queued [str "ab"; str "c(1"; str ""; str "2)"]
     = lex_queued [concat [str "ab"; str "c(1"; str ""; str "2)"]].
Proof.
  apply (clean_chunks_read_as_one [str "ab"; str "c(1"; str ""; str "2)"]).
  unfold splits_cleanly. cbn [tail].
  repeat constructor; vm_compute; congruence.
Defined.

(** * The program on the examples of its documentation *)

(** The session of the comment that heads [Lexer.js]. *)
Example header_session :
  run [Append (str "one [two th"); Next false; Next false; Next false;
       Next false;
       Append (str "ree] fou"); Next false;
       Append (str "r five"); Next false; Next false; Next true; Next false]
    State_new
  = [Got (Some (mkToken SYMBOL (VStr (str "one")) 0 0 0));
     Got (Some (mkToken LEFT_SQUARE_BRACKET VUndefined 4 0 4));
     Got (Some (mkToken SYMBOL (VStr (str "two")) 5 0 5));
     Got None;
     Got (Some (mkToken SYMBOL (VStr (str "three")) 9 0 9));
     Got (Some (mkToken RIGHT_SQUARE_BRACKET VUndefined 14 0 14));
     Got (Some (mkToken SYMBOL (VStr (str "four")) 16 0 16));
     Got (Some (mkToken SYMBOL (VStr (str "five")) 21 0 21));
     Got None].
Proof. vm_compute. reflexivity. Qed.

Example symbol_alone :
  lex [str "foo"] = ([mkToken SYMBOL (VStr (str "foo")) 0 0 0], Complete).
Proof. vm_compute. reflexivity. Qed.

Example symbol_across_chunks :
  lex_queued [str "fo"; str "o bar"]
  = ([mkToken SYMBOL (VStr (str "foo")) 0 0 0;
      mkToken SYMBOL (VStr (str "bar")) 4 0 4], Complete).
Proof. vm_compute. reflexivity. Qed.

Example hex_number :
  lex [str "0x1A"]
  = ([mkToken HEX_NUMBER (VStr (str "0x1A")) 0 0 0], Complete).
Proof. vm_compute. reflexivity. Qed.

Example hex_prefix_after_two_digits :
  lex [str "08x"] = ([], Failed UnexpectedX).
Proof. vm_compute. reflexivity. Qed.

Example fractional_number :
  lex [str "54.8 "]
  = ([mkToken FRACTIONAL_NUMBER (VStr (str "54.8")) 0 0 0], Complete).
Proof. vm_compute. reflexivity. Qed.

Example parentheses :
  lex [str "()"]
  = ([mkToken LEFT_PAREN VUndefined 0 0 0;
      mkToken RIGHT_PAREN VUndefined 1 0 1], Complete).
Proof. vm_compute. reflexivity. Qed.

Example text_is_not_read :
  lex [str "'a'"] = ([], Failed TextNotImplemented).
Proof. vm_compute. reflexivity. Qed.
